(** * Crossover operations of the genetic algorithm (ga/crossover.py)

    A shallow embedding of the [Crossover] class: the call operator that
    draws parents, samples a crossover function, runs it under a
    [try]/[except Exception] and removes offspring already present in the
    parent population, and the [bb_lk_exchange] operation on cages.

    Part I holds the definitions, Part II the properties. *)

From stdpp Require Import gmap strings list.
From Stdlib Require Import ZArith QArith Qabs Qround Lia Lqa.
Close Scope Q_scope.
#[local] Set Warnings "-clear-no-such-hyp".

(* ===================================================================== *)
(** * Part I: definitions *)
(* ===================================================================== *)

(** ** The fragment of Python the module relies on *)

Module Py.

(** Exceptions.  Only the position in the class hierarchy matters to the
    code: [except Exception] catches every class deriving from
    [Exception]; [KeyboardInterrupt] and [SystemExit] derive from
    [BaseException] alone. *)
Inductive exn : Type :=
| Exception (msg : string)
| ValueError (msg : string)
| TypeError (msg : string)
| AttributeError (msg : string)
| IndexError (msg : string)
| KeyboardInterrupt
| SystemExit.

(** [isinstance(ex, Exception)] *)
Definition is_Exception (ex : exn) : bool :=
  match ex with
  | KeyboardInterrupt | SystemExit => false
  | _ => true
  end.

(** A computation that returns or raises. *)
Definition result (A : Type) : Type := exn + A.

Definition ret {A} (a : A) : result A := inr a.
Definition raise {A} (ex : exn) : result A := inl ex.
Definition bind {A B} (r : result A) (k : A → result B) : result B :=
  match r with
  | inl ex => inl ex
  | inr a => k a
  end.

(** Truth value of a string: only the empty string is falsy. *)
Definition truthy (s : string) : bool :=
  match s with
  | EmptyString => false
  | String _ _ => true
  end.

(** [sys.maxsize], on a 64-bit build. *)
Definition sys_maxsize : Z := (2 ^ 63 - 1)%Z.

(** The bound of [islice(iterable, stop)]: an integer from 0 to
    [sys.maxsize] is accepted; with any other, [islice] raises a
    [ValueError] before it asks the iterable for anything. *)
Definition islice_stop (stop : Z) : result nat :=
  if decide (0 ≤ stop ≤ sys_maxsize)%Z
  then ret (Z.to_nat stop)
  else if decide (- sys_maxsize - 1 ≤ stop < -1)%Z
  then raise (ValueError "Indices for islice() must be None or an integer: 0 <= x <= sys.maxsize.")
  else raise (ValueError "Stop argument for islice() must be None or an integer: 0 <= x <= sys.maxsize.").

(** [list(enumerate(l, start))] *)
Fixpoint enumerate {A} (start : nat) (l : list A) : list (nat * A) :=
  match l with
  | [] => []
  | x :: l' => (start, x) :: enumerate (S start) l'
  end.

(** *** [collections.Counter] as a finite map to integers *)
Section Counter.
Context `{Countable K}.

(** [c.get(k, 0)] *)
Definition Counter_get (c : gmap K Z) (k : K) : Z := default 0%Z (c !! k).

(** [c.update(iterable)]: one more for every element met. *)
Definition Counter_update (xs : list K) (c : gmap K Z) : gmap K Z :=
  foldl (λ acc x, <[x := (Counter_get acc x + 1)%Z]> acc) c xs.

(** [c.update(mapping)]: the mapping's counts are added; a key is
    created even when the count added is zero. *)
Definition Counter_update_mapping (kvs : list (K * Z)) (c : gmap K Z)
  : gmap K Z :=
  foldl (λ acc kv, <[kv.1 := (kv.2 + Counter_get acc kv.1)%Z]> acc) c kvs.

(** [sum(c.values())] *)
Definition Counter_total (c : gmap K Z) : Z :=
  map_fold (λ _ v acc, (v + acc)%Z) 0%Z c.
End Counter.

(** *** [max] and [min] over an iterable of 2-tuples *)
Section MinMax.
Context {A B : Type} `{EqDecision A} `{EqDecision B}.
Variable lt1 : A → A → bool.
Variable lt2 : B → B → bool.

(** [x < y] on tuples: the first position where the two differ (by
    [==]) decides. *)
Definition tuple_lt (x y : A * B) : bool :=
  if decide (x.1 = y.1)
  then if decide (x.2 = y.2) then false else lt2 x.2 y.2
  else lt1 x.1 y.1.

(** [x > y], by the reflected comparison of the components. *)
Definition tuple_gt (x y : A * B) : bool :=
  if decide (x.1 = y.1)
  then if decide (x.2 = y.2) then false else lt2 y.2 x.2
  else lt1 y.1 x.1.

(** The scan both builtins perform: the running item is replaced only
    by an item that compares strictly better. *)
Fixpoint scan (better : A * B → A * B → bool) (cur : A * B)
         (rest : list (A * B)) : A * B :=
  match rest with
  | [] => cur
  | item :: rest' => scan better (if better item cur then item else cur) rest'
  end.

Definition max (items : list (A * B)) : result (A * B) :=
  match items with
  | [] => raise (ValueError "max() arg is an empty sequence")
  | first :: rest => ret (scan tuple_gt first rest)
  end.

Definition min (items : list (A * B)) : result (A * B) :=
  match items with
  | [] => raise (ValueError "min() arg is an empty sequence")
  | first :: rest => ret (scan tuple_lt first rest)
  end.
End MinMax.

End Py.

Notation "'let*' x ':=' e 'in' k" := (Py.bind e (λ x, k))
  (at level 10, x pattern, e at level 100, k at level 200, only parsing).

(** ** Populations *)

Module Pop.
Section Population.
Context {Mol : Type} `{Countable Mol}.
Context {GATools : Type}.

(** Modelled from the spec: the [Population] class (ga/population.py) is
    not among the sources.  The spec speaks of "an offspring set" whose
    molecules are compared "by structural/canonical identity" and of
    "set-difference deduplication of offspring against the parent
    population", so a population is a finite set of molecules together
    with the GA tools it carries. *)
Record Population : Type := mkPopulation
  { ga_tools : GATools;
    members : gset Mol }.

(** Modelled from the spec: [Population(ga_tools)], the constructor of
    the missing class, makes the empty set. *)
Definition __init__ (tools : GATools) : Population :=
  {| ga_tools := tools; members := ∅ |}.

(** Modelled from the spec: [for m in pop] on the missing class goes
    through the molecules of the set. *)
Definition __iter__ (pop : Population) : list Mol := elements (members pop).

(** Modelled from the spec: [pop.add_members(mols)] collects the
    molecules into the set. *)
Definition add_members (pop : Population) (mols : list Mol) : Population :=
  {| ga_tools := ga_tools pop;
     members := members pop ∪ list_to_set mols |}.

(** Modelled from the spec: [pop -= other] removes from [pop] every
    molecule equal to a member of [other]. *)
Definition __isub__ (pop other : Population) : Population :=
  {| ga_tools := ga_tools pop;
     members := members pop ∖ members other |}.
End Population.
Arguments Population Mol {_ _} GATools.
End Pop.

(** ** Cages *)

Module Molecules.
Section Cage.
Context {BB Topology : Type}.

(** Modelled from the spec: the [Cage] class (molecular/molecules.py) is
    not among the sources.  The spec compares molecules "by
    structural/canonical identity" and speaks of "their substructures
    (building blocks and linkers)"; the source builds a cage from a pair
    of building blocks and a topology, so these identify a cage. *)
Record Cage : Type := mkCage
  { building_blocks : list BB;
    topology : Topology }.

(** [Cage((x, y), topology)] *)
Definition Cage_init (bbs : BB * BB) (t : Topology) : Cage :=
  {| building_blocks := [bbs.1; bbs.2]; topology := t |}.

Context `{Countable BB} `{Countable Topology}.

#[export] Instance Cage_eq_dec : EqDecision Cage.
Proof. solve_decision. Defined.

#[export] Instance Cage_countable : Countable Cage.
Proof.
  refine (inj_countable' (λ c, (building_blocks c, topology c))
                         (λ p, mkCage p.1 p.2) _).
  by intros [].
Defined.
End Cage.
Arguments Cage : clear implicits.
End Molecules.

(** ** [numpy.random.choice] *)

Module Numpy.
Import Py.
Local Open Scope Q_scope.

(** [p.cumsum()], started from [acc]. *)
Fixpoint cumsum_from (acc : Q) (p : list Q) : list Q :=
  match p with
  | [] => []
  | x :: p' => (acc + x) :: cumsum_from (acc + x) p'
  end.

Definition cumsum (p : list Q) : list Q := cumsum_from 0 p.

Definition sum (p : list Q) : Q := foldr Qplus 0 p.

(** [cdf.searchsorted(u, side='right')] on a sorted [cdf]: the number of
    leading entries that are at most [u]. *)
Fixpoint searchsorted_right (cdf : list Q) (u : Q) : nat :=
  match cdf with
  | [] => 0%nat
  | c :: cdf' => if Qle_bool c u then S (searchsorted_right cdf' u) else 0%nat
  end.

(** [randint(0, high)]: an integer of [[0, high)] that the state of the
    generator determines; [raw] stands for what the generator yields, and
    the remainder for its reduction to the range. *)
Definition randint (high raw : nat) : nat := raw `mod` high.

(** The tolerance of the test on the sum of the probabilities: the
    square root of the machine epsilon of [float64]. *)
Definition atol : Q := 1 # 2 ^ 26.

(** The arguments [choice] accepts: something to choose from and, when
    probabilities are given, as many as choices, none negative, with a
    sum that is one within the tolerance. *)
Definition valid_args (n : nat) (p : option (list Q)) : Prop :=
  n ≠ 0%nat
  ∧ match p with
    | None => True
    | Some p =>
        length p = n ∧ Forall (λ w, 0 <= w) p ∧ Qabs (sum p - 1) <= atol
    end.

(** [cdf /= cdf[-1]] *)
Definition normalise (cdf : list Q) : list Q :=
  match last cdf with
  | Some total => (λ c, c / total) <$> cdf
  | None => cdf
  end.

Section choice.
Context {A : Type}.

(** The index drawn by [choice] once its arguments are accepted: with
    probabilities, where the uniform variate [u] falls in the normalised
    running sum; without, the integer of [randint]. *)
Definition choice_index (n : nat) (p : option (list Q)) (u : Q) (raw : nat)
  : nat :=
  match p with
  | None => randint n raw
  | Some p => searchsorted_right (normalise (cumsum p)) u
  end.

(** [np.random.choice(a, p=p)] for a one-dimensional [a] and one sample,
    drawn from what the generator supplies: the uniform variate [u] of
    [[0, 1)] when probabilities are given, the integer [raw] otherwise.
    Probabilities are exact rationals, where numpy has floating-point
    numbers. *)
Definition choice (a : list A) (p : option (list Q)) (u : Q) (raw : nat)
  : result A :=
  if decide (length a = 0%nat)
  then raise (ValueError "'a' cannot be empty unless no samples are taken")
  else
    let* _ :=
      match p with
      | None => ret ()
      | Some p =>
          if negb (length p =? length a)%nat
          then raise (ValueError "'a' and 'p' must have same size")
          else if existsb (λ x, negb (Qle_bool 0 x)) p
          then raise (ValueError "probabilities are not non-negative")
          else if negb (Qle_bool (Qabs (sum p - 1)) atol)
          then raise (ValueError "probabilities do not sum to 1")
          else ret ()
      end in
    match a !! choice_index (length a) p u raw with
    | Some x => ret x
    | None => raise (IndexError "index out of bounds")
    end.
End choice.
End Numpy.

(** ** [Crossover.__call__] *)

Module Crossover.
Import Py Pop Numpy.

Section Call.
Context {Mol : Type} `{Countable Mol}.
Context {GATools Value Sel : Type}.

(** Modelled from the spec: the [FunctionData] class is not among the
    sources.  The spec has "an ordered list of (name, weight, parameters)
    crossover definitions"; the source reads the [name] and the [params]
    of an element of [funcs] and keeps the weights apart. *)
Record FunctionData : Type := mkFunctionData
  { name : string;
    params : gmap string Value }.

(** A bound attribute of the instance when called with the parents
    unpacked as positional arguments and the parameters unpacked as
    keyword arguments. *)
Definition Method : Type :=
  list Mol → gmap string Value → result (Population Mol GATools).

(** The instance's own attributes, set by [__init__].  [num_crossovers]
    is an integer, of either sign. *)
Record Crossover : Type := mkCrossover
  { funcs : list FunctionData;
    num_crossovers : Z;
    weights : option (list Q) }.

(** What the call consumes from outside this module. *)
Record Env : Type := mkEnv
  { (** [getattr(self, name)]; [None] when the attribute is missing *)
    getattr : string → option Method;
    (** [population.select('crossover')]: a fresh generator *)
    select : Population Mol GATools → Sel;
    (** [next] on that generator; [None] when it is exhausted *)
    next : Sel → option (list Mol * Sel);
    (** the uniform variate the global generator supplies to the
        [choice] of crossover number [i] *)
    random_sample : nat → Q;
    (** the integer it yields there for [randint] *)
    random_integer : nat → nat;
    (** the [name] attribute of a molecule *)
    mol_name : Mol → string }.

(** Records handed to [logger], with the values formatted into them. *)
Inductive log_record : Type :=
| info_crossover_number (i : nat) (n : Z)
| debug_retrieved_from_cache (offspring_name : string)
| error_failed (func_name : string) (parent_names : list string).

(** What the call does that is visible from outside, in order. *)
Inductive event : Type :=
| Drawn (i : nat) (parents : list Mol)
| Logged (r : log_record)
| Sampled (i : nat) (func_data : FunctionData)
| Invoked (i : nat) (func_name : string) (args : list Mol)
          (kwargs : gmap string Value)
| Returned (i : nat) (offspring : Population Mol GATools)
| Raised (i : nat) (ex : exn)
| Plotted (counter : gmap Mol Z) (path : string).

(** The local variables of the call, and the events so far. *)
Record state : Type := mkState
  { offspring_pop : Population Mol GATools;
    counter : gmap Mol Z;
    trace : list event }.

Definition emit (e : event) (st : state) : state :=
  {| offspring_pop := offspring_pop st;
     counter := counter st;
     trace := trace st ++ [e] |}.

Definition set_counter (c : gmap Mol Z) (st : state) : state :=
  {| offspring_pop := offspring_pop st;
     counter := c;
     trace := trace st |}.

Definition set_offspring_pop (pop : Population Mol GATools) (st : state)
  : state :=
  {| offspring_pop := pop;
     counter := counter st;
     trace := trace st |}.

(** How a turn of the loop, or the loop, ends: it goes on with the
    state, or an exception leaves the call. *)
Inductive flow : Type :=
| Next (st : state)
| Propagate (ex : exn) (st : state).

(** The state a turn, or the loop, ends in. *)
Definition flow_state (f : flow) : state :=
  match f with
  | Next st => st
  | Propagate _ st => st
  end.

Variable env : Env.
Variable self : Crossover.

(** [for o in offspring: if o.name: logger.debug(...)] *)
Definition log_cached (offspring : Population Mol GATools) (st : state)
  : state :=
  foldl (λ acc o,
           if truthy (mol_name env o)
           then emit (Logged (debug_retrieved_from_cache (mol_name env o))) acc
           else acc)
        st (__iter__ offspring).

(** The body of the [for] loop, for crossover number [i]. *)
Definition body (i : nat) (parents : list Mol) (st : state) : flow :=
  let st := emit (Drawn i parents) st in
  let st := emit (Logged (info_crossover_number i (num_crossovers self))) st in
  let st := set_counter (Counter_update parents (counter st)) st in
  match choice (funcs self) (weights self) (random_sample env i)
               (random_integer env i) with
  | inl ex => Propagate ex st
  | inr func_data =>
      let st := emit (Sampled i func_data) st in
      match getattr env (name func_data) with
      | None => Propagate (AttributeError (name func_data)) st
      | Some func =>
          let st := emit (Invoked i (name func_data) parents
                                  (params func_data)) st in
          match func parents (params func_data) with
          | inr offspring =>
              let st := emit (Returned i offspring) st in
              let st := log_cached offspring st in
              Next (set_offspring_pop
                      (add_members (offspring_pop st) (__iter__ offspring)) st)
          | inl ex =>
              let st := emit (Raised i ex) st in
              if is_Exception ex
              then Next (emit (Logged (error_failed (name func_data)
                                         (mol_name env <$> parents))) st)
              else Propagate ex st
          end
      end
  end.

(** [for i, parents in enumerate(islice(pool, remaining), i)]: the
    generator is asked for an item only while [remaining] is positive. *)
Fixpoint loop (remaining i : nat) (pool : Sel) (st : state) : flow :=
  match remaining with
  | 0 => Next st
  | S remaining' =>
      match next env pool with
      | None => Next st
      | Some (parents, pool') =>
          match body i parents st with
          | Next st' => loop remaining' (S i) pool' st'
          | Propagate ex st' => Propagate ex st'
          end
      end
  end.

(** [for member in population: if member not in counter.keys():
    counter.update({member: 0})] *)
Definition add_unselected (population : Population Mol GATools)
           (c : gmap Mol Z) : gmap Mol Z :=
  foldl (λ acc member,
           match acc !! member with
           | Some _ => acc
           | None => Counter_update_mapping [(member, 0%Z)] acc
           end)
        c (__iter__ population).

(** [self(population, counter_path)]: what is returned or raised, and
    the final state. *)
Definition __call__ (population : Population Mol GATools)
           (counter_path : string)
  : result (Population Mol GATools) * state :=
  let st := {| offspring_pop := __init__ (ga_tools population);
               counter := ∅;
               trace := [] |} in
  match islice_stop (num_crossovers self) with
  | inl ex => (raise ex, st)
  | inr stop =>
      match loop stop 1 (select env population) st with
      | Propagate ex st => (raise ex, st)
      | Next st =>
          let st :=
            set_offspring_pop (__isub__ (offspring_pop st) population) st in
          let st :=
            if truthy counter_path
            then
              let c := add_unselected population (counter st) in
              emit (Plotted c counter_path) (set_counter c st)
            else st in
          (ret (offspring_pop st), st)
      end
  end.
End Call.

Arguments FunctionData : clear implicits.
Arguments Method Mol {_ _} GATools Value.
Arguments Crossover : clear implicits.
Arguments Env Mol {_ _} GATools Value Sel.
Arguments event Mol {_ _} GATools Value.
Arguments state Mol {_ _} GATools Value.
Arguments flow Mol {_ _} GATools Value.

(** *** Reading a trace *)
Section Observations.
Context {Mol : Type} `{Countable Mol}.
Context {GATools Value : Type}.
Implicit Types tr : list (event Mol GATools Value).

(** The parents drawn from the pool, with the crossover number. *)
Definition drawn tr : list (nat * list Mol) :=
  omap (λ e, match e with Drawn i ps => Some (i, ps) | _ => None end) tr.

(** The results of [np.random.choice]. *)
Definition sampled tr : list (nat * FunctionData Value) :=
  omap (λ e, match e with Sampled i fd => Some (i, fd) | _ => None end) tr.

(** The crossover functions called, with their arguments. *)
Definition invoked tr
  : list (nat * (string * list Mol * gmap string Value)) :=
  omap (λ e, match e with
             | Invoked i f args kw => Some (i, (f, args, kw))
             | _ => None
             end) tr.

(** The offspring of the calls that returned. *)
Definition returned tr : list (nat * Population Mol GATools) :=
  omap (λ e, match e with Returned i o => Some (i, o) | _ => None end) tr.

(** The exceptions of the calls that raised. *)
Definition raised tr : list (nat * exn) :=
  omap (λ e, match e with Raised i ex => Some (i, ex) | _ => None end) tr.

(** The failures handed to [logger.error]. *)
Definition errors_logged tr : list (string * list string) :=
  omap (λ e, match e with
             | Logged (error_failed f ps) => Some (f, ps)
             | _ => None
             end) tr.

(** The calls of [plot_counter]. *)
Definition plotted tr : list (gmap Mol Z * string) :=
  omap (λ e, match e with Plotted c p => Some (c, p) | _ => None end) tr.

(** All offspring collected from the calls that returned. *)
Definition collected tr : gset Mol :=
  ⋃ ((λ r, members r.2) <$> returned tr).

(** How often [m] occurs in a tuple of parents. *)
Definition occurrences (m : Mol) (parents : list Mol) : nat :=
  length (filter (λ x, x = m) parents).

(** How often [m] was selected, over all the parents drawn. *)
Definition times_selected (m : Mol) tr : nat :=
  sum_list (occurrences m <$> (snd <$> drawn tr)).

(** In how many of the parent tuples drawn [m] is present. *)
Definition pairs_with (m : Mol) tr : nat :=
  length (filter (λ d, m ∈ d.2) (drawn tr)).

(** The numbers handed to [logger.info]: the crossover number and the
    number at which to finish. *)
Definition infos tr : list (nat * Z) :=
  omap (λ e, match e with
             | Logged (info_crossover_number i n) => Some (i, n)
             | _ => None
             end) tr.

(** The offspring names handed to [logger.debug]. *)
Definition debugs tr : list string :=
  omap (λ e, match e with
             | Logged (debug_retrieved_from_cache n) => Some n
             | _ => None
             end) tr.

(** The molecules of the parent tuples drawn. *)
Definition molecules_drawn tr : gset Mol :=
  ⋃ (list_to_set <$> (drawn tr).*2).

(** How many parents were drawn, over all the tuples. *)
Definition parents_drawn tr : nat :=
  sum_list (length <$> (drawn tr).*2).
End Observations.

(** *** The parent-selection stream *)
Section Stream.
Context {Item Sel : Type}.
Variable next : Sel → option (Item * Sel).

(** The generator after [k] items, if it has that many. *)
Fixpoint advance (k : nat) (pool : Sel) : option Sel :=
  match k with
  | 0 => Some pool
  | S k' =>
      match next pool with
      | None => None
      | Some (_, pool') => advance k' pool'
      end
  end.

(** The stream has exactly [len] items. *)
Definition has_length (pool : Sel) (len : nat) : Prop :=
  ∃ pool', advance len pool = Some pool' ∧ next pool' = None.

(** The stream never ends. *)
Definition unbounded (pool : Sel) : Prop :=
  ∀ k, is_Some (advance k pool).

(** [list(islice(pool, n))] *)
Fixpoint islice (n : nat) (pool : Sel) : list Item :=
  match n with
  | 0 => []
  | S n' =>
      match next pool with
      | None => []
      | Some (x, pool') => x :: islice n' pool'
      end
  end.
End Stream.

(** *** Vocabulary for the properties of the call *)
Section Turns.
Context {Mol : Type} `{Countable Mol}.
Context {GATools Value Sel : Type}.
Variable env : Env Mol GATools Value Sel.
Variable self : Crossover Value.

Local Abbreviation sample i :=
  (choice (funcs self) (weights self) (random_sample env i)
          (random_integer env i)).

(** [list(parent_pool)]: the tuples the loop can draw, once [islice]
    has accepted [num_crossovers]. *)
Definition parent_pool (population : Population Mol GATools)
  : list (list Mol) :=
  islice (next env) (Z.to_nat (num_crossovers self)) (select env population).

(** After crossover number [i] on [parents] the loop goes on: a
    function is sampled and found, and it returns or raises an exception
    that derives from [Exception]. *)
Definition goes_on (i : nat) (parents : list Mol) : Prop :=
  ∃ fd func,
    sample i = inr fd ∧ getattr env (name fd) = Some func
    ∧ ∀ ex, func parents (params fd) = inl ex → is_Exception ex = true.

(** Crossover number [i] on [parents] is left by the exception [ex]:
    [np.random.choice] raises it, or [getattr] does, or the crossover
    function raises it and it does not derive from [Exception]. *)
Definition leaves (i : nat) (parents : list Mol) (ex : exn) : Prop :=
  sample i = inl ex
  ∨ (∃ fd, sample i = inr fd ∧ getattr env (name fd) = None
           ∧ ex = AttributeError (name fd))
  ∨ (∃ fd func,
       sample i = inr fd ∧ getattr env (name fd) = Some func
       ∧ func parents (params fd) = inl ex ∧ is_Exception ex = false).

(** The trace [tr] holds crossover number [i] on [parents] in full: the
    function sampled and found, its call on the parents with the
    parameters, and what the call returned or raised, with the error
    logged for an exception that derives from [Exception]. *)
Definition crossed (tr : list (event Mol GATools Value)) (i : nat)
           (parents : list Mol) : Prop :=
  ∃ fd func,
    sample i = inr fd ∧ getattr env (name fd) = Some func
    ∧ (i, fd) ∈ sampled tr
    ∧ (i, (name fd, parents, params fd)) ∈ invoked tr
    ∧ match func parents (params fd) with
      | inr offspring => (i, offspring) ∈ returned tr
      | inl ex =>
          (i, ex) ∈ raised tr
          ∧ (is_Exception ex = true →
             (name fd, mol_name env <$> parents) ∈ errors_logged tr)
      end.

(** Every tuple drawn so far was crossed in full, and nothing else was
    sampled for or called. *)
Definition all_crossed (tr : list (event Mol GATools Value)) : Prop :=
  (sampled tr).*1 = (drawn tr).*1
  ∧ (invoked tr).*1 = (drawn tr).*1
  ∧ ∀ i parents, (i, parents) ∈ drawn tr → crossed tr i parents.
End Turns.
End Crossover.

(** ** [Crossover.bb_lk_exchange] *)

Module Exchange.
Import Py Pop Molecules.

Section bb_lk_exchange.
Context {BB Topology GATools : Type}.
Context `{Countable BB} `{Countable Topology}.

(** The [bb_counter] attribute of a cage, a [Counter] filled when the
    cage is assembled: its items in iteration order. *)
Variable bb_counter : Cage BB Topology → list (BB * Z).
(** [k1 < k2] on the keys of [bb_counter]. *)
Variable key_lt : BB → BB → bool.
(** The GA tools of [Population()]. *)
Variable empty_tools : GATools.

(** [zip(c.values(), c.keys())] *)
Definition zip_values_keys (c : list (BB * Z)) : list (Z * BB) :=
  (λ kv, (kv.2, kv.1)) <$> c.

(** [_, lk = max(zip(m.bb_counter.values(), m.bb_counter.keys()))] *)
Definition linker (m : Cage BB Topology) : result BB :=
  let* item := max Z.ltb key_lt (zip_values_keys (bb_counter m)) in
  ret item.2.

(** [_, bb = min(zip(m.bb_counter.values(), m.bb_counter.keys()))] *)
Definition building_block (m : Cage BB Topology) : result BB :=
  let* item := min Z.ltb key_lt (zip_values_keys (bb_counter m)) in
  ret item.2.

(** The two cages built in one turn of the loop over the topologies. *)
Definition offspring_pair (c1_lk c1_bb c2_lk c2_bb : BB) (t : Topology)
  : Cage BB Topology * Cage BB Topology :=
  (Cage_init (c1_lk, c2_bb) t, Cage_init (c2_lk, c1_bb) t).

(** [topologies = (x.topology for x in (macro_mol1, macro_mol2))] *)
Definition topologies (macro_mol1 macro_mol2 : Cage BB Topology)
  : list Topology :=
  topology <$> [macro_mol1; macro_mol2].

(** The pairs built by the loop, in order. *)
Definition offspring_pairs (macro_mol1 macro_mol2 : Cage BB Topology)
  : result (list (Cage BB Topology * Cage BB Topology)) :=
  let* c1_lk := linker macro_mol1 in
  let* c1_bb := building_block macro_mol1 in
  let* c2_lk := linker macro_mol2 in
  let* c2_bb := building_block macro_mol2 in
  ret (offspring_pair c1_lk c1_bb c2_lk c2_bb
         <$> topologies macro_mol1 macro_mol2).

(** Every [Cage(...)] the call evaluates, in order. *)
Definition constructions (macro_mol1 macro_mol2 : Cage BB Topology)
  : result (list (Cage BB Topology)) :=
  let* pairs := offspring_pairs macro_mol1 macro_mol2 in
  ret (pairs ≫= λ p, [p.1; p.2]).

Definition bb_lk_exchange (macro_mol1 macro_mol2 : Cage BB Topology)
  : result (Population (Cage BB Topology) GATools) :=
  let* pairs := offspring_pairs macro_mol1 macro_mol2 in
  ret (foldl (λ offspring_pop p, add_members offspring_pop [p.1; p.2])
             (__init__ empty_tools) pairs).

(** *** Vocabulary for the properties of the exchange *)

(** [x <= y] on [(count, key)] tuples. *)
Definition lex_le (x y : Z * BB) : Prop :=
  (x.1 < y.1)%Z ∨ (x.1 = y.1 ∧ (x.2 = y.2 ∨ key_lt x.2 y.2 = true)).

(** [k] is the key of the greatest [(count, key)] tuple of [c]. *)
Definition greatest_key (c : list (BB * Z)) (k : BB) : Prop :=
  ∃ n, (k, n) ∈ c ∧ ∀ k' n', (k', n') ∈ c → lex_le (n', k') (n, k).

(** [k] is the key of the least [(count, key)] tuple of [c]. *)
Definition least_key (c : list (BB * Z)) (k : BB) : Prop :=
  ∃ n, (k, n) ∈ c ∧ ∀ k' n', (k', n') ∈ c → lex_le (n, k) (n', k').

(** [o] is made of the linker of [m1] and the building block of [m2]. *)
Definition crosses (m1 m2 o : Cage BB Topology) : Prop :=
  ∃ lk bb, linker m1 = inr lk ∧ building_block m2 = inr bb
           ∧ building_blocks o = [lk; bb].

(** [o] is made of the linker and the building block of [m] alone. *)
Definition recombines_own (m o : Cage BB Topology) : Prop :=
  crosses m m o.

(** Every cage built joins the linker of one parent to the building
    block of the other and none joins those of one parent. *)
Definition exchanges_only (macro_mol1 macro_mol2 : Cage BB Topology)
  : Prop :=
  ∀ built o,
    constructions macro_mol1 macro_mol2 = inr built → o ∈ built →
    (crosses macro_mol1 macro_mol2 o ∨ crosses macro_mol2 macro_mol1 o)
    ∧ ¬ recombines_own macro_mol1 o ∧ ¬ recombines_own macro_mol2 o.
End bb_lk_exchange.

(** [<] on keys is a strict total order. *)
Definition strict_total {BB : Type} (lt : BB → BB → bool) : Prop :=
  (∀ a, lt a a = false)
  ∧ (∀ a b c, lt a b = true → lt b c = true → lt a c = true)
  ∧ (∀ a b, a ≠ b → lt a b = true ∨ lt b a = true).

Section Attributes.
Context {BB Topology GATools Value : Type}.
Context `{Countable BB} `{Countable Topology}.
Variable bb_counter : Cage BB Topology → list (BB * Z).
Variable key_lt : BB → BB → bool.
Variable empty_tools : GATools.
(** The value of a parameter, when it is a cage: an object with a
    [bb_counter] and a [topology]. *)
Variable as_cage : Value → option (Cage BB Topology).

(** What a parameter of [bb_lk_exchange] is bound to: a parent, passed
    by position, or the value of a keyword. *)
Inductive argument : Type :=
| Positional (parent : Cage BB Topology)
| Keyword (value : Value).

(** The binding of the unpacked parents and keyword parameters to
    [macro_mol1] and [macro_mol2]
    ([self] is bound already).  A keyword that names no parameter, or
    one that is filled by position, too many positional arguments and a
    parameter left unfilled are [TypeError]s.  The interpreter's message
    names the argument at fault, the first it meets; here the text is cut
    before the name and the keywords are not ordered. *)
Definition bind_arguments (args : list (Cage BB Topology))
           (kwargs : gmap string Value) : result (argument * argument) :=
  if decide (dom kwargs ⊆ ({["macro_mol1"; "macro_mol2"]} : gset string))
  then
    let slot (position : nat) (parameter : string)
      : result (option argument) :=
      match args !! position, kwargs !! parameter with
      | Some _, Some _ =>
          raise (TypeError "bb_lk_exchange() got multiple values for argument")
      | Some parent, None => ret (Some (Positional parent))
      | None, Some value => ret (Some (Keyword value))
      | None, None => ret None
      end in
    let* macro_mol1 := slot 0 "macro_mol1" in
    let* macro_mol2 := slot 1 "macro_mol2" in
    if decide (2 < length args)
    then raise (TypeError "bb_lk_exchange() takes 3 positional arguments")
    else
      match macro_mol1, macro_mol2 with
      | Some macro_mol1, Some macro_mol2 => ret (macro_mol1, macro_mol2)
      | _, _ =>
          raise (TypeError "bb_lk_exchange() missing required positional arguments")
      end
  else raise (TypeError "bb_lk_exchange() got an unexpected keyword argument").

(** The object whose [bb_counter] and [topology] are read: a value that
    is no cage has neither. *)
Definition read_cage (a : argument) : result (Cage BB Topology) :=
  match a with
  | Positional parent => ret parent
  | Keyword value =>
      match as_cage value with
      | Some cage => ret cage
      | None => raise (AttributeError "bb_counter")
      end
  end.

(** [bb_lk_exchange] as a bound method, called with the parents
    unpacked and the parameters as keywords.  [macro_mol2.bb_counter] is
    read after the selections in [macro_mol1], so a failure of those
    comes first. *)
Definition bb_lk_exchange_method
  : Crossover.Method (Cage BB Topology) GATools Value :=
  λ args kwargs,
    let* bound := bind_arguments args kwargs in
    let* macro_mol1 := read_cage bound.1 in
    match read_cage bound.2 with
    | inr macro_mol2 =>
        bb_lk_exchange bb_counter key_lt empty_tools macro_mol1 macro_mol2
    | inl ex =>
        let* _ := linker bb_counter key_lt macro_mol1 in
        let* _ := building_block bb_counter key_lt macro_mol1 in
        raise ex
    end.

(** An attribute that is no function: calling it is a [TypeError], whose
    message names the type of the attribute; the text is cut before it. *)
Definition not_callable
  : Crossover.Method (Cage BB Topology) GATools Value :=
  λ _ _, raise (TypeError "object is not callable").

(** [getattr(self, attr)] on the attributes the module gives an
    instance: the crossover function it defines and the three attributes
    that [__init__] sets, which are no functions.  The attributes that
    every object has are left out. *)
Definition Crossover_getattr (attr : string)
  : option (Crossover.Method (Cage BB Topology) GATools Value) :=
  if decide (attr = "bb_lk_exchange")
  then Some bb_lk_exchange_method
  else if decide (attr ∈ ["funcs"; "weights"; "num_crossovers"])
  then Some not_callable
  else None.
End Attributes.
End Exchange.

(** ** Concrete cages, streams and collaborators, for the examples *)

Module Fixture.
Import Py Pop Molecules Crossover Exchange.

(** Building blocks and topologies are numbered. *)
Abbreviation cage := (Cage nat nat).
Abbreviation population := (Population cage unit).

(** Six linkers and four building blocks; three of each in topology 2;
    a cage built from one molecule twice counts it ten times. *)
Definition bb_counter (c : cage) : list (nat * Z) :=
  match building_blocks c with
  | [x; y] =>
      if decide (x = y) then [(x, 10%Z)]
      else if decide (topology c = 2) then [(x, 3%Z); (y, 3%Z)]
      else [(x, 6%Z); (y, 4%Z)]
  | _ => []
  end.

Definition cage_a : cage := Cage_init (10, 1) 0.
Definition cage_b : cage := Cage_init (20, 2) 1.
(** Shares its building block with [cage_a]. *)
Definition cage_c : cage := Cage_init (30, 1) 0.
(** Equal counts. *)
Definition cage_tied : cage := Cage_init (7, 5) 2.

(** The values of parameters: numbers and cages. *)
Inductive value : Type :=
| Number (n : Z)
| Molecule (c : cage).

Definition as_cage (v : value) : option cage :=
  match v with
  | Molecule c => Some c
  | Number _ => None
  end.

Definition exchange : FunctionData value :=
  {| name := "bb_lk_exchange"; params := ∅ |}.
Definition failing : FunctionData value :=
  {| name := "failing"; params := ∅ |}.
Definition interrupted : FunctionData value :=
  {| name := "interrupted"; params := ∅ |}.
(** The exchange with [cage_c] as its second parent, whatever is drawn. *)
Definition exchange_with_c : FunctionData value :=
  {| name := "bb_lk_exchange";
     params := {["macro_mol2" := Molecule cage_c]} |}.

(** The attributes of the class. *)
Definition getattr_class : string → option (Method cage unit value) :=
  Crossover_getattr bb_counter Nat.ltb () as_cage.

(** The class extended with a crossover function that always fails. *)
Definition getattr_failing (attr : string)
  : option (Method cage unit value) :=
  if decide (attr = "failing")
  then Some (λ _ _, raise (Exception "no offspring"))
  else getattr_class attr.

(** The same, with a crossover function that is interrupted from the
    keyboard. *)
Definition getattr_interrupted (attr : string)
  : option (Method cage unit value) :=
  if decide (attr = "interrupted")
  then Some (λ _ _, raise KeyboardInterrupt)
  else getattr_failing attr.

(** A selection that yields the tuples of a list, in order. *)
Definition env (attrs : string → option (Method cage unit value))
           (pool : list (list cage)) (u : nat → Q)
  : Env cage unit value (list (list cage)) :=
  {| getattr := attrs;
     select := λ _, pool;
     next := λ s, match s with [] => None | x :: s' => Some (x, s') end;
     random_sample := u;
     random_integer := λ i, i;
     mol_name := λ _, EmptyString |}.

(** A selection that yields the same pair for ever. *)
Definition env_forever (pair : list cage) (u : nat → Q)
  : Env cage unit value unit :=
  {| getattr := getattr_failing;
     select := λ _, ();
     next := λ s, Some (pair, s);
     random_sample := u;
     random_integer := λ i, i;
     mol_name := λ _, EmptyString |}.

Definition half : nat → Q := λ _, (1 # 2)%Q.

(** A small variate for the second crossover only. *)
Definition variates : nat → Q :=
  λ i, if i =? 2 then (1 # 8)%Q else (1 # 2)%Q.

Definition parents : population :=
  add_members (__init__ ()) [cage_a; cage_b; cage_c; cage_tied].

Definition pool : list (list cage) :=
  [[cage_a; cage_b]; [cage_a; cage_c]; [cage_b; cage_b]].

Definition crossover_mixed : Crossover value :=
  {| funcs := [failing; exchange];
     num_crossovers := 5;
     weights := Some [(1 # 4)%Q; (3 # 4)%Q] |}.

Definition crossover_interrupted : Crossover value :=
  {| funcs := [interrupted]; num_crossovers := 5; weights := None |}.

Definition crossover_forever : Crossover value :=
  {| funcs := [exchange]; num_crossovers := 3; weights := None |}.

(** Three tuples; the second crossover fails; the plot is asked for. *)
Definition run_mixed :=
  __call__ (env getattr_failing pool variates) crossover_mixed parents
       "selected.png".

(** The first crossover is interrupted. *)
Definition run_interrupted :=
  __call__ (env getattr_interrupted pool half) crossover_interrupted parents
       EmptyString.

(** A stream without end. *)
Definition run_forever :=
  __call__ (env_forever [cage_a; cage_b] half) crossover_forever parents
       EmptyString.

(** The class as it is, with the exchange as its one crossover
    function; the cages of topology 1 have a name. *)
Definition env_class (pool : list (list cage)) (u : nat → Q)
  : Env cage unit value (list (list cage)) :=
  {| getattr := getattr_class;
     select := λ _, pool;
     next := λ s, match s with [] => None | x :: s' => Some (x, s') end;
     random_sample := u;
     random_integer := λ i, i;
     mol_name := λ c, if decide (topology c = 1) then "cached"
                      else EmptyString |}.

Definition crossover_class : Crossover value :=
  {| funcs := [exchange; exchange];
     num_crossovers := 4;
     weights := Some [(1 # 3)%Q; (2 # 3)%Q] |}.

(** A pair, a lone parent, a pair with a cage of no building block, and
    a pair that holds one cage twice. *)
Definition pool_class : list (list cage) :=
  [[cage_a; cage_b]; [cage_a]; [cage_a; mkCage [] 0]; [cage_b; cage_b]].

Definition run_class :=
  __call__ (env_class pool_class half) crossover_class parents "class.png".

(** A call whose one function is not an attribute of the class. *)
Definition crossover_missing : Crossover value :=
  {| funcs := [{| name := "missing"; params := ∅ |}];
     num_crossovers := 2;
     weights := None |}.

Definition run_missing :=
  __call__ (env_class pool_class half) crossover_missing parents "class.png".

(** A call that takes the second parent from a parameter, or calls an
    attribute that is no function, as the generator decides; the weights
    are a little short of one. *)
Definition crossover_keyword : Crossover value :=
  {| funcs := [exchange_with_c; {| name := "funcs"; params := ∅ |}];
     num_crossovers := 3;
     weights := Some [(1 # 2)%Q; (499999999 # 1000000000)%Q] |}.

Definition pool_keyword : list (list cage) :=
  [[cage_b]; [cage_a; cage_b]; [cage_b]].

Definition variates_keyword : nat → Q :=
  λ i, if i =? 3 then (3 # 4)%Q else (1 # 4)%Q.

Definition run_keyword :=
  __call__ (env_class pool_keyword variates_keyword) crossover_keyword
       parents EmptyString.

(** A call with a negative number of crossovers. *)
Definition crossover_negative : Crossover value :=
  {| funcs := [exchange]; num_crossovers := -1; weights := None |}.

Definition run_negative :=
  __call__ (env_class pool_class half) crossover_negative parents "class.png".

(** The same on a selection that yields nothing. *)
Definition run_negative_empty :=
  __call__ (env_class [] half) crossover_negative parents "class.png".

(** A call whose first crossover fails and whose second samples a name
    that is no attribute. *)
Definition crossover_missing_failing : Crossover value :=
  {| funcs := [{| name := "missing"; params := ∅ |}; failing];
     num_crossovers := 5;
     weights := None |}.

Definition run_missing_failing :=
  __call__ (env getattr_failing pool half) crossover_missing_failing parents
       EmptyString.

(** The population a run returned. *)
Definition returned_population
           (run : result population * state cage unit value) : population :=
  match run.1 with
  | inr pop => pop
  | inl _ => __init__ ()
  end.
End Fixture.


(* ===================================================================== *)
(** * Part II: properties *)
(* ===================================================================== *)

(** ** The exchange of building blocks and linkers *)

Section ExchangeFacts.
Import Py Pop Molecules Exchange.
Context {BB Topology GATools : Type}.
Context `{Countable BB} `{Countable Topology}.
Variable bb_counter : Cage BB Topology → list (BB * Z).
Variable key_lt : BB → BB → bool.
Variable empty_tools : GATools.

Local Abbreviation linker := (linker bb_counter key_lt).
Local Abbreviation building_block := (building_block bb_counter key_lt).
Local Abbreviation offspring_pairs := (offspring_pairs bb_counter key_lt).
Local Abbreviation constructions := (constructions bb_counter key_lt).
Local Abbreviation lex_le := (lex_le key_lt).

(** The scan ends on an item of the sequence. *)
Lemma scan_elem_of (better : Z * BB → Z * BB → bool) rest cur :
  scan better cur rest ∈ cur :: rest.
Proof.
  revert cur. induction rest as [|item rest IH]; intros cur; simpl.
  - left.
  - specialize (IH (if better item cur then item else cur)).
    apply elem_of_cons in IH as [-> | IH].
    + destruct (better item cur); [right; left | left].
    + do 2 right. exact IH.
Qed.

(** The scan ends on an item that no other item beats, for any
    preorder [R] that the comparison decides. *)
Lemma scan_extremal (better : Z * BB → Z * BB → bool)
      (R : Z * BB → Z * BB → Prop) :
  (∀ x, R x x) →
  (∀ x y z, R x y → R y z → R x z) →
  (∀ x y, better x y = true → R y x) →
  (∀ x y, better x y = false → R x y) →
  ∀ rest cur x, x ∈ cur :: rest → R x (scan better cur rest).
Proof.
  intros Hrefl Htrans Hyes Hno.
  induction rest as [|item rest IH]; intros cur x Hx; simpl.
  - apply list_elem_of_singleton in Hx as ->. apply Hrefl.
  - set (cur' := if better item cur then item else cur).
    assert (Hcur : R cur cur').
    { subst cur'. destruct (better item cur) eqn:E; [by apply Hyes | apply Hrefl]. }
    assert (Hitem : R item cur').
    { subst cur'. destruct (better item cur) eqn:E; [apply Hrefl | by apply Hno]. }
    apply elem_of_cons in Hx as [-> | Hx].
    + eapply Htrans; [exact Hcur |]. apply IH. left.
    + apply elem_of_cons in Hx as [-> | Hx].
      * eapply Htrans; [exact Hitem |]. apply IH. left.
      * apply IH. by right.
Qed.

Section Ordered.
Hypothesis key_order : strict_total key_lt.

Lemma lex_le_refl x : lex_le x x.
Proof. right. split; [done | by left]. Qed.

Lemma lex_le_trans x y z : lex_le x y → lex_le y z → lex_le x z.
Proof.
  destruct key_order as (_ & Htrans & _).
  unfold Exchange.lex_le.
  intros [Hxy | [Hxy [Hk | Hk]]] [Hyz | [Hyz [Hk' | Hk']]];
    try (left; lia); right; (split; [lia |]).
  - left. congruence.
  - right. by rewrite Hk.
  - right. by rewrite <- Hk'.
  - right. by eapply Htrans.
Qed.

Lemma tuple_gt_true x y : tuple_gt Z.ltb key_lt x y = true → lex_le y x.
Proof.
  unfold tuple_gt, Exchange.lex_le. intros Hgt.
  destruct (decide (x.1 = y.1)) as [E1 | N1].
  - destruct (decide (x.2 = y.2)); [done |]. right. split; [done | by right].
  - left. by apply Z.ltb_lt.
Qed.

Lemma tuple_gt_false x y : tuple_gt Z.ltb key_lt x y = false → lex_le x y.
Proof.
  destruct key_order as (_ & _ & Htotal).
  unfold tuple_gt, Exchange.lex_le. intros Hgt.
  destruct (decide (x.1 = y.1)) as [E1 | N1].
  - right. split; [done |].
    destruct (decide (x.2 = y.2)) as [E2 | N2]; [by left | right].
    destruct (Htotal _ _ N2) as [Hlt | Hlt]; [done | congruence].
  - left. apply Z.ltb_ge in Hgt. lia.
Qed.

Lemma tuple_lt_true x y : tuple_lt Z.ltb key_lt x y = true → lex_le x y.
Proof.
  unfold tuple_lt, Exchange.lex_le. intros Hlt.
  destruct (decide (x.1 = y.1)) as [E1 | N1].
  - destruct (decide (x.2 = y.2)); [done |]. right. split; [done | by right].
  - left. by apply Z.ltb_lt.
Qed.

Lemma tuple_lt_false x y : tuple_lt Z.ltb key_lt x y = false → lex_le y x.
Proof.
  destruct key_order as (_ & _ & Htotal).
  unfold tuple_lt, Exchange.lex_le. intros Hlt.
  destruct (decide (x.1 = y.1)) as [E1 | N1].
  - right. split; [done |].
    destruct (decide (x.2 = y.2)) as [E2 | N2]; [by left | right].
    destruct (Htotal _ _ N2) as [Hk | Hk]; [congruence | done].
  - left. apply Z.ltb_ge in Hlt. lia.
Qed.

(** [max] returns an item that is greatest in the sequence. *)
Lemma max_greatest (items : list (Z * BB)) :
  items ≠ [] →
  ∃ best, max Z.ltb key_lt items = inr best ∧ best ∈ items
          ∧ ∀ x, x ∈ items → lex_le x best.
Proof.
  destruct items as [|first rest]; [done | intros _].
  exists (scan (tuple_gt Z.ltb key_lt) first rest).
  split; [done |]. split; [apply scan_elem_of |].
  apply (scan_extremal (tuple_gt Z.ltb key_lt) lex_le).
  - exact lex_le_refl.
  - exact lex_le_trans.
  - exact tuple_gt_true.
  - exact tuple_gt_false.
Qed.

(** [min] returns an item that is least in the sequence. *)
Lemma min_least (items : list (Z * BB)) :
  items ≠ [] →
  ∃ best, min Z.ltb key_lt items = inr best ∧ best ∈ items
          ∧ ∀ x, x ∈ items → lex_le best x.
Proof.
  destruct items as [|first rest]; [done | intros _].
  exists (scan (tuple_lt Z.ltb key_lt) first rest).
  split; [done |]. split; [apply scan_elem_of |].
  apply (scan_extremal (tuple_lt Z.ltb key_lt) (λ x y, lex_le y x)).
  - exact lex_le_refl.
  - intros x y z Hyx Hzy. exact (lex_le_trans _ _ _ Hzy Hyx).
  - exact tuple_lt_true.
  - exact tuple_lt_false.
Qed.

Lemma zip_values_keys_nonempty (c : list (BB * Z)) :
  c ≠ [] → zip_values_keys c ≠ [].
Proof. by destruct c. Qed.

Lemma elem_of_zip_values_keys (c : list (BB * Z)) k n :
  (n, k) ∈ zip_values_keys c ↔ (k, n) ∈ c.
Proof.
  unfold zip_values_keys. rewrite list_elem_of_fmap. split.
  - intros ([k' n'] & [= -> ->] & Hin). exact Hin.
  - intros Hin. by exists (k, n).
Qed.

(** [linker] returns the key of the greatest tuple. *)
Lemma linker_greatest m :
  bb_counter m ≠ [] →
  ∃ lk, linker m = inr lk ∧ greatest_key key_lt (bb_counter m) lk.
Proof.
  intros Hne. apply zip_values_keys_nonempty in Hne.
  destruct (max_greatest _ Hne) as ([n k] & Hmax & Hin & Hbest).
  exists k. unfold Exchange.linker. rewrite Hmax. split; [done |].
  exists n. split; [by apply elem_of_zip_values_keys |].
  intros k' n' Hin'. apply Hbest. by apply elem_of_zip_values_keys.
Qed.

(** [building_block] returns the key of the least tuple. *)
Lemma building_block_least m :
  bb_counter m ≠ [] →
  ∃ bb, building_block m = inr bb ∧ least_key key_lt (bb_counter m) bb.
Proof.
  intros Hne. apply zip_values_keys_nonempty in Hne.
  destruct (min_least _ Hne) as ([n k] & Hmin & Hin & Hbest).
  exists k. unfold Exchange.building_block. rewrite Hmin. split; [done |].
  exists n. split; [by apply elem_of_zip_values_keys |].
  intros k' n' Hin'. apply Hbest. by apply elem_of_zip_values_keys.
Qed.
End Ordered.

(** Between tuples of equal count the keys decide. *)
Lemma tuple_gt_tie n k k' :
  k ≠ k' → tuple_gt Z.ltb key_lt (n, k) (n, k') = key_lt k' k.
Proof.
  intros Hk. unfold tuple_gt. simpl.
  rewrite decide_True by done. by rewrite decide_False.
Qed.

Lemma tuple_lt_tie n k k' :
  k ≠ k' → tuple_lt Z.ltb key_lt (n, k) (n, k') = key_lt k k'.
Proof.
  intros Hk. unfold tuple_lt. simpl.
  rewrite decide_True by done. by rewrite decide_False.
Qed.

(** The four selections succeed exactly when the loop is reached. *)
Lemma offspring_pairs_inv m1 m2 pairs :
  offspring_pairs m1 m2 = inr pairs →
  ∃ c1_lk c1_bb c2_lk c2_bb,
    linker m1 = inr c1_lk ∧ building_block m1 = inr c1_bb
    ∧ linker m2 = inr c2_lk ∧ building_block m2 = inr c2_bb
    ∧ pairs = offspring_pair c1_lk c1_bb c2_lk c2_bb <$> topologies m1 m2.
Proof.
  unfold Exchange.offspring_pairs.
  destruct (linker m1) as [|c1_lk]; [done |].
  destruct (building_block m1) as [|c1_bb]; [done |].
  destruct (linker m2) as [|c2_lk]; [done |].
  destruct (building_block m2) as [|c2_bb]; [done |].
  simpl. intros [= <-]. by exists c1_lk, c1_bb, c2_lk, c2_bb.
Qed.

Lemma offspring_pairs_intro m1 m2 c1_lk c1_bb c2_lk c2_bb :
  linker m1 = inr c1_lk → building_block m1 = inr c1_bb →
  linker m2 = inr c2_lk → building_block m2 = inr c2_bb →
  offspring_pairs m1 m2
  = inr (offspring_pair c1_lk c1_bb c2_lk c2_bb <$> topologies m1 m2).
Proof.
  intros H1 H2 H3 H4. unfold Exchange.offspring_pairs.
  by rewrite H1, H2, H3, H4.
Qed.

Lemma linker_nonempty m :
  bb_counter m ≠ [] → ∃ lk, linker m = inr lk.
Proof.
  unfold Exchange.linker. destruct (bb_counter m); [done | intros _].
  simpl. eauto.
Qed.

Lemma building_block_nonempty m :
  bb_counter m ≠ [] → ∃ bb, building_block m = inr bb.
Proof.
  unfold Exchange.building_block. destruct (bb_counter m); [done | intros _].
  simpl. eauto.
Qed.

(** What the exchange raises is the [ValueError] of [max]. *)
Lemma bb_lk_exchange_raises_ValueError m1 m2 ex :
  bb_lk_exchange bb_counter key_lt empty_tools m1 m2 = inl ex →
  ex = ValueError "max() arg is an empty sequence".
Proof.
  unfold bb_lk_exchange, Exchange.offspring_pairs, Exchange.linker,
    Exchange.building_block, max, min.
  destruct (zip_values_keys (bb_counter m1)); simpl; [by intros [= <-] |].
  destruct (zip_values_keys (bb_counter m2)); simpl; [by intros [= <-] |].
  done.
Qed.

Section Method.
Context {Value : Type}.
Variable as_cage : Value → option (Cage BB Topology).

Local Abbreviation bind_arguments :=
  (bind_arguments (BB := BB) (Topology := Topology) (Value := Value)).
Local Abbreviation read_cage := (read_cage as_cage).
Local Abbreviation exchange_method :=
  (bb_lk_exchange_method bb_counter key_lt empty_tools as_cage).

(** A binding that fails is a [TypeError]. *)
Lemma bind_arguments_raises args (kwargs : gmap string Value) ex :
  bind_arguments args kwargs = inl ex → ∃ msg, ex = TypeError msg.
Proof.
  unfold Exchange.bind_arguments.
  destruct (decide (dom kwargs ⊆ _)); [| intros [= <-]; by eexists].
  destruct (args !! 0), (kwargs !! "macro_mol1");
    destruct (args !! 1), (kwargs !! "macro_mol2"); simpl;
    try (intros [= <-]; by eexists);
    destruct (decide (2 < length args)); intros [= <-]; by eexists.
Qed.

(** A binding that succeeds: each parameter is filled once, by position
    first, and no keyword is left over. *)
Lemma bind_arguments_returns args (kwargs : gmap string Value) a1 a2 :
  bind_arguments args kwargs = inr (a1, a2) →
  dom kwargs ⊆ {["macro_mol1"; "macro_mol2"]}
  ∧ length args ≤ 2
  ∧ match args !! 0, kwargs !! "macro_mol1" with
    | Some parent, None => a1 = Positional parent
    | None, Some value => a1 = Keyword value
    | _, _ => False
    end
  ∧ match args !! 1, kwargs !! "macro_mol2" with
    | Some parent, None => a2 = Positional parent
    | None, Some value => a2 = Keyword value
    | _, _ => False
    end.
Proof.
  unfold Exchange.bind_arguments.
  destruct (decide (dom kwargs ⊆ _)) as [Hdom |]; [| done].
  destruct (args !! 0), (kwargs !! "macro_mol1");
    destruct (args !! 1), (kwargs !! "macro_mol2"); simpl; try done;
    destruct (decide (2 < length args)); try done;
    intros [= <- <-]; (split_and!; [done | lia | done | done]).
Qed.

(** With no keyword the binding succeeds on two parents exactly. *)
Lemma bind_arguments_positional args a1 a2 :
  bind_arguments args ∅ = inr (a1, a2) →
  ∃ m1 m2, args = [m1; m2] ∧ a1 = Positional m1 ∧ a2 = Positional m2.
Proof.
  intros (_ & Hlen & H1 & H2)%bind_arguments_returns.
  rewrite lookup_empty in H1, H2.
  destruct args as [|m1 [|m2 [|m3 args]]]; simpl in *; try done; [| lia].
  subst. by exists m1, m2.
Qed.

Lemma read_cage_raises a ex :
  read_cage a = inl ex → ex = AttributeError "bb_counter".
Proof.
  destruct a as [parent | value]; simpl; [done |].
  destruct (as_cage value); [done | by intros [= <-]].
Qed.

(** What the method raises: the [TypeError] of a failed binding, the
    [AttributeError] of a value that is no cage, or the [ValueError] of
    an empty counter. *)
Lemma bb_lk_exchange_method_raises_kind args (kwargs : gmap string Value) ex :
  exchange_method args kwargs = inl ex →
  ∃ msg, ex = ValueError msg ∨ ex = TypeError msg ∨ ex = AttributeError msg.
Proof.
  unfold bb_lk_exchange_method.
  destruct (bind_arguments args kwargs) as [ex' | [a1 a2]] eqn:Hbind; simpl.
  { intros [= <-]. apply bind_arguments_raises in Hbind as [msg ->].
    exists msg. by right; left. }
  destruct (read_cage a1) as [ex1 | m1] eqn:H1; simpl.
  { intros [= <-]. apply read_cage_raises in H1 as ->.
    eexists. by right; right. }
  destruct (read_cage a2) as [ex2 | m2] eqn:H2.
  - apply read_cage_raises in H2 as ->.
    unfold Exchange.linker, Exchange.building_block, max, min.
    destruct (zip_values_keys (bb_counter m1)); simpl; intros [= <-];
      eexists; [by left | by right; right].
  - intros ->%bb_lk_exchange_raises_ValueError. eexists. by left.
Qed.

Lemma bb_lk_exchange_method_raises args (kwargs : gmap string Value) ex :
  exchange_method args kwargs = inl ex → is_Exception ex = true.
Proof.
  by intros (msg & [-> | [-> | ->]])%bb_lk_exchange_method_raises_kind.
Qed.

(** When the method returns, the parameters were bound to two cages and
    it returns what the exchange of the two returns. *)
Lemma bb_lk_exchange_method_returns args (kwargs : gmap string Value)
      offspring :
  exchange_method args kwargs = inr offspring →
  ∃ a1 a2 m1 m2,
    bind_arguments args kwargs = inr (a1, a2)
    ∧ read_cage a1 = inr m1 ∧ read_cage a2 = inr m2
    ∧ bb_lk_exchange bb_counter key_lt empty_tools m1 m2 = inr offspring.
Proof.
  unfold bb_lk_exchange_method.
  destruct (bind_arguments args kwargs) as [ex' | [a1 a2]] eqn:Hbind;
    simpl; [done |].
  destruct (read_cage a1) as [ex1 | m1] eqn:H1; simpl; [done |].
  destruct (read_cage a2) as [ex2 | m2] eqn:H2.
  - unfold Exchange.linker, Exchange.building_block, max, min.
    by destruct (zip_values_keys (bb_counter m1)).
  - intros Hres. by exists a1, a2, m1, m2.
Qed.
End Method.

(** C5 (as amended): every cage built by [bb_lk_exchange] joins the
    linker of one parent to the building block of the other, that is
    [c1_lk] with [c2_bb] or [c2_lk] with [c1_bb]; and when the two
    linkers differ and the two building blocks differ, no cage built
    joins the linker and the building block of one parent alone. *)
Theorem bb_lk_exchange_crosses_parents m1 m2 built o :
  constructions m1 m2 = inr built → o ∈ built →
  ∃ c1_lk c1_bb c2_lk c2_bb,
    linker m1 = inr c1_lk ∧ building_block m1 = inr c1_bb
    ∧ linker m2 = inr c2_lk ∧ building_block m2 = inr c2_bb
    ∧ (building_blocks o = [c1_lk; c2_bb] ∨ building_blocks o = [c2_lk; c1_bb])
    ∧ (crosses bb_counter key_lt m1 m2 o ∨ crosses bb_counter key_lt m2 m1 o)
    ∧ (c1_lk ≠ c2_lk → c1_bb ≠ c2_bb →
       ¬ recombines_own bb_counter key_lt m1 o
       ∧ ¬ recombines_own bb_counter key_lt m2 o).
Proof.
  unfold Exchange.constructions. intros Hbuilt Ho.
  destruct (offspring_pairs m1 m2) as [|pairs] eqn:Hpairs; [done |].
  simpl in Hbuilt. injection Hbuilt as <-.
  apply offspring_pairs_inv in Hpairs
    as (c1_lk & c1_bb & c2_lk & c2_bb & H1 & H2 & H3 & H4 & ->).
  exists c1_lk, c1_bb, c2_lk, c2_bb. do 4 (split; [done |]).
  assert (Hbbs : building_blocks o = [c1_lk; c2_bb]
                 ∨ building_blocks o = [c2_lk; c1_bb]).
  { apply list_elem_of_bind in Ho as (p & Hop & Hp).
    apply list_elem_of_fmap in Hp as (t & -> & _).
    simpl in Hop. apply elem_of_cons in Hop as [-> | Hop]; [by left |].
    apply list_elem_of_singleton in Hop as ->. by right. }
  split; [exact Hbbs |]. split.
  - destruct Hbbs as [Hb | Hb]; [left | right]; eexists _, _; eauto.
  - intros Hlk Hbb. unfold recombines_own, crosses.
    rewrite H1, H2, H3, H4.
    split; intros (lk & bb & [= <-] & [= <-] & Hown);
      destruct Hbbs as [Hb | Hb]; congruence.
Qed.

(** C6: the loop runs once for each parent's topology, duplicates
    included, and builds [Cage((c1_lk, c2_bb), topology)] and
    [Cage((c2_lk, c1_bb), topology)] each time: four constructions in
    all, the same two cages twice when the topologies are equal, and
    all four are handed to [add_members], two at a time. *)
Theorem bb_lk_exchange_four_constructions m1 m2 :
  bb_counter m1 ≠ [] → bb_counter m2 ≠ [] →
  ∃ c1_lk c1_bb c2_lk c2_bb,
    linker m1 = inr c1_lk ∧ building_block m1 = inr c1_bb
    ∧ linker m2 = inr c2_lk ∧ building_block m2 = inr c2_bb
    ∧ constructions m1 m2
      = inr [Cage_init (c1_lk, c2_bb) (topology m1);
             Cage_init (c2_lk, c1_bb) (topology m1);
             Cage_init (c1_lk, c2_bb) (topology m2);
             Cage_init (c2_lk, c1_bb) (topology m2)]
    ∧ (∀ built, constructions m1 m2 = inr built → length built = 4)
    ∧ (topology m1 = topology m2 →
       constructions m1 m2
       = inr ([Cage_init (c1_lk, c2_bb) (topology m1);
               Cage_init (c2_lk, c1_bb) (topology m1)]
              ++ [Cage_init (c1_lk, c2_bb) (topology m1);
                  Cage_init (c2_lk, c1_bb) (topology m1)]))
    ∧ bb_lk_exchange bb_counter key_lt empty_tools m1 m2
      = inr (add_members
               (add_members (__init__ empty_tools)
                  [Cage_init (c1_lk, c2_bb) (topology m1);
                   Cage_init (c2_lk, c1_bb) (topology m1)])
               [Cage_init (c1_lk, c2_bb) (topology m2);
                Cage_init (c2_lk, c1_bb) (topology m2)]).
Proof.
  intros Hne1 Hne2.
  destruct (linker_nonempty m1 Hne1) as [c1_lk H1].
  destruct (building_block_nonempty m1 Hne1) as [c1_bb H2].
  destruct (linker_nonempty m2 Hne2) as [c2_lk H3].
  destruct (building_block_nonempty m2 Hne2) as [c2_bb H4].
  exists c1_lk, c1_bb, c2_lk, c2_bb. do 4 (split; [done |]).
  pose proof (offspring_pairs_intro _ _ _ _ _ _ H1 H2 H3 H4) as Hpairs.
  assert (Hbuilt : constructions m1 m2
      = inr [Cage_init (c1_lk, c2_bb) (topology m1);
             Cage_init (c2_lk, c1_bb) (topology m1);
             Cage_init (c1_lk, c2_bb) (topology m2);
             Cage_init (c2_lk, c1_bb) (topology m2)]).
  { unfold Exchange.constructions. by rewrite Hpairs. }
  split; [exact Hbuilt |]. split; [| split].
  - intros built. rewrite Hbuilt. by intros [= <-].
  - intros Ht. by rewrite Hbuilt, <- Ht.
  - unfold Exchange.bb_lk_exchange. by rewrite Hpairs.
Qed.

(** C7: the linker of a parent is the key of the greatest
    [(count, key)] tuple of its [bb_counter] and the building block the
    key of the least one, tuples being compared lexicographically: the
    counts decide, and the keys decide between equal counts.  With two
    keys of equal count the linker is the greater key and the building
    block the smaller one. *)
Theorem bb_lk_exchange_selects_extremes m1 m2 :
  strict_total key_lt →
  bb_counter m1 ≠ [] → bb_counter m2 ≠ [] →
  (∃ c1_lk c1_bb c2_lk c2_bb,
     offspring_pairs m1 m2
     = inr (offspring_pair c1_lk c1_bb c2_lk c2_bb <$> topologies m1 m2)
     ∧ greatest_key key_lt (bb_counter m1) c1_lk
     ∧ least_key key_lt (bb_counter m1) c1_bb
     ∧ greatest_key key_lt (bb_counter m2) c2_lk
     ∧ least_key key_lt (bb_counter m2) c2_bb)
  ∧ (∀ m k1 k2 n,
       bb_counter m = [(k1, n); (k2, n)] → k1 ≠ k2 →
       linker m = inr (if key_lt k1 k2 then k2 else k1)
       ∧ building_block m = inr (if key_lt k1 k2 then k1 else k2)).
Proof.
  intros Hord Hne1 Hne2. split.
  - destruct (linker_greatest Hord m1 Hne1) as (c1_lk & H1 & G1).
    destruct (building_block_least Hord m1 Hne1) as (c1_bb & H2 & L1).
    destruct (linker_greatest Hord m2 Hne2) as (c2_lk & H3 & G2).
    destruct (building_block_least Hord m2 Hne2) as (c2_bb & H4 & L2).
    exists c1_lk, c1_bb, c2_lk, c2_bb.
    split; [by apply offspring_pairs_intro | done].
  - intros m k1 k2 n Hm Hk.
    destruct Hord as (Hirr & Htrans & Htotal).
    unfold Exchange.linker, Exchange.building_block. rewrite Hm. simpl.
    rewrite tuple_gt_tie, tuple_lt_tie by congruence.
    split.
    + by destruct (key_lt k1 k2).
    + destruct (key_lt k2 k1) eqn:E21, (key_lt k1 k2) eqn:E12; try done.
      * pose proof (Htrans _ _ _ E12 E21) as Hbad.
        rewrite Hirr in Hbad. done.
      * destruct (Htotal _ _ Hk); congruence.
Qed.
End ExchangeFacts.

(** *** The exchange on the concrete cages *)

Import Py Pop Numpy Molecules Crossover Exchange Fixture.

Example constructions_a_b :
  constructions bb_counter Nat.ltb cage_a cage_b
  = inr [Cage_init (10, 2) 0; Cage_init (20, 1) 0;
         Cage_init (10, 2) 1; Cage_init (20, 1) 1].
Proof. reflexivity. Qed.

Example constructions_a_c :
  constructions bb_counter Nat.ltb cage_a cage_c
  = inr [cage_a; cage_c; cage_a; cage_c].
Proof. reflexivity. Qed.

Example linker_tied : linker bb_counter Nat.ltb cage_tied = inr 7.
Proof. reflexivity. Qed.

Example building_block_tied :
  building_block bb_counter Nat.ltb cage_tied = inr 5.
Proof. reflexivity. Qed.

(** C5, as stated, fails on two parents that share their building
    block: the first cage built from [cage_a] and [cage_c] joins the
    linker of [cage_a] to the building block of [cage_a]. *)
Lemma bb_lk_exchange_rebuilds_parent :
  ¬ exchanges_only bb_counter Nat.ltb cage_a cage_c.
Proof.
  intros Hclaim.
  destruct (Hclaim [cage_a; cage_c; cage_a; cage_c] cage_a)
    as (_ & Hown & _); [reflexivity | left |].
  apply Hown. exists 10, 1. repeat split; reflexivity.
Qed.

(** The exchange of [cage_a] and [cage_b], and the last cage it builds. *)
Lemma bb_lk_exchange_crosses_parents_witness :
  ∃ c1_lk c1_bb c2_lk c2_bb,
    linker bb_counter Nat.ltb cage_a = inr c1_lk
    ∧ building_block bb_counter Nat.ltb cage_a = inr c1_bb
    ∧ linker bb_counter Nat.ltb cage_b = inr c2_lk
    ∧ building_block bb_counter Nat.ltb cage_b = inr c2_bb
    ∧ (building_blocks (Cage_init (20, 1) 1) = [c1_lk; c2_bb]
       ∨ building_blocks (Cage_init (20, 1) 1) = [c2_lk; c1_bb])
    ∧ (crosses bb_counter Nat.ltb cage_a cage_b (Cage_init (20, 1) 1)
       ∨ crosses bb_counter Nat.ltb cage_b cage_a (Cage_init (20, 1) 1))
    ∧ (c1_lk ≠ c2_lk → c1_bb ≠ c2_bb →
       ¬ recombines_own bb_counter Nat.ltb cage_a (Cage_init (20, 1) 1)
       ∧ ¬ recombines_own bb_counter Nat.ltb cage_b (Cage_init (20, 1) 1)).
Proof.
  apply (bb_lk_exchange_crosses_parents bb_counter Nat.ltb cage_a cage_b
           [Cage_init (10, 2) 0; Cage_init (20, 1) 0;
            Cage_init (10, 2) 1; Cage_init (20, 1) 1]).
  - reflexivity.
  - do 3 right. left.
Defined.

(** The four constructions from [cage_a] and [cage_c], which have one
    topology. *)
Lemma bb_lk_exchange_four_constructions_witness :
  ∃ c1_lk c1_bb c2_lk c2_bb,
    linker bb_counter Nat.ltb cage_a = inr c1_lk
    ∧ building_block bb_counter Nat.ltb cage_a = inr c1_bb
    ∧ linker bb_counter Nat.ltb cage_c = inr c2_lk
    ∧ building_block bb_counter Nat.ltb cage_c = inr c2_bb
    ∧ constructions bb_counter Nat.ltb cage_a cage_c
      = inr [Cage_init (c1_lk, c2_bb) (topology cage_a);
             Cage_init (c2_lk, c1_bb) (topology cage_a);
             Cage_init (c1_lk, c2_bb) (topology cage_c);
             Cage_init (c2_lk, c1_bb) (topology cage_c)]
    ∧ (∀ built,
         constructions bb_counter Nat.ltb cage_a cage_c = inr built →
         length built = 4)
    ∧ (topology cage_a = topology cage_c →
       constructions bb_counter Nat.ltb cage_a cage_c
       = inr ([Cage_init (c1_lk, c2_bb) (topology cage_a);
               Cage_init (c2_lk, c1_bb) (topology cage_a)]
              ++ [Cage_init (c1_lk, c2_bb) (topology cage_a);
                  Cage_init (c2_lk, c1_bb) (topology cage_a)]))
    ∧ bb_lk_exchange bb_counter Nat.ltb () cage_a cage_c
      = inr (add_members
               (add_members (__init__ ())
                  [Cage_init (c1_lk, c2_bb) (topology cage_a);
                   Cage_init (c2_lk, c1_bb) (topology cage_a)])
               [Cage_init (c1_lk, c2_bb) (topology cage_c);
                Cage_init (c2_lk, c1_bb) (topology cage_c)]).
Proof.
  apply (bb_lk_exchange_four_constructions bb_counter Nat.ltb () cage_a cage_c);
    discriminate.
Defined.

(** The selections in [cage_tied] and [cage_b], with numbers as keys. *)
Lemma bb_lk_exchange_selects_extremes_witness :
  (∃ c1_lk c1_bb c2_lk c2_bb,
     offspring_pairs bb_counter Nat.ltb cage_tied cage_b
     = inr (offspring_pair c1_lk c1_bb c2_lk c2_bb
              <$> topologies cage_tied cage_b)
     ∧ greatest_key Nat.ltb (bb_counter cage_tied) c1_lk
     ∧ least_key Nat.ltb (bb_counter cage_tied) c1_bb
     ∧ greatest_key Nat.ltb (bb_counter cage_b) c2_lk
     ∧ least_key Nat.ltb (bb_counter cage_b) c2_bb)
  ∧ (∀ m k1 k2 n,
       bb_counter m = [(k1, n); (k2, n)] → k1 ≠ k2 →
       linker bb_counter Nat.ltb m = inr (if k1 <? k2 then k2 else k1)
       ∧ building_block bb_counter Nat.ltb m
         = inr (if k1 <? k2 then k1 else k2)).
Proof.
  apply (bb_lk_exchange_selects_extremes bb_counter Nat.ltb cage_tied cage_b).
  - split; [| split].
    + intros a. apply Nat.ltb_irrefl.
    + intros a b c. rewrite !Nat.ltb_lt. lia.
    + intros a b. rewrite !Nat.ltb_lt. lia.
  - discriminate.
  - discriminate.
Defined.

(** ** Sampling a crossover function *)

Section ChoiceFacts.
Import Py Numpy.
Local Open Scope Q_scope.
Context {A : Type}.

(** What [choice] returns is an element of its first argument, at the
    index drawn. *)
Lemma choice_lookup (a : list A) p u raw x :
  choice a p u raw = inr x →
  a !! choice_index (length a) p u raw = Some x.
Proof.
  unfold choice. destruct (decide _); [done |].
  destruct (match p with None => _ | Some _ => _ end) as [|[]]; [done |].
  simpl. destruct (a !! _); [| done]. by intros [= ->].
Qed.

Lemma choice_elem_of (a : list A) p u raw x :
  choice a p u raw = inr x → x ∈ a.
Proof.
  intros Hx. apply choice_lookup in Hx. by eapply list_elem_of_lookup_2.
Qed.

(** The probabilities [choice] accepts. *)
Lemma choice_accepts (a : list A) p u raw x :
  choice a (Some p) u raw = inr x →
  length a ≠ 0%nat
  ∧ length p = length a ∧ Forall (λ w, 0 <= w) p
  ∧ Qabs (sum p - 1) <= atol.
Proof.
  unfold choice. destruct (decide _) as [| Hne]; [done |].
  destruct (negb (length p =? length a)%nat) eqn:Hlen; [done |].
  destruct (existsb _ p) eqn:Hneg; [done |].
  destruct (negb (Qle_bool (Qabs (sum p - 1)) atol)) eqn:Hsum; [done |].
  intros _. split_and!; [done | | |].
  - apply negb_false_iff, Nat.eqb_eq in Hlen. exact Hlen.
  - apply Forall_forall. intros w Hw.
    destruct (Qle_bool 0 w) eqn:Hle; [by apply Qle_bool_iff |].
    assert (existsb (λ x, negb (Qle_bool 0 x)) p = true) as Hex.
    { apply existsb_exists. exists w. split; [by apply list_elem_of_In |].
      by rewrite Hle. }
    congruence.
  - apply negb_false_iff in Hsum. by apply Qle_bool_iff.
Qed.

Lemma sum_take_nonneg (p : list Q) k :
  Forall (λ w, 0 <= w) p → 0 <= sum (take k p).
Proof.
  intros Hp. revert k. induction Hp as [|x p Hx Hp IH]; intros k.
  - destruct k; unfold sum; simpl; lra.
  - destruct k; unfold sum; simpl; [lra |].
    specialize (IH k). unfold sum in IH. lra.
Qed.

(** Where the search stops on a running sum: the first [k] entries are
    at most [u], the next one is above. *)
Lemma searchsorted_right_sound (p : list Q) acc u :
  let k := searchsorted_right (cumsum_from acc p) u in
  (k ≤ length p)%nat
  ∧ (k ≠ 0%nat → acc + sum (take k p) <= u)
  ∧ ((k < length p)%nat → u < acc + sum (take (S k) p)).
Proof.
  revert acc. induction p as [|x p IH]; intros acc; simpl.
  - split; [done |]. split; [done | lia].
  - destruct (Qle_bool (acc + x) u) eqn:Hle.
    + destruct (IH (acc + x)) as (Hlen & Hlow & Hup).
      set (k := searchsorted_right (cumsum_from (acc + x) p) u) in *.
      split; [simpl; lia |]. split.
      * intros _. destruct (decide (k = 0%nat)) as [-> | Hk].
        -- apply Qle_bool_iff in Hle. unfold sum. simpl. lra.
        -- specialize (Hlow Hk). unfold sum in *. simpl. lra.
      * intros Hlt. assert (k < length p)%nat as Hlt' by lia.
        specialize (Hup Hlt'). unfold sum in *. simpl in *. lra.
    + split; [lia |]. split; [done |]. intros _.
      unfold sum. simpl.
      assert (¬ acc + x <= u) as Hn.
      { intros Hc. apply Qle_bool_iff in Hc. congruence. }
      lra.
Qed.

Lemma searchsorted_right_complete (p : list Q) acc u k :
  Forall (λ w, 0 <= w) p →
  (k < length p)%nat →
  acc + sum (take k p) <= u → u < acc + sum (take (S k) p) →
  searchsorted_right (cumsum_from acc p) u = k.
Proof.
  intros Hp. revert acc k.
  induction Hp as [|x p Hx Hp IH]; intros acc k Hk Hlow Hup; simpl in *.
  - lia.
  - destruct k as [|k].
    + unfold sum in Hup. simpl in Hup.
      destruct (Qle_bool (acc + x) u) eqn:Hle; [| done].
      apply Qle_bool_iff in Hle. lra.
    + assert (Qle_bool (acc + x) u = true) as ->.
      { apply Qle_bool_iff.
        pose proof (sum_take_nonneg p k Hp) as Hnn.
        unfold sum in *. simpl in Hlow. lra. }
      f_equal. apply IH; [lia | |].
      * unfold sum in *. simpl in Hlow. lra.
      * unfold sum in *. simpl in Hup. simpl. lra.
Qed.

(** A sum that is one within the tolerance is positive. *)
Lemma sum_within_atol_pos (p : list Q) :
  Qabs (sum p - 1) <= atol → 0 < sum p.
Proof.
  intros [Hlow _]%Qabs_Qle_condition.
  assert (atol < 1) as Hatol by reflexivity. lra.
Qed.

(** The running sum ends on the sum. *)
Lemma last_cumsum_from acc x (p : list Q) :
  ∃ total, last (cumsum_from acc (x :: p)) = Some total
           ∧ total == acc + sum (x :: p).
Proof.
  revert acc x. induction p as [|y p IH]; intros acc x.
  - exists (acc + x). split; [done |]. unfold sum. simpl. lra.
  - destruct (IH (acc + x) y) as (total & Hlast & Htotal).
    exists total. split.
    + change (cumsum_from acc (x :: y :: p))
        with ((acc + x) :: cumsum_from (acc + x) (y :: p)).
      simpl in Hlast |- *. exact Hlast.
    + unfold sum in *. simpl in *. lra.
Qed.

Lemma Qle_bool_div c total u :
  0 < total → Qle_bool (c / total) u = Qle_bool c (u * total).
Proof.
  intros Hpos.
  assert (c / total <= u ↔ c <= u * total) as Hiff.
  { split; intros Hle.
    - assert (c == c / total * total) as ->
        by (field; intros Hz; rewrite Hz in Hpos; by apply Qlt_irrefl in Hpos).
      apply Qmult_le_compat_r; [done | by apply Qlt_le_weak].
    - by apply Qle_shift_div_r. }
  destruct (Qle_bool (c / total) u) eqn:E1, (Qle_bool c (u * total)) eqn:E2;
    try done.
  - apply Qle_bool_iff, Hiff, Qle_bool_iff in E1. congruence.
  - apply Qle_bool_iff, Hiff, Qle_bool_iff in E2. congruence.
Qed.

(** To search the normalised running sum for [u] is to search the
    running sum for [u] times the total. *)
Lemma searchsorted_right_scale (cdf : list Q) total u :
  0 < total →
  searchsorted_right ((λ c, c / total) <$> cdf) u
  = searchsorted_right cdf (u * total).
Proof.
  intros Hpos. induction cdf as [|c cdf IH]; [done |].
  rewrite fmap_cons. cbn [searchsorted_right].
  rewrite Qle_bool_div, IH by done. done.
Qed.

(** With accepted probabilities the index is searched for in the running
    sum, at the variate times the sum of the probabilities. *)
Lemma weighted_index_scaled (p : list Q) u :
  p ≠ [] → Qabs (sum p - 1) <= atol →
  ∃ v, v == u * sum p
       ∧ searchsorted_right (normalise (cumsum p)) u
         = searchsorted_right (cumsum p) v.
Proof.
  intros Hne Hsum. destruct p as [|x p]; [done |].
  destruct (last_cumsum_from 0 x p) as (total & Hlast & Htotal).
  pose proof (sum_within_atol_pos _ Hsum) as Hpos.
  exists (u * total). split; [rewrite Htotal; ring |].
  unfold normalise, cumsum. rewrite Hlast.
  apply searchsorted_right_scale. lra.
Qed.

(** Index [k] is drawn exactly when the variate, scaled by the sum of
    the weights, falls between the sum of the weights before [k] and that
    sum plus the weight of [k]: an interval as long as the weight. *)
Lemma weighted_index_interval (a : list A) p u raw x k :
  choice a (Some p) u raw = inr x → 0 <= u → u < 1 →
  choice_index (length a) (Some p) u raw = k
  ↔ (k < length a)%nat
    ∧ sum (take k p) <= u * sum p ∧ u * sum p < sum (take (S k) p).
Proof.
  intros Hx Hu0 Hu1.
  destruct (choice_accepts a p u raw x Hx) as (Hne & Hlen & Hnn & Hsum).
  pose proof (sum_within_atol_pos _ Hsum) as Hpos.
  assert (p ≠ []) as Hp by (intros ->; simpl in Hlen; lia).
  destruct (weighted_index_scaled p u Hp Hsum) as (v & Hv & Hidx).
  assert (u * sum p < sum p) as Hbelow.
  { assert (u * sum p < 1 * sum p) as Hlt by (by apply Qmult_lt_r). lra. }
  assert (0 <= u * sum p) as Habove
    by (apply Qmult_le_0_compat; [done | by apply Qlt_le_weak]).
  simpl. rewrite Hidx. unfold cumsum. split.
  - intros <-.
    destruct (searchsorted_right_sound p 0 v) as (Hk & Hlow & Hup).
    set (k := searchsorted_right (cumsum_from 0 p) v) in *.
    assert (k < length p)%nat as Hlt.
    { destruct (decide (k = length p)) as [E | N]; [| lia].
      assert (k ≠ 0%nat) as Hk0 by (rewrite E; by destruct p).
      specialize (Hlow Hk0). rewrite E, firstn_all in Hlow. lra. }
    split; [lia |]. split.
    + destruct (decide (k = 0%nat)) as [-> | Hk0].
      * exact Habove.
      * specialize (Hlow Hk0). lra.
    + specialize (Hup Hlt). lra.
  - intros (Hk & Hlow & Hup).
    apply searchsorted_right_complete; [done | lia | lra | lra].
Qed.

(** On arguments it accepts and a variate of the unit interval,
    [choice] returns one of the choices. *)
Lemma choice_succeeds (a : list A) p u raw :
  valid_args (length a) p → 0 <= u → u < 1 →
  ∃ x, choice a p u raw = inr x ∧ x ∈ a.
Proof.
  intros [Hn Hp] Hu0 Hu1.
  assert (choice_index (length a) p u raw < length a)%nat as Hidx.
  { destruct p as [p |]; simpl.
    - destruct Hp as (Hlen & Hnn & Hsum).
      pose proof (sum_within_atol_pos _ Hsum) as Hpos.
      assert (p ≠ []) as Hne by (intros ->; simpl in Hlen; lia).
      destruct (weighted_index_scaled p u Hne Hsum) as (v & Hv & ->).
      destruct (searchsorted_right_sound p 0 v) as (Hk & Hlow & _).
      unfold cumsum.
      set (k := searchsorted_right (cumsum_from 0 p) v) in *.
      destruct (decide (k = length p)) as [E | N]; [| lia].
      exfalso. assert (k ≠ 0%nat) as Hk0 by lia.
      specialize (Hlow Hk0). rewrite E, firstn_all in Hlow.
      assert (u * sum p < 1 * sum p) as Hlt by (by apply Qmult_lt_r). lra.
    - unfold randint. by apply Nat.mod_upper_bound. }
  apply lookup_lt_is_Some in Hidx as [x Hx]. exists x.
  split; [| by eapply list_elem_of_lookup_2].
  unfold choice. rewrite decide_False by done.
  destruct p as [p |]; simpl in *; [| by rewrite Hx].
  destruct Hp as (Hlen & Hnn & Hsum).
  rewrite Hlen, Nat.eqb_refl. simpl.
  destruct (existsb (λ w, negb (Qle_bool 0 w)) p) eqn:Hneg.
  { apply existsb_exists in Hneg as (w & Hw%list_elem_of_In & Hle).
    rewrite Forall_forall in Hnn. specialize (Hnn w Hw).
    apply Qle_bool_iff in Hnn. by rewrite Hnn in Hle. }
  apply Qle_bool_iff in Hsum. rewrite Hsum. simpl in *. by rewrite Hx.
Qed.
End ChoiceFacts.

(** ** The call operator *)

Section CallFacts.
Import Py Pop Numpy Crossover.
Context {Mol : Type} `{Countable Mol}.
Context {GATools Value Sel : Type}.
Variable env : Env Mol GATools Value Sel.
Variable self : Crossover Value.

Local Abbreviation state := (state Mol GATools Value).
Local Abbreviation event := (event Mol GATools Value).
Local Abbreviation body := (body env self).
Local Abbreviation loop := (loop env self).
Local Abbreviation call := (__call__ env self).
Local Abbreviation sample i :=
  (choice (funcs self) (weights self) (random_sample env i)
          (random_integer env i)).
Local Abbreviation debug_events names :=
  ((λ n, Logged (debug_retrieved_from_cache n) : event) <$> names).
Local Abbreviation start population :=
  ({| offspring_pop := __init__ (ga_tools population);
      counter := ∅;
      trace := [] |} : state).
Local Abbreviation goes_on := (goes_on env self).
Local Abbreviation leaves := (leaves env self).
Local Abbreviation parent_pool := (parent_pool env self).

(** *** One turn of the loop *)

(** Debug records are none of the events the properties read. *)
Lemma omap_debug {B} (f : event → option B) (names : list string) :
  (∀ n, f (Logged (debug_retrieved_from_cache n)) = None) →
  omap f (debug_events names) = [].
Proof.
  intros Hf. induction names as [|n names IH]; [done |].
  simpl. by rewrite Hf.
Qed.

Lemma log_cached_eq offspring (st : state) :
  ∃ names,
    log_cached env offspring st
    = {| offspring_pop := offspring_pop st;
         counter := counter st;
         trace := trace st ++ debug_events names |}.
Proof.
  unfold log_cached. generalize (__iter__ offspring) as mols.
  intros mols. revert st.
  induction mols as [|o mols IH]; intros st; simpl.
  - exists []. destruct st. simpl. by rewrite app_nil_r.
  - destruct (truthy (mol_name env o)).
    + destruct (IH (emit (Logged (debug_retrieved_from_cache (mol_name env o))) st))
        as [names ->].
      exists (mol_name env o :: names). simpl. by rewrite <- app_assoc.
    + apply IH.
Qed.

Ltac observe :=
  unfold drawn, sampled, invoked, returned, raised, errors_logged, plotted;
  simpl; rewrite ?omap_app; simpl; rewrite ?omap_debug by done;
  rewrite ?app_nil_r.

(** A turn that lets the loop go on. *)
Lemma body_Next i parents (st st' : state) :
  body i parents st = Next st' →
  ∃ fd func,
    sample i = inr fd ∧ getattr env (name fd) = Some func
    ∧ counter st' = Counter_update parents (counter st)
    ∧ drawn (trace st') = drawn (trace st) ++ [(i, parents)]
    ∧ sampled (trace st') = sampled (trace st) ++ [(i, fd)]
    ∧ invoked (trace st')
      = invoked (trace st) ++ [(i, (name fd, parents, params fd))]
    ∧ plotted (trace st') = plotted (trace st)
    ∧ ((∃ offspring,
          func parents (params fd) = inr offspring
          ∧ returned (trace st') = returned (trace st) ++ [(i, offspring)]
          ∧ raised (trace st') = raised (trace st)
          ∧ errors_logged (trace st') = errors_logged (trace st)
          ∧ offspring_pop st'
            = add_members (offspring_pop st) (__iter__ offspring))
       ∨ (∃ ex,
            func parents (params fd) = inl ex ∧ is_Exception ex = true
            ∧ returned (trace st') = returned (trace st)
            ∧ raised (trace st') = raised (trace st) ++ [(i, ex)]
            ∧ errors_logged (trace st')
              = errors_logged (trace st)
                ++ [(name fd, mol_name env <$> parents)]
            ∧ offspring_pop st' = offspring_pop st)).
Proof.
  unfold Crossover.body.
  destruct (sample i) as [ex | fd] eqn:Hfd; [done |].
  destruct (getattr env (name fd)) as [func |] eqn:Hfunc; [| done].
  destruct (func parents (params fd)) as [ex | offspring] eqn:Hres.
  - destruct (is_Exception ex) eqn:Hex; [| done].
    intros [= <-]. exists fd, func. do 2 (split; [done |]).
    split; [done |]. do 4 (split; [by observe |]).
    right. exists ex. do 2 (split; [done |]). by observe.
  - match goal with
    | |- context [log_cached env offspring ?s] =>
        destruct (log_cached_eq offspring s) as [names ->]
    end.
    intros [= <-]. exists fd, func. do 2 (split; [done |]).
    split; [done |]. do 4 (split; [by observe |]).
    left. exists offspring. split; [done |]. by observe.
Qed.

(** A turn that an exception leaves. *)
Lemma body_Propagate i parents (st st' : state) ex :
  body i parents st = Propagate ex st' →
  counter st' = Counter_update parents (counter st)
  ∧ offspring_pop st' = offspring_pop st
  ∧ drawn (trace st') = drawn (trace st) ++ [(i, parents)]
  ∧ plotted (trace st') = plotted (trace st)
  ∧ returned (trace st') = returned (trace st)
  ∧ errors_logged (trace st') = errors_logged (trace st)
  ∧ ((sample i = inl ex
      ∧ sampled (trace st') = sampled (trace st)
      ∧ invoked (trace st') = invoked (trace st)
      ∧ raised (trace st') = raised (trace st))
     ∨ (∃ fd,
          sample i = inr fd ∧ getattr env (name fd) = None
          ∧ ex = AttributeError (name fd)
          ∧ sampled (trace st') = sampled (trace st) ++ [(i, fd)]
          ∧ invoked (trace st') = invoked (trace st)
          ∧ raised (trace st') = raised (trace st))
     ∨ (∃ fd func,
          sample i = inr fd ∧ getattr env (name fd) = Some func
          ∧ func parents (params fd) = inl ex ∧ is_Exception ex = false
          ∧ sampled (trace st') = sampled (trace st) ++ [(i, fd)]
          ∧ invoked (trace st')
            = invoked (trace st) ++ [(i, (name fd, parents, params fd))]
          ∧ raised (trace st') = raised (trace st) ++ [(i, ex)])).
Proof.
  unfold Crossover.body.
  destruct (sample i) as [ex' | fd] eqn:Hfd.
  { intros [= <- <-]. do 6 (split; [by observe |]). left. by observe. }
  destruct (getattr env (name fd)) as [func |] eqn:Hfunc.
  2:{ intros [= <- <-]. do 6 (split; [by observe |]).
      right. left. exists fd. by observe. }
  destruct (func parents (params fd)) as [ex' | offspring] eqn:Hres; [| done].
  destruct (is_Exception ex') eqn:Hex; [done |].
  intros [= <- <-]. do 6 (split; [by observe |]).
  right. right. exists fd, func. by observe.
Qed.

(** *** The loop *)

(** What every turn preserves, the loop preserves, however it ends. *)
Lemma loop_preserves (P : state → Prop) :
  (∀ i parents st, P st → P (flow_state (body i parents st))) →
  ∀ n i pool st, P st → P (flow_state (loop n i pool st)).
Proof.
  intros Hbody. induction n as [|n IH]; intros i pool st Hst; simpl; [done |].
  destruct (next env pool) as [[parents pool'] |]; [| done].
  specialize (Hbody i parents st Hst).
  destruct (body i parents st) as [st' | ex st']; simpl in *; [| done].
  by apply IH.
Qed.

(** What every turn that goes on preserves, a loop that ends normally
    preserves. *)
Lemma loop_Next_preserves (P : state → Prop) :
  (∀ i parents st st', P st → body i parents st = Next st' → P st') →
  ∀ n i pool st st', P st → loop n i pool st = Next st' → P st'.
Proof.
  intros Hbody. induction n as [|n IH]; intros i pool st st' Hst; simpl.
  - by intros [= <-].
  - destruct (next env pool) as [[parents pool'] |]; [| by intros [= <-]].
    destruct (body i parents st) as [st1 | ex st1] eqn:Hb; [| done].
    apply IH. by eapply Hbody.
Qed.

(** A loop that ends normally has drawn the first [n] items of the
    pool, numbered from [i]. *)
Lemma loop_Next_drawn n i pool (st st' : state) :
  loop n i pool st = Next st' →
  drawn (trace st')
  = drawn (trace st) ++ enumerate i (islice (next env) n pool).
Proof.
  revert i pool st. induction n as [|n IH]; intros i pool st; simpl.
  - intros [= <-]. by rewrite app_nil_r.
  - destruct (next env pool) as [[parents pool'] |];
      [| intros [= <-]; by rewrite app_nil_r].
    destruct (body i parents st) as [st1 | ex st1] eqn:Hb; [| done].
    intros Hloop. apply IH in Hloop. rewrite Hloop.
    apply body_Next in Hb as (fd & func & _ & _ & _ & -> & _).
    by rewrite <- app_assoc.
Qed.

(** However the loop ends, what it has drawn is an initial part of the
    first [n] items of the pool. *)
Lemma loop_drawn_prefix n i pool (st : state) :
  ∃ items,
    items `prefix_of` islice (next env) n pool
    ∧ drawn (trace (flow_state (loop n i pool st)))
      = drawn (trace st) ++ enumerate i items.
Proof.
  revert i pool st. induction n as [|n IH]; intros i pool st; simpl.
  - exists []. split; [done | by rewrite app_nil_r].
  - destruct (next env pool) as [[parents pool'] |];
      [| exists []; split; [done | by rewrite app_nil_r]].
    destruct (body i parents st) as [st1 | ex st1] eqn:Hb.
    + destruct (IH (S i) pool' st1) as (items & Hpre & ->).
      exists (parents :: items). split; [by apply prefix_cons |].
      apply body_Next in Hb as (fd & func & _ & _ & _ & -> & _).
      by rewrite <- app_assoc.
    + exists [parents]. split.
      * apply prefix_cons, prefix_nil.
      * simpl. by apply body_Propagate in Hb as (_ & _ & -> & _).
Qed.

(** *** The stream *)

Lemma islice_length_le n (pool : Sel) :
  length (islice (next env) n pool) ≤ n.
Proof.
  revert pool. induction n as [|n IH]; intros pool; simpl; [done |].
  destruct (next env pool) as [[x pool'] |]; simpl; [| lia].
  specialize (IH pool'). lia.
Qed.

Lemma islice_has_length n (pool : Sel) len :
  has_length (next env) pool len →
  length (islice (next env) n pool) = n `min` len.
Proof.
  revert pool len. induction n as [|n IH]; intros pool len; [done |].
  intros (pool' & Hadv & Hend). simpl.
  destruct len as [|len]; simpl in Hadv.
  - injection Hadv as <-. by rewrite Hend.
  - destruct (next env pool) as [[x pool1] |]; [| done].
    simpl. f_equal. apply IH. by exists pool'.
Qed.

Lemma islice_unbounded n (pool : Sel) :
  unbounded (next env) pool → length (islice (next env) n pool) = n.
Proof.
  revert pool. induction n as [|n IH]; intros pool Hunb; [done |].
  simpl. pose proof (Hunb 1) as [pool1 H1]. simpl in H1.
  destruct (next env pool) as [[x pool'] |] eqn:Hnext; [| done].
  simpl. f_equal. apply IH. intros k.
  specialize (Hunb (S k)). simpl in Hunb. by rewrite Hnext in Hunb.
Qed.

Lemma enumerate_length {A} i (l : list A) : length (enumerate i l) = length l.
Proof. revert i. induction l as [|x l IH]; intros i; simpl; [done | by rewrite IH]. Qed.

Lemma enumerate_fst_ge {A} i (l : list A) j x :
  (j, x) ∈ enumerate i l → i ≤ j.
Proof.
  revert i. induction l as [|y l IH]; intros i; simpl.
  - by intros ?%elem_of_nil.
  - intros [[= -> ->] | Hin%IH]%elem_of_cons; lia.
Qed.

Lemma enumerate_NoDup {A} i (l : list A) : NoDup (enumerate i l).*1.
Proof.
  revert i. induction l as [|x l IH]; intros i; simpl; [constructor |].
  constructor; [| apply IH].
  intros ([j y] & Hj & Hin%enumerate_fst_ge)%list_elem_of_fmap.
  simpl in Hj. lia.
Qed.

(** *** The selection counter *)

Lemma Counter_get_insert (c : gmap Mol Z) x v m :
  Counter_get (<[x := v]> c) m = if decide (x = m) then v else Counter_get c m.
Proof.
  unfold Counter_get. destruct (decide (x = m)) as [-> | Hne].
  - by rewrite lookup_insert_eq.
  - by rewrite lookup_insert_ne.
Qed.

Lemma occurrences_cons (m x : Mol) xs :
  occurrences m (x :: xs)
  = (if decide (x = m) then 1 else 0) + occurrences m xs.
Proof.
  unfold occurrences. rewrite filter_cons.
  by destruct (decide (x = m)).
Qed.

Lemma Counter_get_update xs (c : gmap Mol Z) m :
  Counter_get (Counter_update xs c) m
  = (Counter_get c m + Z.of_nat (occurrences m xs))%Z.
Proof.
  unfold Counter_update. revert c.
  induction xs as [|x xs IH]; intros c; simpl.
  - unfold occurrences. simpl. lia.
  - rewrite IH, Counter_get_insert, occurrences_cons.
    destruct (decide (x = m)) as [-> | Hne]; lia.
Qed.

Lemma occurrences_not_elem_of (m : Mol) xs : m ∉ xs → occurrences m xs = 0.
Proof.
  induction xs as [|x xs IH]; [done |].
  rewrite occurrences_cons, not_elem_of_cons. intros [Hne Hnot].
  rewrite decide_False by done. by rewrite IH.
Qed.

Lemma occurrences_NoDup (m : Mol) xs :
  NoDup xs → occurrences m xs = if decide (m ∈ xs) then 1 else 0.
Proof.
  induction 1 as [|x xs Hx Hnd IH]; [done |].
  rewrite occurrences_cons. destruct (decide (x = m)) as [-> | Hne].
  - rewrite occurrences_not_elem_of by done.
    rewrite decide_True; [done | left].
  - rewrite IH. destruct (decide (m ∈ xs)) as [Hin | Hnin].
    + rewrite decide_True; [done | by right].
    + rewrite decide_False; [done |].
      rewrite not_elem_of_cons. split; [congruence | done].
Qed.

Lemma times_selected_snoc (m : Mol) (tr : list event) i ps :
  sum_list (occurrences m <$> (drawn tr ++ [(i, ps)]).*2)
  = sum_list (occurrences m <$> (drawn tr).*2) + occurrences m ps.
Proof.
  rewrite !fmap_app, sum_list_with_app. simpl. unfold id. lia.
Qed.

(** The counter holds, for every molecule, how often it was drawn. *)
Lemma loop_counts n i pool (st : state) :
  (∀ m, Counter_get (counter st) m
        = Z.of_nat (times_selected m (trace st))) →
  ∀ m, Counter_get (counter (flow_state (loop n i pool st))) m
       = Z.of_nat (times_selected m (trace (flow_state (loop n i pool st)))).
Proof.
  apply (loop_preserves
           (λ st, ∀ m, Counter_get (counter st) m
                       = Z.of_nat (times_selected m (trace st)))).
  clear. intros i parents st Hst m.
  unfold times_selected in *.
  destruct (body i parents st) as [st' | ex st'] eqn:Hb; simpl.
  - apply body_Next in Hb as (fd & func & _ & _ & -> & -> & _).
    rewrite times_selected_snoc, Counter_get_update, Hst. lia.
  - apply body_Propagate in Hb as (-> & _ & -> & _).
    rewrite times_selected_snoc, Counter_get_update, Hst. lia.
Qed.

Lemma times_selected_never (m : Mol) (tr : list event) :
  (∀ i ps, (i, ps) ∈ drawn tr → m ∉ ps) → times_selected m tr = 0.
Proof.
  unfold times_selected. induction (drawn tr) as [|[i ps] ds IH]; [done |].
  intros Hnever. rewrite !fmap_cons.
  change (occurrences m ps + sum_list (occurrences m <$> ds.*2) = 0).
  rewrite occurrences_not_elem_of by (eapply Hnever; left).
  apply IH. intros j qs Hin. eapply Hnever. by right.
Qed.

Lemma times_selected_pairs_with (m : Mol) (tr : list event) :
  (∀ i ps, (i, ps) ∈ drawn tr → NoDup ps) →
  times_selected m tr = pairs_with m tr.
Proof.
  unfold times_selected, pairs_with.
  induction (drawn tr) as [|[i ps] ds IH]; [done |].
  intros Hnd. rewrite !fmap_cons, filter_cons.
  change (occurrences m ps + sum_list (occurrences m <$> ds.*2)
          = length (if decide (m ∈ ps)
                    then (i, ps) :: filter (λ d, m ∈ d.2) ds
                    else filter (λ d, m ∈ d.2) ds)).
  rewrite occurrences_NoDup by (eapply Hnd; left).
  rewrite IH by (intros j qs Hin; eapply Hnd; by right).
  by destruct (decide (m ∈ ps)).
Qed.

(** After the unselected members are added, every member is a key, the
    counts that were there are kept and the new keys count zero. *)
Lemma add_unselected_lookup (population : Population Mol GATools)
      (c : gmap Mol Z) m :
  add_unselected population c !! m
  = match c !! m with
    | Some v => Some v
    | None => if decide (m ∈ members population) then Some 0%Z else None
    end.
Proof.
  unfold add_unselected, __iter__.
  assert (∀ l c,
    foldl (λ acc member,
             match acc !! member with
             | Some _ => acc
             | None => Counter_update_mapping [(member, 0%Z)] acc
             end) c l !! m
    = match c !! m with
      | Some v => Some v
      | None => if decide (m ∈ l) then Some 0%Z else None
      end) as Hfold.
  { clear. induction l as [|x l IH]; intros c; cbn [foldl].
    - destruct (c !! m); [done |].
      case_decide as Hin; [by apply elem_of_nil in Hin | done].
    - rewrite IH. destruct (c !! x) as [v |] eqn:Hx.
      + destruct (c !! m) as [w |] eqn:Hm; [done |].
        assert (x ≠ m) as Hne by congruence.
        destruct (decide (m ∈ l)) as [Hin | Hnin],
                 (decide (m ∈ x :: l)) as [Hin' | Hnin']; try done.
        * exfalso. apply Hnin'. by right.
        * apply elem_of_cons in Hin' as [-> | Hin']; done.
      + unfold Counter_update_mapping, Counter_get. cbn [foldl fst snd].
        rewrite Hx. cbn [default].
        destruct (decide (x = m)) as [-> | Hne].
        * rewrite lookup_insert_eq, Hx.
          rewrite decide_True; [done | left].
        * rewrite lookup_insert_ne by done.
          destruct (c !! m); [done |].
          destruct (decide (m ∈ l)) as [Hin | Hnin],
                   (decide (m ∈ x :: l)) as [Hin' | Hnin']; try done.
          -- exfalso. apply Hnin'. by right.
          -- apply elem_of_cons in Hin' as [-> | Hin']; done. }
  rewrite Hfold. destruct (c !! m); [done |].
  destruct (decide (m ∈ members population)) as [Hin | Hnin].
  - rewrite decide_True; [done | by apply elem_of_elements].
  - rewrite decide_False; [done | by rewrite elem_of_elements].
Qed.

Lemma Counter_get_add_unselected (population : Population Mol GATools)
      (c : gmap Mol Z) m :
  Counter_get (add_unselected population c) m = Counter_get c m.
Proof.
  unfold Counter_get. rewrite add_unselected_lookup.
  destruct (c !! m); [done |]. by destruct (decide _).
Qed.

(** *** The call *)

(** The call ends with the exception that left the loop, or goes on
    from the state the loop ended in. *)
Lemma islice_stop_inv (stop : Z) :
  ((0 ≤ stop ≤ sys_maxsize)%Z ∧ islice_stop stop = inr (Z.to_nat stop))
  ∨ (¬ (0 ≤ stop ≤ sys_maxsize)%Z
     ∧ ∃ msg, islice_stop stop = inl (ValueError msg)).
Proof.
  unfold islice_stop.
  destruct (decide (0 ≤ stop ≤ sys_maxsize)%Z) as [Hvalid | Hinvalid].
  - by left.
  - right. split; [done |]. destruct (decide _); by eexists.
Qed.

(** The call ends with the [ValueError] of [islice], or with the
    exception that left the loop, or goes on from the state the loop
    ended in. *)
Lemma call_inv population path res (st : state) :
  call population path = (res, st) →
  let pool := select env population in
  let stop := Z.to_nat (num_crossovers self) in
  (¬ (0 ≤ num_crossovers self ≤ sys_maxsize)%Z
   ∧ (∃ msg, res = inl (ValueError msg)) ∧ st = start population)
  ∨ ((0 ≤ num_crossovers self ≤ sys_maxsize)%Z
     ∧ ∃ ex, loop stop 1 pool (start population) = Propagate ex st
             ∧ res = inl ex)
  ∨ ((0 ≤ num_crossovers self ≤ sys_maxsize)%Z
     ∧ ∃ st1,
         loop stop 1 pool (start population) = Next st1
         ∧ res = inr (__isub__ (offspring_pop st1) population)
         ∧ offspring_pop st = __isub__ (offspring_pop st1) population
         ∧ ((truthy path = false ∧ counter st = counter st1
             ∧ trace st = trace st1)
            ∨ (truthy path = true
               ∧ counter st = add_unselected population (counter st1)
               ∧ trace st = trace st1 ++ [Plotted (counter st) path]))).
Proof.
  unfold Crossover.__call__. simpl.
  destruct (islice_stop_inv (num_crossovers self))
    as [[Hvalid ->] | [Hinvalid [msg ->]]].
  2:{ intros [= <- <-]. left. split; [done |]. split; [by exists msg | done]. }
  destruct (loop _ _ _ _) as [st1 | ex st1].
  - destruct (truthy path) eqn:Hpath; intros [= <- <-]; do 2 right;
      (split; [done |]); exists st1;
      (do 3 (split; [done |])); [right | left]; done.
  - intros [= <- <-]. right. left. split; [done |]. by exists ex.
Qed.

(** The state a call ends in is the state its loop ended in, followed by
    the plot when there is one; the loop of a call whose bound [islice]
    refuses is the loop that draws nothing. *)
Lemma call_state population path res (st : state) :
  call population path = (res, st) →
  ∃ stop st1,
    st1 = flow_state (loop stop 1 (select env population) (start population))
    ∧ ((counter st = counter st1 ∧ trace st = trace st1)
       ∨ (counter st = add_unselected population (counter st1)
          ∧ trace st = trace st1 ++ [Plotted (counter st) path])).
Proof.
  intros Hcall.
  apply call_inv in Hcall
    as [(_ & _ & ->)
       | [(_ & ex & Hloop & _) | (_ & st1 & Hloop & _ & _ & Htr)]].
  - exists 0, (start population). split; [done | by left].
  - eexists _, st. rewrite Hloop. split; [done | by left].
  - eexists _, st1. rewrite Hloop. split; [done |].
    destruct Htr as [(_ & -> & ->) | (_ & -> & ->)]; [by left | by right].
Qed.

(** What was there before the plot is read the same after it. *)
Lemma plotted_last_unobserved (tr : list event) c path :
  drawn (tr ++ [Plotted c path]) = drawn tr
  ∧ sampled (tr ++ [Plotted c path]) = sampled tr
  ∧ invoked (tr ++ [Plotted c path]) = invoked tr
  ∧ returned (tr ++ [Plotted c path]) = returned tr
  ∧ raised (tr ++ [Plotted c path]) = raised tr
  ∧ errors_logged (tr ++ [Plotted c path]) = errors_logged tr
  ∧ collected (tr ++ [Plotted c path]) = collected tr.
Proof. unfold collected. repeat split; by observe. Qed.

(** The offspring population holds what the calls that returned have
    produced. *)
Lemma loop_collects n i pool (st : state) :
  members (offspring_pop st) = collected (trace st) →
  members (offspring_pop (flow_state (loop n i pool st)))
  = collected (trace (flow_state (loop n i pool st))).
Proof.
  apply (loop_preserves
           (λ st, members (offspring_pop st) = collected (trace st))).
  clear. intros i parents st Hst. unfold collected in *.
  destruct (body i parents st) as [st' | ex st'] eqn:Hb; simpl.
  - apply body_Next in Hb
      as (fd & func & _ & _ & _ & _ & _ & _ & _ &
          [(offspring & _ & -> & _ & _ & ->) | (ex & _ & _ & -> & _ & _ & ->)]);
      [| done].
    rewrite fmap_app, union_list_app_L. unfold add_members, __iter__. simpl.
    rewrite list_to_set_elements_L, Hst. by rewrite (right_id_L ∅ (∪)).
  - by apply body_Propagate in Hb as (_ & -> & _ & _ & -> & _).
Qed.

(** Nothing is plotted inside the loop. *)
Lemma loop_plots_nothing n i pool (st : state) :
  plotted (trace st) = [] →
  plotted (trace (flow_state (loop n i pool st))) = [].
Proof.
  apply (loop_preserves (λ st, plotted (trace st) = [])).
  clear. intros i parents st Hst.
  destruct (body i parents st) as [st' | ex st'] eqn:Hb; simpl.
  - by apply body_Next in Hb as (fd & func & _ & _ & _ & _ & _ & _ & -> & _).
  - by apply body_Propagate in Hb as (_ & _ & _ & -> & _).
Qed.

(** C1: the population returned is what the calls that returned have
    produced, less the members of the population passed in; no member
    of that population is in it. *)
Theorem call_removes_parents population path pop (st : state) :
  call population path = (inr pop, st) →
  members pop = collected (trace st) ∖ members population
  ∧ ∀ m, m ∈ members population → m ∉ members pop.
Proof.
  intros Hcall.
  apply call_inv in Hcall
    as [(_ & [msg [=]] & _)
       | [(_ & ex & _ & [=]) | (_ & st1 & Hloop & [= ->] & _ & Htr)]].
  assert (members (offspring_pop st1) = collected (trace st1)) as Hinv.
  { pose proof (loop_collects (Z.to_nat (num_crossovers self)) 1
                  (select env population) (start population) eq_refl)
      as Hinv.
    by rewrite Hloop in Hinv. }
  assert (collected (trace st) = collected (trace st1)) as ->.
  { destruct Htr as [(_ & _ & ->) | (_ & _ & ->)]; [done |].
    apply plotted_last_unobserved. }
  simpl. rewrite Hinv. split; [done |].
  intros m Hm. rewrite elem_of_difference. tauto.
Qed.

(** Every event of the trace is accounted for: a sample is the result
    of [choice] for a tuple drawn; a call is by the name and with the
    parameters of the sample, on the tuple drawn, of the attribute of
    that name, and it returned or raised; what returned or raised was
    called. *)
Lemma loop_trace_sound n i pool (st : state)
      (P := λ st : state,
         (∀ j fd, (j, fd) ∈ sampled (trace st) →
            sample j = inr fd ∧ ∃ ps, (j, ps) ∈ drawn (trace st))
         ∧ (∀ j f args kw, (j, (f, args, kw)) ∈ invoked (trace st) →
              ∃ fd func,
                (j, fd) ∈ sampled (trace st) ∧ f = name fd ∧ kw = params fd
                ∧ (j, args) ∈ drawn (trace st)
                ∧ getattr env f = Some func
                ∧ ((∃ offspring, func args kw = inr offspring
                                 ∧ (j, offspring) ∈ returned (trace st))
                   ∨ (∃ ex, func args kw = inl ex
                            ∧ (j, ex) ∈ raised (trace st))))
         ∧ (∀ j offspring, (j, offspring) ∈ returned (trace st) →
              ∃ f args kw func,
                (j, (f, args, kw)) ∈ invoked (trace st)
                ∧ getattr env f = Some func
                ∧ func args kw = inr offspring)
         ∧ (∀ j ex, (j, ex) ∈ raised (trace st) →
              ∃ f args kw func,
                (j, (f, args, kw)) ∈ invoked (trace st)
                ∧ getattr env f = Some func
                ∧ func args kw = inl ex)) :
  P st → P (flow_state (loop n i pool st)).
Proof.
  apply loop_preserves. subst P. clear.
  intros i parents st (Hs & Hi & Hr & Hx).
  destruct (body i parents st) as [st' | ex st'] eqn:Hb; simpl.
  - apply body_Next in Hb
      as (fd & func & Hfd & Hfunc & _ & -> & -> & -> & _ &
          [(offspring & Hres & -> & -> & _) | (ex & Hres & _ & -> & -> & _)]);
      split_and!; intros *;
      setoid_rewrite elem_of_app; setoid_rewrite list_elem_of_singleton;
      naive_solver.
  - apply body_Propagate in Hb
      as (_ & _ & -> & _ & -> & _ &
          [(Hfd & -> & -> & ->)
          | [(fd & Hfd & Hnone & _ & -> & -> & ->)
            | (fd & func & Hfd & Hfunc & Hres & _ & -> & -> & ->)]]);
      split_and!; intros *;
      repeat setoid_rewrite elem_of_app;
      repeat setoid_rewrite list_elem_of_singleton;
      naive_solver.
Qed.

(** The trace of a call satisfies the accounting above. *)
Lemma call_trace_sound population path res (st : state) :
  call population path = (res, st) →
  (∀ j fd, (j, fd) ∈ sampled (trace st) →
     sample j = inr fd ∧ ∃ ps, (j, ps) ∈ drawn (trace st))
  ∧ (∀ j f args kw, (j, (f, args, kw)) ∈ invoked (trace st) →
       ∃ fd func,
         (j, fd) ∈ sampled (trace st) ∧ f = name fd ∧ kw = params fd
         ∧ (j, args) ∈ drawn (trace st)
         ∧ getattr env f = Some func
         ∧ ((∃ offspring, func args kw = inr offspring
                          ∧ (j, offspring) ∈ returned (trace st))
            ∨ (∃ ex, func args kw = inl ex
                     ∧ (j, ex) ∈ raised (trace st))))
  ∧ (∀ j offspring, (j, offspring) ∈ returned (trace st) →
       ∃ f args kw func,
         (j, (f, args, kw)) ∈ invoked (trace st)
         ∧ getattr env f = Some func
         ∧ func args kw = inr offspring)
  ∧ (∀ j ex, (j, ex) ∈ raised (trace st) →
       ∃ f args kw func,
         (j, (f, args, kw)) ∈ invoked (trace st)
         ∧ getattr env f = Some func
         ∧ func args kw = inl ex).
Proof.
  intros Hcall.
  apply call_state in Hcall as (stop & st1 & Hst1 & Htr).
  pose proof (loop_trace_sound stop 1 (select env population)
                (start population)) as Hinv.
  simpl in Hinv. rewrite <- Hst1 in Hinv.
  assert (drawn (trace st) = drawn (trace st1)
          ∧ sampled (trace st) = sampled (trace st1)
          ∧ invoked (trace st) = invoked (trace st1)
          ∧ returned (trace st) = returned (trace st1)
          ∧ raised (trace st) = raised (trace st1))
    as (-> & -> & -> & -> & ->).
  { destruct Htr as [(_ & ->) | (_ & ->)]; [done |].
    pose proof (plotted_last_unobserved (trace st1) (counter st) path).
    tauto. }
  apply Hinv. split_and!; intros *; by intros ?%elem_of_nil.
Qed.

(** The counter of a call holds, for every molecule, how often it was
    drawn. *)
Lemma call_counter_get population path res (st : state) m :
  call population path = (res, st) →
  Counter_get (counter st) m = Z.of_nat (times_selected m (trace st)).
Proof.
  intros Hcall.
  apply call_state in Hcall as (stop & st1 & Hst1 & Htr).
  pose proof (loop_counts stop 1 (select env population)
                (start population)) as Hinv.
  rewrite <- Hst1 in Hinv.
  destruct Htr as [(-> & ->) | (-> & ->)].
  - by apply Hinv.
  - rewrite Counter_get_add_unselected. unfold times_selected.
    destruct (plotted_last_unobserved (trace st1)
                (add_unselected population (counter st1)) path)
      as (-> & _).
    by apply Hinv.
Qed.

(** C9 (as amended): for every molecule the counter holds the number of
    times it occurs in the parents drawn, whether the crossover of a
    tuple failed or not; when no tuple drawn holds a molecule twice,
    this is the number of tuples drawn that hold it. *)
Theorem call_counts_selections population path res (st : state) m :
  call population path = (res, st) →
  Counter_get (counter st) m = Z.of_nat (times_selected m (trace st))
  ∧ ((∀ i ps, (i, ps) ∈ drawn (trace st) → NoDup ps) →
     Counter_get (counter st) m = Z.of_nat (pairs_with m (trace st)))
  ∧ (∀ i ex, (i, ex) ∈ raised (trace st) →
     ∃ ps, (i, ps) ∈ drawn (trace st)).
Proof.
  intros Hcall.
  pose proof (call_counter_get _ _ _ _ m Hcall) as Hcount.
  split; [exact Hcount |]. split.
  - intros Hnd. by rewrite Hcount, times_selected_pairs_with.
  - intros i ex Hraised.
    destruct (call_trace_sound _ _ _ _ Hcall) as (_ & Hi & _ & Hx).
    destruct (Hx _ _ Hraised) as (f & args & kw & func & Hin & _).
    destruct (Hi _ _ _ _ Hin) as (fd & func' & _ & _ & _ & Hd & _).
    by exists args.
Qed.

(** While the loop goes on every tuple drawn has been sampled for and
    crossed, every crossover has returned or raised, and every
    exception raised has been logged. *)
Lemma loop_Next_counts n i pool (st st' : state)
      (P := λ st : state,
         (sampled (trace st)).*1 = (drawn (trace st)).*1
         ∧ (invoked (trace st)).*1 = (drawn (trace st)).*1
         ∧ length (returned (trace st)) + length (raised (trace st))
           = length (drawn (trace st))
         ∧ length (errors_logged (trace st)) = length (raised (trace st))
         ∧ (∀ j f args kw func ex,
              (j, (f, args, kw)) ∈ invoked (trace st) →
              getattr env f = Some func → func args kw = inl ex →
              (f, mol_name env <$> args) ∈ errors_logged (trace st))) :
  P st → loop n i pool st = Next st' → P st'.
Proof.
  apply loop_Next_preserves. subst P. clear.
  intros i parents st st' (Hs & Hi & Hn & He & Hl) Hb.
  apply body_Next in Hb
    as (fd & func & Hfd & Hfunc & _ & -> & -> & -> & _ &
        [(offspring & Hres & -> & -> & -> & _)
        | (ex & Hres & _ & -> & -> & -> & _)]);
    rewrite !fmap_app, !length_app, Hs, Hi; simpl;
    (split_and!; [done | done | lia | lia |]);
    intros j f args kw func' ex' [Hin | Hnew]%elem_of_app Hattr Hraise.
  - by eapply Hl.
  - apply list_elem_of_singleton in Hnew. injection Hnew as -> -> -> ->.
    congruence.
  - apply elem_of_app. left. by eapply Hl.
  - apply list_elem_of_singleton in Hnew. injection Hnew as -> -> -> ->.
    apply elem_of_app. right. left.
Qed.

Lemma call_Next_counts population path pop (st : state) :
  call population path = (inr pop, st) →
  (sampled (trace st)).*1 = (drawn (trace st)).*1
  ∧ (invoked (trace st)).*1 = (drawn (trace st)).*1
  ∧ length (returned (trace st)) + length (raised (trace st))
    = length (drawn (trace st))
  ∧ length (errors_logged (trace st)) = length (raised (trace st))
  ∧ (∀ j f args kw func ex,
       (j, (f, args, kw)) ∈ invoked (trace st) →
       getattr env f = Some func → func args kw = inl ex →
       (f, mol_name env <$> args) ∈ errors_logged (trace st)).
Proof.
  intros Hcall.
  apply call_inv in Hcall
    as [(_ & [msg [=]] & _)
       | [(_ & ex & _ & [=]) | (_ & st1 & Hloop & _ & _ & Htr)]].
  assert (drawn (trace st) = drawn (trace st1)
          ∧ sampled (trace st) = sampled (trace st1)
          ∧ invoked (trace st) = invoked (trace st1)
          ∧ returned (trace st) = returned (trace st1)
          ∧ raised (trace st) = raised (trace st1)
          ∧ errors_logged (trace st) = errors_logged (trace st1))
    as (-> & -> & -> & -> & -> & ->).
  { destruct Htr as [(_ & _ & ->) | (_ & _ & ->)]; [done |].
    pose proof (plotted_last_unobserved (trace st1) (counter st) path).
    tauto. }
  eapply loop_Next_counts; [| exact Hloop]. simpl.
  split_and!; try done. intros *. by intros ?%elem_of_nil.
Qed.

(** An error is logged for the exceptions that derive from [Exception],
    and for no other. *)
Lemma loop_logs_errors n i pool (st : state) :
  length (errors_logged (trace st))
  = length (filter (λ r, is_Exception r.2 = true) (raised (trace st))) →
  length (errors_logged (trace (flow_state (loop n i pool st))))
  = length (filter (λ r, is_Exception r.2 = true)
                   (raised (trace (flow_state (loop n i pool st))))).
Proof.
  apply (loop_preserves
           (λ st, length (errors_logged (trace st))
                  = length (filter (λ r, is_Exception r.2 = true)
                                   (raised (trace st))))).
  clear. intros i parents st Hst.
  destruct (body i parents st) as [st' | ex st'] eqn:Hb; simpl.
  - apply body_Next in Hb
      as (fd & func & _ & _ & _ & _ & _ & _ & _ &
          [(offspring & _ & _ & -> & -> & _)
          | (ex & _ & Hex & _ & -> & -> & _)]); [done |].
    rewrite filter_app, !length_app, Hst, filter_cons, decide_True by done.
    done.
  - apply body_Propagate in Hb
      as (_ & _ & _ & _ & _ & -> &
          [(_ & _ & _ & ->)
          | [(fd & _ & _ & _ & _ & _ & ->)
            | (fd & func & _ & _ & _ & Hex & _ & _ & ->)]]); try done.
    rewrite filter_app, length_app, Hst, filter_cons, decide_False; [done |].
    simpl. congruence.
Qed.

Lemma call_logs_errors population path res (st : state) :
  call population path = (res, st) →
  length (errors_logged (trace st))
  = length (filter (λ r, is_Exception r.2 = true) (raised (trace st))).
Proof.
  intros Hcall.
  apply call_state in Hcall as (stop & st1 & Hst1 & Htr).
  pose proof (loop_logs_errors stop 1 (select env population)
                (start population) eq_refl) as Hinv.
  rewrite <- Hst1 in Hinv.
  destruct Htr as [(_ & ->) | (_ & ->)]; [done |].
  by destruct (plotted_last_unobserved (trace st1) (counter st) path)
    as (_ & _ & _ & _ & -> & -> & _).
Qed.

(** *** The numbering of the tuples *)

Lemma enumerate_app {A} i (l k : list A) :
  enumerate i (l ++ k) = enumerate i l ++ enumerate (i + length l) k.
Proof.
  revert i. induction l as [|x l IH]; intros i; simpl.
  - by rewrite Nat.add_0_r.
  - by rewrite IH, Nat.add_succ_comm.
Qed.



Lemma enumerate_prefix {A} i (l k : list A) :
  l `prefix_of` k → enumerate i l `prefix_of` enumerate i k.
Proof. intros [rest ->]. rewrite enumerate_app. by eexists. Qed.

Lemma last_enumerate_snoc {A} i (l : list A) x :
  last (enumerate i (l ++ [x])) = Some (i + length l, x).
Proof. rewrite enumerate_app. simpl. apply last_snoc. Qed.

(** *** How the loop and the call end *)

Lemma goes_on_not_leaves i parents ex :
  goes_on i parents → leaves i parents ex → False.
Proof.
  intros (fd & func & Hfd & Hattr & Hexc)
         [Hraise
         | [(fd' & Hfd' & Hnone & _)
           | (fd' & func' & Hfd' & Hattr' & Hres & Hex)]].
  - congruence.
  - congruence.
  - assert (fd' = fd) as -> by congruence.
    assert (func' = func) as -> by congruence.
    apply Hexc in Hres. congruence.
Qed.

Lemma body_Next_goes_on i parents (st st' : state) :
  body i parents st = Next st' → goes_on i parents.
Proof.
  intros Hb.
  apply body_Next in Hb
    as (fd & func & Hfd & Hattr & _ & _ & _ & _ & _ & Hout).
  exists fd, func. split_and!; [done | done |]. intros ex Hres.
  destruct Hout as [(o & Ho & _) | (ex' & Hex' & Hexc & _)]; congruence.
Qed.

Lemma body_Propagate_leaves i parents (st st' : state) ex :
  body i parents st = Propagate ex st' → leaves i parents ex.
Proof.
  intros Hb.
  apply body_Propagate in Hb
    as (_ & _ & _ & _ & _ & _ &
        [(Hfd & _)
        | [(fd & Hfd & Hnone & -> & _)
          | (fd & func & Hfd & Hattr & Hres & Hex & _)]]).
  - by left.
  - right; left. by exists fd.
  - right; right. by exists fd, func.
Qed.

(** A loop that ends normally has drawn the first [n] items of the
    pool, and after each of them the loop went on; a loop that an
    exception leaves has drawn the items up to the one whose crossover
    the exception left. *)
Lemma loop_outcome n i pool (st : state) :
  match loop n i pool st with
  | Next st' =>
      drawn (trace st')
      = drawn (trace st) ++ enumerate i (islice (next env) n pool)
      ∧ ∀ j ps, (j, ps) ∈ enumerate i (islice (next env) n pool) →
                goes_on j ps
  | Propagate ex st' =>
      ∃ items parents rest,
        islice (next env) n pool = items ++ parents :: rest
        ∧ drawn (trace st')
          = drawn (trace st) ++ enumerate i (items ++ [parents])
        ∧ (∀ j ps, (j, ps) ∈ enumerate i items → goes_on j ps)
        ∧ leaves (i + length items) parents ex
  end.
Proof.
  revert i pool st. induction n as [|n IH]; intros i pool st; simpl.
  - split; [by rewrite app_nil_r | by intros j ps ?%elem_of_nil].
  - destruct (next env pool) as [[parents pool'] |]; simpl.
    2:{ split; [by rewrite app_nil_r | by intros j ps ?%elem_of_nil]. }
    destruct (body i parents st) as [st1 | ex st1] eqn:Hb.
    + pose proof (body_Next_goes_on _ _ _ _ Hb) as Hgo.
      apply body_Next in Hb as (fd & func & _ & _ & _ & Hd & _).
      specialize (IH (S i) pool' st1).
      destruct (loop n (S i) pool' st1) as [st' | ex st'].
      * destruct IH as [-> Hall]. rewrite Hd, <- app_assoc.
        split; [done |].
        intros j ps [[= -> ->] | Hin]%elem_of_cons; [done | by apply Hall].
      * destruct IH as (items & final & rest & -> & -> & Hall & Hleave).
        exists (parents :: items), final, rest. split_and!.
        -- done.
        -- by rewrite Hd, <- app_assoc.
        -- intros j ps [[= -> ->] | Hin]%elem_of_cons;
             [done | by apply Hall].
        -- simpl. by rewrite <- Nat.add_succ_comm.
    + exists [], parents, (islice (next env) n pool'). split_and!.
      * done.
      * simpl. by apply body_Propagate in Hb as (_ & _ & -> & _).
      * by intros j ps ?%elem_of_nil.
      * simpl. rewrite Nat.add_0_r. by eapply body_Propagate_leaves.
Qed.

(** How a call ends, once [islice] has accepted [num_crossovers]: it
    returns after every tuple of the pool was drawn and the loop went on
    each time, or it raises what left the crossover of the last tuple
    drawn. *)
Lemma call_outcome population path res (st : state) :
  call population path = (res, st) →
  (0 ≤ num_crossovers self ≤ sys_maxsize)%Z →
  match res with
  | inr pop =>
      drawn (trace st) = enumerate 1 (parent_pool population)
      ∧ ∀ j ps, (j, ps) ∈ enumerate 1 (parent_pool population) →
                goes_on j ps
  | inl ex =>
      ∃ items parents rest,
        parent_pool population = items ++ parents :: rest
        ∧ drawn (trace st) = enumerate 1 (items ++ [parents])
        ∧ (∀ j ps, (j, ps) ∈ enumerate 1 items → goes_on j ps)
        ∧ leaves (S (length items)) parents ex
  end.
Proof.
  intros Hcall Hvalid.
  pose proof (loop_outcome (Z.to_nat (num_crossovers self)) 1
                (select env population) (start population)) as Hout.
  apply call_inv in Hcall
    as [(Hinvalid & _)
       | [(_ & ex & Hloop & ->) | (_ & st1 & Hloop & -> & _ & Htr)]];
    [done | |]; rewrite Hloop in Hout; simpl in Hout.
  - exact Hout.
  - assert (drawn (trace st) = drawn (trace st1)) as ->; [| exact Hout].
    destruct Htr as [(_ & _ & ->) | (_ & _ & ->)]; [done |].
    apply plotted_last_unobserved.
Qed.

(** When the loop goes on after every tuple of the pool, the call
    returns. *)
Lemma call_returns population path res (st : state) :
  call population path = (res, st) →
  (0 ≤ num_crossovers self ≤ sys_maxsize)%Z →
  (∀ i parents, (i, parents) ∈ enumerate 1 (parent_pool population) →
                goes_on i parents) →
  ∃ pop, res = inr pop.
Proof.
  intros Hcall Hvalid Hall.
  pose proof (call_outcome _ _ _ _ Hcall Hvalid) as Hout.
  destruct res as [ex | pop]; [| by eexists]. exfalso.
  destruct Hout as (items & parents & rest & Hpool & _ & _ & Hleave).
  eapply goes_on_not_leaves; [| exact Hleave].
  apply Hall. rewrite Hpool, enumerate_app.
  apply elem_of_app. right. left.
Qed.

(** What a call raises is the [ValueError] of [islice], or what left
    the crossover of the last tuple drawn. *)
Lemma call_raises population path ex (st : state) :
  call population path = (inl ex, st) →
  (¬ (0 ≤ num_crossovers self ≤ sys_maxsize)%Z
   ∧ (∃ msg, ex = ValueError msg) ∧ trace st = [])
  ∨ ((0 ≤ num_crossovers self ≤ sys_maxsize)%Z
     ∧ ∃ i parents,
         last (drawn (trace st)) = Some (i, parents) ∧ leaves i parents ex).
Proof.
  intros Hcall.
  destruct (decide (0 ≤ num_crossovers self ≤ sys_maxsize)%Z)
    as [Hvalid | Hinvalid].
  - right. split; [done |].
    destruct (call_outcome _ _ _ _ Hcall Hvalid)
      as (items & parents & rest & _ & -> & _ & Hleave).
    exists (S (length items)), parents. split; [| done].
    apply last_enumerate_snoc.
  - left. split; [done |].
    apply call_inv in Hcall
      as [(_ & [msg [= ->]] & ->) | [(? & _) | (? & _)]]; [| done | done].
    split; [by exists msg | done].
Qed.

(** A call that returns has drawn the first [num_crossovers] tuples of
    the stream, numbered from one; any call has drawn an initial part
    of them. *)
Lemma call_drawn population path res (st : state) :
  call population path = (res, st) →
  (∃ items,
     items `prefix_of` parent_pool population
     ∧ drawn (trace st) = enumerate 1 items)
  ∧ (∀ pop, res = inr pop →
     drawn (trace st) = enumerate 1 (parent_pool population)).
Proof.
  intros Hcall. unfold Crossover.parent_pool.
  apply call_inv in Hcall
    as [(_ & [msg ->] & ->)
       | [(_ & ex & Hloop & ->) | (_ & st1 & Hloop & -> & _ & Htr)]].
  - split; [| by intros pop [=]].
    exists []. split; [apply prefix_nil | done].
  - split; [| by intros pop [=]].
    destruct (loop_drawn_prefix (Z.to_nat (num_crossovers self)) 1
                (select env population) (start population))
      as (items & Hpre & Hd).
    rewrite Hloop in Hd. exists items. by split.
  - assert (drawn (trace st) = drawn (trace st1)) as ->.
    { destruct Htr as [(_ & _ & ->) | (_ & _ & ->)]; [done |].
      apply plotted_last_unobserved. }
    apply loop_Next_drawn in Hloop. simpl in Hloop.
    split; [| by intros pop _].
    eexists. split; [done | exact Hloop].
Qed.


Lemma call_drawn_NoDup population path res (st : state) :
  call population path = (res, st) → NoDup (drawn (trace st)).*1.
Proof.
  intros Hcall.
  destruct (call_drawn _ _ _ _ Hcall) as ((items & _ & ->) & _).
  apply enumerate_NoDup.
Qed.

(** *** Every tuple drawn is crossed *)

Lemma crossed_mono (tr tr' : list event) i parents :
  (∀ x, x ∈ sampled tr → x ∈ sampled tr') →
  (∀ x, x ∈ invoked tr → x ∈ invoked tr') →
  (∀ x, x ∈ returned tr → x ∈ returned tr') →
  (∀ x, x ∈ raised tr → x ∈ raised tr') →
  (∀ x, x ∈ errors_logged tr → x ∈ errors_logged tr') →
  crossed env self tr i parents → crossed env self tr' i parents.
Proof.
  intros Hs Hi Hr Hx He (fd & func & Hfd & Hattr & Hsam & Hinv & Hout).
  exists fd, func. split_and!; [done | done | by apply Hs | by apply Hi |].
  destruct (func parents (params fd)) as [ex | offspring]; [| by apply Hr].
  destruct Hout as [Hraised Hlogged].
  split; [by apply Hx |]. intros Hex. by apply He, Hlogged.
Qed.

(** A turn after which the loop goes on crosses its tuple in full. *)
Lemma body_Next_all_crossed i parents (st st' : state) :
  all_crossed env self (trace st) → body i parents st = Next st' →
  all_crossed env self (trace st').
Proof.
  intros (Hs & Hi & Hall) Hb.
  apply body_Next in Hb
    as (fd & func & Hfd & Hfunc & _ & Hd & Hsam & Hinv & _ & Hout).
  split_and!.
  - by rewrite Hsam, Hd, !fmap_app, Hs.
  - by rewrite Hinv, Hd, !fmap_app, Hi.
  - intros j ps. rewrite Hd. intros [Hold | Hnew]%elem_of_app.
    + apply (crossed_mono (trace st)); [.. | by apply Hall].
      * intros x Hx. rewrite Hsam. apply elem_of_app. by left.
      * intros x Hx. rewrite Hinv. apply elem_of_app. by left.
      * intros x Hx.
        destruct Hout as [(o & _ & -> & _) | (ex & _ & _ & -> & _)];
          [apply elem_of_app; by left | done].
      * intros x Hx.
        destruct Hout as [(o & _ & _ & -> & _) | (ex & _ & _ & _ & -> & _)];
          [done | apply elem_of_app; by left].
      * intros x Hx.
        destruct Hout
          as [(o & _ & _ & _ & -> & _) | (ex & _ & _ & _ & _ & -> & _)];
          [done | apply elem_of_app; by left].
    + apply list_elem_of_singleton in Hnew. injection Hnew as -> ->.
      exists fd, func. split_and!; [done | done | | |].
      * rewrite Hsam. apply elem_of_app. right. left.
      * rewrite Hinv. apply elem_of_app. right. left.
      * destruct Hout
          as [(o & -> & -> & _) | (ex & -> & Hex & _ & -> & -> & _)].
        -- apply elem_of_app. right. left.
        -- split; [apply elem_of_app; right; left |].
           intros _. apply elem_of_app. right. left.
Qed.

Lemma loop_Next_all_crossed n i pool (st st' : state) :
  all_crossed env self (trace st) → loop n i pool st = Next st' →
  all_crossed env self (trace st').
Proof.
  apply (loop_Next_preserves (λ st, all_crossed env self (trace st))).
  intros j parents st1 st2. apply body_Next_all_crossed.
Qed.

(** The loop is left by the exception of a turn before which every
    tuple drawn was crossed in full. *)
Lemma loop_Propagate n i pool (st st' : state) ex :
  all_crossed env self (trace st) →
  loop n i pool st = Propagate ex st' →
  ∃ j parents st1,
    all_crossed env self (trace st1)
    ∧ body j parents st1 = Propagate ex st'.
Proof.
  revert i pool st. induction n as [|n IH]; intros i pool st Hst; simpl;
    [done |].
  destruct (next env pool) as [[parents pool'] |]; [| done].
  destruct (body i parents st) as [st1 | ex1 st1] eqn:Hb.
  - apply IH. by eapply body_Next_all_crossed.
  - intros [= <- <-]. by exists i, parents, st.
Qed.

Lemma all_crossed_start (population : Population Mol GATools) :
  all_crossed env self (trace (start population)).
Proof. split_and!; [done | done |]. by intros i ps ?%elem_of_nil. Qed.

(** Every tuple a call has drawn was crossed in full, but for the last
    one when [np.random.choice] or [getattr] raised the exception the
    call ends with: then nothing was called. *)
Lemma call_account population path res (st : state) :
  call population path = (res, st) →
  NoDup (sampled (trace st)).*1 ∧ NoDup (invoked (trace st)).*1
  ∧ ∀ i parents, (i, parents) ∈ drawn (trace st) →
      crossed env self (trace st) i parents
      ∨ (last (drawn (trace st)) = Some (i, parents)
         ∧ (i ∉ (invoked (trace st)).*1)
         ∧ ∃ ex, res = inl ex
                 ∧ (sample i = inl ex
                    ∨ ∃ fd, sample i = inr fd
                            ∧ getattr env (name fd) = None
                            ∧ ex = AttributeError (name fd))).
Proof.
  intros Hcall. pose proof (call_drawn_NoDup _ _ _ _ Hcall) as Hnd.
  apply call_inv in Hcall
    as [(_ & _ & ->)
       | [(_ & ex & Hloop & ->) | (_ & st1 & Hloop & -> & _ & Htr)]].
  - simpl. split_and!; [constructor | constructor |].
    by intros i ps ?%elem_of_nil.
  - apply loop_Propagate in Hloop as (j & parents & st1 & Hst1 & Hb);
      [| apply all_crossed_start].
    destruct Hst1 as (Hs & Hi & Hall).
    apply body_Propagate in Hb
      as (_ & _ & Hd & _ & Hret & Herr & Hhow).
    rewrite Hd, fmap_app in Hnd. simpl in Hnd.
    pose proof Hnd as Hnd'. apply NoDup_app in Hnd' as (Hnd1 & Hfresh & _).
    assert (j ∉ (drawn (trace st1)).*1) as Hj.
    { intros Hin. apply (Hfresh j Hin). left. }
    assert (∀ i ps, (i, ps) ∈ drawn (trace st1) →
                    (∀ x, x ∈ sampled (trace st1) → x ∈ sampled (trace st)) →
                    (∀ x, x ∈ invoked (trace st1) → x ∈ invoked (trace st)) →
                    (∀ x, x ∈ raised (trace st1) → x ∈ raised (trace st)) →
                    crossed env self (trace st) i ps) as Hold.
    { intros i ps Hin Hsam Hinv Hrai.
      apply (crossed_mono (trace st1)); [done | done | | done | |].
      - by rewrite Hret.
      - by rewrite Herr.
      - by apply Hall. }
    destruct Hhow
      as [(Hfd & Hsam & Hinv & Hrai)
         | [(fd & Hfd & Hnone & -> & Hsam & Hinv & Hrai)
           | (fd & func & Hfd & Hattr & Hres & Hex & Hsam & Hinv & Hrai)]].
    + rewrite Hsam, Hinv, Hs, Hi. split_and!; [done | done |].
      intros i ps. rewrite Hd. intros [Hin | Hnew]%elem_of_app.
      * left. apply Hold; [done | | |]; intros x; by rewrite ?Hsam, ?Hinv, ?Hrai.
      * apply list_elem_of_singleton in Hnew. injection Hnew as -> ->.
        right. split_and!; [apply last_snoc | done |].
        exists ex. split; [done | by left].
    + rewrite Hsam, Hinv, fmap_app, Hs, Hi. split_and!; [done | done |].
      intros i ps. rewrite Hd. intros [Hin | Hnew]%elem_of_app.
      * left. apply Hold; [done | | |]; intros x Hx;
          rewrite ?Hsam, ?Hinv, ?Hrai; try done.
        apply elem_of_app. by left.
      * apply list_elem_of_singleton in Hnew. injection Hnew as -> ->.
        right. split_and!; [apply last_snoc | done |].
        eexists. split; [done |]. right. by exists fd.
    + rewrite Hsam, Hinv, !fmap_app, Hs, Hi. split_and!; [done | done |].
      intros i ps. rewrite Hd. intros [Hin | Hnew]%elem_of_app.
      * left. apply Hold; [done | | |]; intros x Hx;
          rewrite ?Hsam, ?Hinv, ?Hrai; apply elem_of_app; by left.
      * apply list_elem_of_singleton in Hnew. injection Hnew as -> ->.
        left. exists fd, func. split_and!; [done | done | | |].
        -- rewrite Hsam. apply elem_of_app. right. left.
        -- rewrite Hinv. apply elem_of_app. right. left.
        -- rewrite Hres. split; [| congruence].
           rewrite Hrai. apply elem_of_app. right. left.
  - apply loop_Next_all_crossed in Hloop as (Hs & Hi & Hall);
      [| apply all_crossed_start].
    assert (drawn (trace st) = drawn (trace st1)
            ∧ sampled (trace st) = sampled (trace st1)
            ∧ invoked (trace st) = invoked (trace st1)
            ∧ returned (trace st) = returned (trace st1)
            ∧ raised (trace st) = raised (trace st1)
            ∧ errors_logged (trace st) = errors_logged (trace st1))
      as (Ed & Es & Ei & Er & Ex & Ee).
    { destruct Htr as [(_ & _ & ->) | (_ & _ & ->)]; [done |].
      pose proof (plotted_last_unobserved (trace st1) (counter st) path).
      tauto. }
    rewrite Es, Ei, Hs, Hi, <- Ed. split_and!; [done | done |].
    intros i ps Hin. left.
    apply (crossed_mono (trace st1)); try (intros x; congruence).
    apply Hall. by rewrite <- Ed.
Qed.

(** What a crossover of a call is, the sample and the attribute decide. *)
Lemma call_crossed_inv population path res (st : state) i parents fd func :
  call population path = (res, st) →
  (i, parents) ∈ drawn (trace st) →
  sample i = inr fd → getattr env (name fd) = Some func →
  (i, fd) ∈ sampled (trace st)
  ∧ (i, (name fd, parents, params fd)) ∈ invoked (trace st)
  ∧ match func parents (params fd) with
    | inr offspring => (i, offspring) ∈ returned (trace st)
    | inl ex =>
        (i, ex) ∈ raised (trace st)
        ∧ (is_Exception ex = true →
           (name fd, mol_name env <$> parents) ∈ errors_logged (trace st))
    end.
Proof.
  intros Hcall Hd Hfd Hattr.
  destruct (call_account _ _ _ _ Hcall) as (_ & _ & Hall).
  destruct (Hall _ _ Hd)
    as [(fd' & func' & Hfd' & Hattr' & Hrest)
       | (_ & _ & ex & _ & [Hraise | (fd' & Hfd' & Hnone & _)])].
  - assert (fd' = fd) as -> by congruence.
    assert (func' = func) as -> by congruence. exact Hrest.
  - congruence.
  - congruence.
Qed.

(** What returned or raised in a call, the tuple, the sample and the
    attribute decide. *)
Lemma call_raised_inv population path res (st : state) i ex :
  call population path = (res, st) →
  (i, ex) ∈ raised (trace st) →
  ∃ parents fd func,
    (i, parents) ∈ drawn (trace st) ∧ sample i = inr fd
    ∧ getattr env (name fd) = Some func
    ∧ func parents (params fd) = inl ex.
Proof.
  intros Hcall Hraised.
  destruct (call_trace_sound _ _ _ _ Hcall) as (Hs & Hi & _ & Hx).
  destruct (Hx _ _ Hraised) as (f & args & kw & func & Hinv & Hattr & Hres).
  destruct (Hi _ _ _ _ Hinv) as (fd & func' & Hsam & -> & -> & Hd & _).
  destruct (Hs _ _ Hsam) as (Hfd & _).
  by exists args, fd, func.
Qed.

Lemma call_returned_inv population path res (st : state) i offspring :
  call population path = (res, st) →
  (i, offspring) ∈ returned (trace st) →
  ∃ parents fd func,
    (i, parents) ∈ drawn (trace st) ∧ sample i = inr fd
    ∧ getattr env (name fd) = Some func
    ∧ func parents (params fd) = inr offspring.
Proof.
  intros Hcall Hret.
  destruct (call_trace_sound _ _ _ _ Hcall) as (Hs & Hi & Hr & _).
  destruct (Hr _ _ Hret) as (f & args & kw & func & Hinv & Hattr & Hres).
  destruct (Hi _ _ _ _ Hinv) as (fd & func' & Hsam & -> & -> & Hd & _).
  destruct (Hs _ _ Hsam) as (Hfd & _).
  by exists args, fd, func.
Qed.


(** C8 (as amended): with an empty [counter_path] nothing is plotted,
    and nothing is plotted by a call that an exception leaves; a call
    that returns with a [counter_path] has plotted once, as the last
    thing it did, to [counter_path], a counter that has every member of
    the population among its keys, with count zero for the members that
    were in no tuple drawn.  The call returns when [islice] accepts
    [num_crossovers] and the loop goes on after every tuple. *)
Theorem call_plots_counter population path res (st : state) :
  call population path = (res, st) →
  (path = EmptyString → plotted (trace st) = [])
  ∧ (∀ ex, res = inl ex → plotted (trace st) = [])
  ∧ (path ≠ EmptyString → ∀ pop, res = inr pop →
     ∃ c, plotted (trace st) = [(c, path)]
          ∧ last (trace st) = Some (Plotted c path)
          ∧ (∀ m, m ∈ members population → m ∈ dom c)
          ∧ (∀ m, m ∈ members population →
               (∀ i ps, (i, ps) ∈ drawn (trace st) → m ∉ ps) →
               c !! m = Some 0%Z))
  ∧ ((0 ≤ num_crossovers self ≤ sys_maxsize)%Z →
     (∀ i parents, (i, parents) ∈ enumerate 1 (parent_pool population) →
                   goes_on i parents) →
     ∃ pop, res = inr pop).
Proof.
  intros Hcall.
  pose proof (call_returns _ _ _ _ Hcall) as Hreturns.
  pose proof (loop_plots_nothing (Z.to_nat (num_crossovers self)) 1
                (select env population) (start population) eq_refl)
    as Hnone.
  pose proof (λ m, call_counter_get _ _ _ _ m Hcall) as Hcounts.
  apply call_inv in Hcall
    as [(_ & [msg ->] & ->)
       | [(_ & ex & Hloop & ->) | (_ & st1 & Hloop & -> & _ & Htr)]].
  - split_and!; [done | done | by intros _ pop [=] | done].
  - rewrite Hloop in Hnone. simpl in Hnone.
    split_and!; [done | done | by intros _ pop [=] | done].
  - rewrite Hloop in Hnone. simpl in Hnone.
    destruct Htr as [(Hpath & _ & ->) | (Hpath & Hc & Htr)].
    + split_and!; [done | by intros ex [=] | | done].
      intros Hne. by destruct path.
    + split_and!; [intros ->; done | by intros ex [=] | | done].
      intros _ pop _.
      exists (counter st). split_and!.
      * rewrite Htr. unfold plotted in *. rewrite omap_app, Hnone. done.
      * rewrite Htr. apply last_snoc.
      * intros m Hm. apply elem_of_dom. rewrite Hc, add_unselected_lookup.
        destruct (counter st1 !! m); [done |]. by rewrite decide_True.
      * intros m Hm Hnever.
        specialize (Hcounts m).
        rewrite times_selected_never in Hcounts by done.
        unfold Counter_get in Hcounts. revert Hcounts.
        rewrite Hc, add_unselected_lookup.
        destruct (counter st1 !! m) as [v |]; simpl; [by intros -> |].
        by rewrite decide_True.
Qed.

(** C3 (as amended): a call that returns has drawn the first
    [num_crossovers] tuples of the selection stream, or all of them when
    the stream is shorter: as many as the smaller of [num_crossovers] and
    the length of the stream, and [num_crossovers] from a stream that
    never ends; each tuple drawn is crossed once, the crossovers that
    fail included.  A call that an exception leaves has drawn an initial
    part of those tuples, up to the one whose crossover the exception
    left.  However the call ends, no more than [num_crossovers] tuples
    are drawn; it returns when the loop goes on after every tuple.  A
    [num_crossovers] that [islice] refuses ends the call before anything
    is drawn. *)
Theorem call_draws_num_crossovers population path res (st : state) :
  call population path = (res, st) →
  ((0 ≤ num_crossovers self ≤ sys_maxsize)%Z →
   drawn (trace st) `prefix_of` enumerate 1 (parent_pool population)
   ∧ length (drawn (trace st)) ≤ Z.to_nat (num_crossovers self)
   ∧ (∀ pop, res = inr pop →
      drawn (trace st) = enumerate 1 (parent_pool population)
      ∧ (∀ len,
           has_length (next env) (select env population) len →
           length (drawn (trace st))
           = Z.to_nat (num_crossovers self) `min` len)
      ∧ (unbounded (next env) (select env population) →
         length (drawn (trace st)) = Z.to_nat (num_crossovers self))
      ∧ length (invoked (trace st)) = length (drawn (trace st))
      ∧ length (returned (trace st)) + length (raised (trace st))
        = length (drawn (trace st)))
   ∧ (∀ ex, res = inl ex →
      ∃ i parents,
        last (drawn (trace st)) = Some (i, parents) ∧ leaves i parents ex)
   ∧ ((∀ i parents, (i, parents) ∈ enumerate 1 (parent_pool population) →
                    goes_on i parents) →
      ∃ pop, res = inr pop))
  ∧ (¬ (0 ≤ num_crossovers self ≤ sys_maxsize)%Z →
     (∃ msg, res = inl (ValueError msg)) ∧ trace st = []).
Proof.
  intros Hcall. split.
  - intros Hvalid.
    destruct (call_drawn _ _ _ _ Hcall) as ((items & Hpre & Hitems) & Hall).
    split_and!.
    + rewrite Hitems. by apply enumerate_prefix.
    + rewrite Hitems, enumerate_length.
      apply prefix_length in Hpre.
      pose proof (islice_length_le (Z.to_nat (num_crossovers self))
                    (select env population)).
      unfold Crossover.parent_pool in Hpre. lia.
    + intros pop ->. specialize (Hall pop eq_refl).
      destruct (call_Next_counts _ _ _ _ Hcall) as (_ & Hinv & Hn & _).
      split; [exact Hall |]. unfold Crossover.parent_pool in Hall.
      split_and!.
      * intros len Hlen. rewrite Hall, enumerate_length.
        by apply islice_has_length.
      * intros Hunb. rewrite Hall, enumerate_length.
        by apply islice_unbounded.
      * by rewrite <- (length_fmap fst (invoked _)), Hinv, length_fmap.
      * exact Hn.
    + intros ex ->.
      by destruct (call_raises _ _ _ _ Hcall) as [(? & _) | (_ & Hlast)].
    + by apply (call_returns _ _ _ _ Hcall).
  - intros Hinvalid.
    apply call_inv in Hcall
      as [(_ & Hmsg & ->) | [(? & _) | (? & _)]]; done.
Qed.

(** C4: the tuples crossed are those of the pool, in order.  For each of
    them [choice] is called once over [funcs] and [weights], and the
    attribute whose name is the name of the [FunctionData] sampled, which
    is one of [funcs], is called once, on the tuple drawn with the
    parameters of that [FunctionData]; what the call returns or raises is
    the outcome of the crossover.  Only when [choice] or [getattr] raises
    is nothing called, and the call ends there with that exception.
    Nothing else is called.  With weights, index [k] is sampled exactly
    when the variate, scaled by the sum of the weights, lies between the
    sum of the weights before [k] and that sum plus the weight of [k];
    without weights the index is the integer of [randint]. *)
Theorem call_invokes_sampled_function population path res (st : state) :
  call population path = (res, st) →
  (∃ items,
     items `prefix_of` parent_pool population
     ∧ drawn (trace st) = enumerate 1 items)
  ∧ (∀ pop, res = inr pop →
     drawn (trace st) = enumerate 1 (parent_pool population))
  ∧ (∀ i parents, (i, parents) ∈ drawn (trace st) →
     (∃ fd func,
        sample i = inr fd ∧ fd ∈ funcs self
        ∧ funcs self !! choice_index (length (funcs self)) (weights self)
                                     (random_sample env i)
                                     (random_integer env i) = Some fd
        ∧ getattr env (name fd) = Some func
        ∧ (i, fd) ∈ sampled (trace st)
        ∧ (i, (name fd, parents, params fd)) ∈ invoked (trace st)
        ∧ match func parents (params fd) with
          | inr offspring => (i, offspring) ∈ returned (trace st)
          | inl ex => (i, ex) ∈ raised (trace st)
          end)
     ∨ (last (drawn (trace st)) = Some (i, parents)
        ∧ (i ∉ (invoked (trace st)).*1)
        ∧ ∃ ex, res = inl ex
                ∧ (sample i = inl ex
                   ∨ ∃ fd, sample i = inr fd
                           ∧ getattr env (name fd) = None
                           ∧ ex = AttributeError (name fd))))
  ∧ NoDup (drawn (trace st)).*1
  ∧ NoDup (sampled (trace st)).*1
  ∧ NoDup (invoked (trace st)).*1
  ∧ (∀ i f args kw, (i, (f, args, kw)) ∈ invoked (trace st) →
     ∃ fd, sample i = inr fd ∧ fd ∈ funcs self
           ∧ f = name fd ∧ kw = params fd
           ∧ (i, args) ∈ drawn (trace st))
  ∧ (∀ u raw fd k,
       choice (funcs self) (weights self) u raw = inr fd →
       (0 <= u)%Q → (u < 1)%Q →
       choice_index (length (funcs self)) (weights self) u raw = k
       ↔ match weights self with
         | Some p =>
             k < length (funcs self)
             ∧ (Numpy.sum (take k p) <= u * Numpy.sum p)%Q
             ∧ (u * Numpy.sum p < Numpy.sum (take (S k) p))%Q
         | None =>
             k < length (funcs self)
             ∧ k = randint (length (funcs self)) raw
         end).
Proof.
  intros Hcall.
  destruct (call_trace_sound _ _ _ _ Hcall) as (Hs & Hi & _ & _).
  destruct (call_account _ _ _ _ Hcall) as (Hnds & Hndi & Hall).
  destruct (call_drawn _ _ _ _ Hcall) as (Hprefix & Hfull).
  split_and!; [done | done | | by eapply call_drawn_NoDup | done | done | |].
  - intros i parents Hd.
    destruct (Hall _ _ Hd)
      as [(fd & func & Hfd & Hattr & Hsam & Hinv & Hout) | Hlast];
      [left | by right].
    exists fd, func.
    split_and!; [done | by eapply choice_elem_of | by apply choice_lookup
                | done | done | done |].
    destruct (func parents (params fd)); [by destruct Hout | done].
  - intros i f args kw Hin.
    destruct (Hi _ _ _ _ Hin)
      as (fd & func & Hsam & -> & -> & Hd & Hattr & Hout).
    destruct (Hs _ _ Hsam) as (Hfd & _).
    exists fd. split_and!; try done. by eapply choice_elem_of.
  - intros u raw fd k Hfd Hu0 Hu1.
    destruct (weights self) as [p |].
    + by eapply weighted_index_interval.
    + simpl. split.
      * intros <-. split; [| done].
        apply Nat.mod_upper_bound. intros Hz.
        unfold choice in Hfd. by rewrite decide_True in Hfd.
      * by intros [_ ->].
Qed.

End CallFacts.

(** *** The call on the concrete runs *)

Abbreviation mixed_env := (env getattr_failing pool variates).
Abbreviation mixed_population := (returned_population run_mixed).
Abbreviation mixed_state := (run_mixed.2).

(** The mixed run returns: what it returns is [mixed_population]. *)
Lemma run_mixed_eq :
  __call__ mixed_env crossover_mixed parents "selected.png"
  = (inr mixed_population, mixed_state).
Proof.
  assert ((if run_mixed.1 is inr _ then true else false) = true) as Hret
    by (vm_compute; reflexivity).
  unfold returned_population.
  change (__call__ mixed_env crossover_mixed parents "selected.png")
    with run_mixed.
  destruct run_mixed as [[ex | pop] st]; simpl in *; [discriminate | reflexivity].
Qed.

Example run_mixed_returns :
  elements (members mixed_population)
  = [Cage_init (10, 2) 0; Cage_init (10, 2) 1;
     Cage_init (20, 1) 0; Cage_init (20, 1) 1].
Proof. vm_compute. reflexivity. Qed.

Example run_mixed_raised :
  raised (trace mixed_state) = [(2, Exception "no offspring")].
Proof. vm_compute. reflexivity. Qed.

Example run_forever_draws_three :
  length (drawn (trace run_forever.2)) = 3.
Proof. vm_compute. reflexivity. Qed.


(** C3, as stated, fails on a call that an exception leaves: the
    selection of the interrupted run has three tuples and five
    crossovers are asked for, but one tuple is drawn. *)
Lemma call_interrupted_draws_one :
  has_length (next (env getattr_interrupted pool half))
             (select (env getattr_interrupted pool half) parents) 3
  ∧ num_crossovers crossover_interrupted = 5%Z
  ∧ length (drawn (trace run_interrupted.2)) = 1
  ∧ length (drawn (trace run_interrupted.2))
    ≠ Z.to_nat (num_crossovers crossover_interrupted) `min` 3.
Proof.
  split_and!.
  - exists []. split; reflexivity.
  - reflexivity.
  - by vm_compute.
  - by vm_compute.
Qed.

(** C9, as stated, fails on a tuple that holds one molecule twice:
    [cage_b] is in two of the tuples drawn and its count is three. *)
Lemma call_counts_occurrences_not_pairs :
  pairs_with cage_b (trace mixed_state) = 2
  ∧ Counter_get (counter mixed_state) cage_b = 3%Z
  ∧ Counter_get (counter mixed_state) cage_b
    ≠ Z.of_nat (pairs_with cage_b (trace mixed_state)).
Proof. repeat split; vm_compute; congruence. Qed.

(** The mixed run returns none of [parents]. *)
Lemma call_removes_parents_witness :
  members mixed_population
  = collected (trace mixed_state) ∖ members parents
  ∧ ∀ m, m ∈ members parents → m ∉ members mixed_population.
Proof.
  apply (call_removes_parents mixed_env crossover_mixed parents
           "selected.png").
  exact run_mixed_eq.
Defined.

(** The number of crossovers of the mixed run is one [islice] accepts,
    and its loop goes on after each of its three tuples. *)
Lemma crossover_mixed_accepted :
  (0 ≤ num_crossovers crossover_mixed ≤ sys_maxsize)%Z.
Proof. by vm_compute. Qed.

Lemma run_mixed_goes_on i ps :
  (i, ps) ∈ enumerate 1 (parent_pool mixed_env crossover_mixed parents) →
  goes_on mixed_env crossover_mixed i ps.
Proof.
  change (enumerate 1 (parent_pool mixed_env crossover_mixed parents))
    with [(1, [cage_a; cage_b]); (2, [cage_a; cage_c]);
          (3, [cage_b; cage_b])].
  intros Hin.
  repeat (apply elem_of_cons in Hin as [[= -> ->] | Hin]);
    [| | | by apply elem_of_nil in Hin].
  - exists exchange, (bb_lk_exchange_method bb_counter Nat.ltb () as_cage).
    split_and!; [by vm_compute | reflexivity |].
    apply bb_lk_exchange_method_raises.
  - exists failing, (λ _ _, raise (Exception "no offspring")).
    split_and!; [by vm_compute | reflexivity |]. by intros ex [= <-].
  - exists exchange, (bb_lk_exchange_method bb_counter Nat.ltb () as_cage).
    split_and!; [by vm_compute | reflexivity |].
    apply bb_lk_exchange_method_raises.
Qed.


(** The mixed run draws the three tuples of its pool, fewer than the
    five asked for, and returns. *)
Lemma call_draws_num_crossovers_witness :
  drawn (trace mixed_state)
    `prefix_of` enumerate 1 (parent_pool mixed_env crossover_mixed parents)
  ∧ length (drawn (trace mixed_state))
    ≤ Z.to_nat (num_crossovers crossover_mixed)
  ∧ (∀ pop, run_mixed.1 = inr pop →
     drawn (trace mixed_state)
     = enumerate 1 (parent_pool mixed_env crossover_mixed parents)
     ∧ (∀ len,
          has_length (next mixed_env) (select mixed_env parents) len →
          length (drawn (trace mixed_state))
          = Z.to_nat (num_crossovers crossover_mixed) `min` len)
     ∧ (unbounded (next mixed_env) (select mixed_env parents) →
        length (drawn (trace mixed_state))
        = Z.to_nat (num_crossovers crossover_mixed))
     ∧ length (invoked (trace mixed_state))
       = length (drawn (trace mixed_state))
     ∧ length (returned (trace mixed_state))
       + length (raised (trace mixed_state))
       = length (drawn (trace mixed_state)))
  ∧ ∃ pop, run_mixed.1 = inr pop.
Proof.
  destruct (call_draws_num_crossovers mixed_env crossover_mixed parents
              "selected.png" run_mixed.1 run_mixed.2
              (surjective_pairing run_mixed)) as [Haccepted _].
  destruct (Haccepted crossover_mixed_accepted)
    as (Hprefix & Hle & Hreturned & _ & Hreturns).
  split_and!; [exact Hprefix | exact Hle | exact Hreturned |].
  exact (Hreturns run_mixed_goes_on).
Defined.

(** The mixed run samples among a failing function and the exchange. *)
Lemma call_invokes_sampled_function_witness :
  (∀ pop, run_mixed.1 = inr pop →
     drawn (trace mixed_state)
     = enumerate 1 (parent_pool mixed_env crossover_mixed parents))
  ∧ (∀ i ps, (i, ps) ∈ drawn (trace mixed_state) →
     (∃ fd func,
        choice (funcs crossover_mixed) (weights crossover_mixed)
               (random_sample mixed_env i) (random_integer mixed_env i)
        = inr fd
        ∧ fd ∈ funcs crossover_mixed
        ∧ funcs crossover_mixed
            !! choice_index (length (funcs crossover_mixed))
                            (weights crossover_mixed)
                            (random_sample mixed_env i)
                            (random_integer mixed_env i) = Some fd
        ∧ getattr mixed_env (name fd) = Some func
        ∧ (i, fd) ∈ sampled (trace mixed_state)
        ∧ (i, (name fd, ps, params fd)) ∈ invoked (trace mixed_state)
        ∧ match func ps (params fd) with
          | inr offspring => (i, offspring) ∈ returned (trace mixed_state)
          | inl ex => (i, ex) ∈ raised (trace mixed_state)
          end)
     ∨ (last (drawn (trace mixed_state)) = Some (i, ps)
        ∧ (i ∉ (invoked (trace mixed_state)).*1)
        ∧ ∃ ex, run_mixed.1 = inl ex
                ∧ (choice (funcs crossover_mixed) (weights crossover_mixed)
                          (random_sample mixed_env i)
                          (random_integer mixed_env i) = inl ex
                   ∨ ∃ fd, choice (funcs crossover_mixed)
                                  (weights crossover_mixed)
                                  (random_sample mixed_env i)
                                  (random_integer mixed_env i) = inr fd
                           ∧ getattr mixed_env (name fd) = None
                           ∧ ex = AttributeError (name fd))))
  ∧ NoDup (sampled (trace mixed_state)).*1
  ∧ NoDup (invoked (trace mixed_state)).*1
  ∧ (∀ i f args kw, (i, (f, args, kw)) ∈ invoked (trace mixed_state) →
     ∃ fd, choice (funcs crossover_mixed) (weights crossover_mixed)
                  (random_sample mixed_env i) (random_integer mixed_env i)
           = inr fd
           ∧ fd ∈ funcs crossover_mixed
           ∧ f = name fd ∧ kw = params fd
           ∧ (i, args) ∈ drawn (trace mixed_state)).
Proof.
  destruct (call_invokes_sampled_function mixed_env crossover_mixed parents
              "selected.png" run_mixed.1 run_mixed.2
              (surjective_pairing run_mixed))
    as (_ & Hfull & Hall & _ & Hnds & Hndi & Honly & _).
  split_and!; [exact Hfull | exact Hall | exact Hnds | exact Hndi
              | exact Honly].
Defined.

(** The mixed run returns and plots its counter once. *)
Lemma call_plots_counter_witness :
  (∀ ex, run_mixed.1 = inl ex → plotted (trace mixed_state) = [])
  ∧ (∀ pop, run_mixed.1 = inr pop →
     ∃ c, plotted (trace mixed_state) = [(c, "selected.png")]
          ∧ last (trace mixed_state) = Some (Plotted c "selected.png")
          ∧ (∀ m, m ∈ members parents → m ∈ dom c)
          ∧ (∀ m, m ∈ members parents →
               (∀ i ps, (i, ps) ∈ drawn (trace mixed_state) → m ∉ ps) →
               c !! m = Some 0%Z))
  ∧ ∃ pop, run_mixed.1 = inr pop.
Proof.
  destruct (call_plots_counter mixed_env crossover_mixed parents
              "selected.png" run_mixed.1 run_mixed.2
              (surjective_pairing run_mixed))
    as (_ & Hraise & Hplot & Hreturns).
  split_and!; [exact Hraise | by apply Hplot |].
  exact (Hreturns crossover_mixed_accepted run_mixed_goes_on).
Defined.

(** The count of [cage_b] in the mixed run. *)
Lemma call_counts_selections_witness :
  Counter_get (counter mixed_state) cage_b
  = Z.of_nat (times_selected cage_b (trace mixed_state))
  ∧ ((∀ i ps, (i, ps) ∈ drawn (trace mixed_state) → NoDup ps) →
     Counter_get (counter mixed_state) cage_b
     = Z.of_nat (pairs_with cage_b (trace mixed_state)))
  ∧ (∀ i ex, (i, ex) ∈ raised (trace mixed_state) →
     ∃ ps, (i, ps) ∈ drawn (trace mixed_state)).
Proof.
  apply (call_counts_selections mixed_env crossover_mixed parents
           "selected.png" run_mixed.1 run_mixed.2).
  exact (surjective_pairing run_mixed).
Defined.

(* ===================================================================== *)
(** * Part III: further properties *)
(* ===================================================================== *)

(** ** More on the exchange *)

Section ExchangeMore.
Context {BB Topology GATools : Type}.
Context `{Countable BB} `{Countable Topology}.
Variable bb_counter : Cage BB Topology → list (BB * Z).
Variable key_lt : BB → BB → bool.
Variable empty_tools : GATools.

Local Abbreviation linker := (linker bb_counter key_lt).
Local Abbreviation building_block := (building_block bb_counter key_lt).
Local Abbreviation constructions := (constructions bb_counter key_lt).
Local Abbreviation bb_lk_exchange :=
  (bb_lk_exchange bb_counter key_lt empty_tools).

(** Two comparisons that agree on items of different counts make the
    scan end on the same item, when no two items have the same count: the
    running item and the next one never have. *)
Lemma scan_agree (better better' : Z * BB → Z * BB → bool) cur rest :
  (∀ x y, x.1 ≠ y.1 → better x y = better' x y) →
  NoDup (cur.1 :: rest.*1) →
  scan better cur rest = scan better' cur rest.
Proof.
  intros Hagree. revert cur.
  induction rest as [|item rest IH]; intros cur Hnd; [done |].
  rewrite fmap_cons in Hnd. cbn [scan].
  apply NoDup_cons in Hnd as [Hcur Hnd].
  apply NoDup_cons in Hnd as Hnd'. destruct Hnd' as [Hitem Hrest].
  rewrite <- (Hagree item cur) by (intros Heq; apply Hcur; rewrite Heq; left).
  apply IH. destruct (better item cur); [done |].
  apply NoDup_cons. split; [| done].
  intros Hin. apply Hcur. by right.
Qed.

Lemma zip_values_keys_counts (c : list (BB * Z)) :
  (zip_values_keys c).*1 = c.*2.
Proof.
  unfold zip_values_keys. rewrite <- list_fmap_compose.
  by apply list_fmap_ext.
Qed.

(** With no two keys of equal count the selections are the same
    whatever the comparison of the keys. *)
Lemma linker_distinct_counts (key_lt' : BB → BB → bool) m :
  NoDup (bb_counter m).*2 →
  Exchange.linker bb_counter key_lt' m = linker m
  ∧ Exchange.building_block bb_counter key_lt' m = building_block m.
Proof.
  intros Hnd. rewrite <- zip_values_keys_counts in Hnd.
  unfold Exchange.linker, Exchange.building_block, max, min.
  destruct (zip_values_keys (bb_counter m)) as [|first rest]; [done |].
  simpl. split; do 2 f_equal; apply scan_agree; try done.
  - intros x y Hne. unfold tuple_gt. by rewrite !decide_False.
  - intros x y Hne. unfold tuple_lt. by rewrite !decide_False.
Qed.

(** X1: when no two keys of a parent's [bb_counter] have the same count,
    the keys are never compared: the exchange does the same whatever
    their comparison; it raises exactly when the [bb_counter] of a parent
    is empty, and what it raises is the [ValueError] of [max] on an empty
    sequence; no cage is built then. *)
Theorem bb_lk_exchange_raises_iff_empty m1 m2 :
  NoDup (bb_counter m1).*2 → NoDup (bb_counter m2).*2 →
  (∀ key_lt' : BB → BB → bool,
     Exchange.bb_lk_exchange bb_counter key_lt' empty_tools m1 m2
     = bb_lk_exchange m1 m2)
  ∧ (∀ ex,
       bb_lk_exchange m1 m2 = inl ex
       ↔ (bb_counter m1 = [] ∨ bb_counter m2 = [])
         ∧ ex = ValueError "max() arg is an empty sequence")
  ∧ (∀ ex, bb_lk_exchange m1 m2 = inl ex ↔ constructions m1 m2 = inl ex).
Proof.
  intros Hnd1 Hnd2. split.
  { intros key_lt'.
    destruct (linker_distinct_counts key_lt' m1 Hnd1) as [Hlk1 Hbb1].
    destruct (linker_distinct_counts key_lt' m2 Hnd2) as [Hlk2 Hbb2].
    unfold Exchange.bb_lk_exchange, Exchange.offspring_pairs.
    by rewrite Hlk1, Hbb1, Hlk2, Hbb2. }
  clear Hnd1 Hnd2.
  unfold Exchange.bb_lk_exchange, Exchange.constructions,
    Exchange.offspring_pairs, Exchange.linker, Exchange.building_block,
    zip_values_keys, max, min.
  destruct (bb_counter m1) as [|kv1 c1], (bb_counter m2) as [|kv2 c2];
    simpl; (split; intros ex; [| split; by intros [=]; subst]).
  - split; [intros [= <-]; by split; [left |] | by intros [_ ->]].
  - split; [intros [= <-]; by split; [left |] | by intros [_ ->]].
  - split; [intros [= <-]; by split; [right |] | by intros [_ ->]].
  - split; [done | by intros [[|] _]].
Qed.

(** The scan of [max] ends on a tuple of greatest count, whatever the
    comparison of the keys. *)
Lemma max_greatest_count (items : list (Z * BB)) :
  items ≠ [] →
  ∃ best, max Z.ltb key_lt items = inr best ∧ best ∈ items
          ∧ ∀ x, x ∈ items → (x.1 ≤ best.1)%Z.
Proof.
  destruct items as [|first rest]; [done | intros _].
  exists (scan (tuple_gt Z.ltb key_lt) first rest).
  split; [done |]. split; [apply scan_elem_of |].
  apply (scan_extremal (tuple_gt Z.ltb key_lt) (λ x y, (x.1 ≤ y.1)%Z)).
  - intros x. lia.
  - intros x y z. lia.
  - intros x y. unfold tuple_gt.
    destruct (decide (x.1 = y.1)); [lia |]. rewrite Z.ltb_lt. lia.
  - intros x y. unfold tuple_gt.
    destruct (decide (x.1 = y.1)); [lia |]. rewrite Z.ltb_ge. lia.
Qed.

(** The scan of [min] ends on a tuple of least count. *)
Lemma min_least_count (items : list (Z * BB)) :
  items ≠ [] →
  ∃ best, min Z.ltb key_lt items = inr best ∧ best ∈ items
          ∧ ∀ x, x ∈ items → (best.1 ≤ x.1)%Z.
Proof.
  destruct items as [|first rest]; [done | intros _].
  exists (scan (tuple_lt Z.ltb key_lt) first rest).
  split; [done |]. split; [apply scan_elem_of |].
  apply (scan_extremal (tuple_lt Z.ltb key_lt) (λ x y, (y.1 ≤ x.1)%Z)).
  - intros x. lia.
  - intros x y z. lia.
  - intros x y. unfold tuple_lt.
    destruct (decide (x.1 = y.1)); [lia |]. rewrite Z.ltb_lt. lia.
  - intros x y. unfold tuple_lt.
    destruct (decide (x.1 = y.1)); [lia |]. rewrite Z.ltb_ge. lia.
Qed.

(** X2: whatever the comparison of the keys, even one that is no order,
    the linker of a cage is a key of greatest count and its building
    block a key of least count: the keys are compared between equal
    counts only. *)
Theorem linker_and_building_block_by_count m :
  bb_counter m ≠ [] →
  ∃ lk bb n_lk n_bb,
    linker m = inr lk ∧ building_block m = inr bb
    ∧ (lk, n_lk) ∈ bb_counter m ∧ (bb, n_bb) ∈ bb_counter m
    ∧ ∀ k n, (k, n) ∈ bb_counter m → (n_bb ≤ n ≤ n_lk)%Z.
Proof.
  intros Hne.
  assert (zip_values_keys (bb_counter m) ≠ []) as Hzip
    by (by destruct (bb_counter m)).
  assert (∀ k n, (n, k) ∈ zip_values_keys (bb_counter m)
                 ↔ (k, n) ∈ bb_counter m) as Hin.
  { intros k n. unfold zip_values_keys. rewrite list_elem_of_fmap. split.
    - intros ([k' n'] & [= -> ->] & Hkn). exact Hkn.
    - intros Hkn. by exists (k, n). }
  destruct (max_greatest_count _ Hzip) as ([n_lk lk] & Hmax & Hlk & Hgreatest).
  destruct (min_least_count _ Hzip) as ([n_bb bb] & Hmin & Hbb & Hleast).
  exists lk, bb, n_lk, n_bb.
  unfold Exchange.linker, Exchange.building_block. rewrite Hmax, Hmin.
  split_and!; [done | done | by apply Hin | by apply Hin |].
  intros k n Hkn%Hin.
  specialize (Hgreatest _ Hkn). specialize (Hleast _ Hkn). simpl in *. lia.
Qed.

(** X3: exchanging the two parents changes nothing but the order: the
    cages built from [m2] and [m1] are those built from [m1] and [m2] in
    reverse, the populations have the same members, and the exchange
    raises the same either way. *)
Theorem bb_lk_exchange_parents_swap m1 m2 :
  constructions m2 m1
  = match constructions m1 m2 with
    | inr built => inr (reverse built)
    | inl ex => inl ex
    end
  ∧ match bb_lk_exchange m1 m2, bb_lk_exchange m2 m1 with
    | inr pop, inr pop' =>
        members pop = members pop' ∧ ga_tools pop = ga_tools pop'
    | inl ex, inl ex' => ex = ex'
    | _, _ => False
    end.
Proof.
  unfold Exchange.bb_lk_exchange, Exchange.constructions,
    Exchange.offspring_pairs, Exchange.linker, Exchange.building_block,
    zip_values_keys, max, min.
  destruct (bb_counter m1) as [|kv1 c1], (bb_counter m2) as [|kv2 c2];
    simpl; try done.
  split; [done |]. split; [| done].
  apply set_eq. intros o.
  rewrite !elem_of_union, !elem_of_singleton, !elem_of_empty. tauto.
Qed.
End ExchangeMore.

(** The counts in [cage_a], where the keys are numbers. *)
Lemma linker_and_building_block_by_count_witness :
  ∃ lk bb n_lk n_bb,
    linker bb_counter Nat.ltb cage_a = inr lk
    ∧ building_block bb_counter Nat.ltb cage_a = inr bb
    ∧ (lk, n_lk) ∈ bb_counter cage_a ∧ (bb, n_bb) ∈ bb_counter cage_a
    ∧ ∀ k n, (k, n) ∈ bb_counter cage_a → (n_bb ≤ n ≤ n_lk)%Z.
Proof.
  apply (linker_and_building_block_by_count bb_counter Nat.ltb cage_a).
  discriminate.
Defined.

(** The exchange of [cage_a], whose two counts differ, and a cage
    without building blocks. *)
Lemma bb_lk_exchange_raises_iff_empty_witness :
  (∀ key_lt' : nat → nat → bool,
     bb_lk_exchange bb_counter key_lt' () cage_a (mkCage [] 0)
     = bb_lk_exchange bb_counter Nat.ltb () cage_a (mkCage [] 0))
  ∧ (∀ ex,
       bb_lk_exchange bb_counter Nat.ltb () cage_a (mkCage [] 0) = inl ex
       ↔ (bb_counter cage_a = [] ∨ bb_counter (mkCage [] 0) = [])
         ∧ ex = ValueError "max() arg is an empty sequence")
  ∧ (∀ ex,
       bb_lk_exchange bb_counter Nat.ltb () cage_a (mkCage [] 0) = inl ex
       ↔ constructions bb_counter Nat.ltb cage_a (mkCage [] 0) = inl ex).
Proof.
  apply (bb_lk_exchange_raises_iff_empty bb_counter Nat.ltb () cage_a
           (mkCage [] 0)).
  - repeat constructor; set_solver.
  - constructor.
Defined.

(** ** More on the call operator *)

Section CallMore.
Context {Mol : Type} `{Countable Mol}.
Context {GATools Value Sel : Type}.
Variable env : Env Mol GATools Value Sel.
Variable self : Crossover Value.

Local Abbreviation state := (state Mol GATools Value).
Local Abbreviation event := (event Mol GATools Value).
Local Abbreviation body := (body env self).
Local Abbreviation loop := (loop env self).
Local Abbreviation call := (__call__ env self).
Local Abbreviation sample i :=
  (choice (funcs self) (weights self) (random_sample env i)
          (random_integer env i)).
Local Abbreviation debug_events names :=
  ((λ n, Logged (debug_retrieved_from_cache n) : event) <$> names).
Local Abbreviation named offspring :=
  (filter (λ s, truthy s) (mol_name env <$> __iter__ offspring)).
Local Abbreviation start population :=
  ({| offspring_pop := __init__ (ga_tools population);
      counter := ∅;
      trace := [] |} : state).

(** *** The log *)

Lemma debugs_debug_events (names : list string) :
  debugs (debug_events names) = names.
Proof.
  unfold debugs. induction names as [|n names IH]; [done |].
  simpl. f_equal. exact IH.
Qed.

(** The debug records of a population are the names of its named
    members, in the order of iteration. *)
Lemma log_cached_named (offspring : Population Mol GATools) (st : state) :
  log_cached env offspring st
  = {| offspring_pop := offspring_pop st;
       counter := counter st;
       trace := trace st ++ debug_events (named offspring) |}.
Proof.
  unfold log_cached. generalize (__iter__ offspring) as mols.
  intros mols. revert st.
  induction mols as [|o mols IH]; intros st; cbn [foldl].
  - destruct st. simpl. by rewrite app_nil_r.
  - rewrite IH, fmap_cons, filter_cons.
    destruct (truthy (mol_name env o)) eqn:Hname.
    + rewrite decide_True by done. simpl. by rewrite <- app_assoc.
    + rewrite decide_False by (simpl; tauto). done.
Qed.

(** What a turn adds to the log, however it ends: one info record, and
    the debug records of the offspring it got, if any. *)
Lemma body_logs i parents (st : state) :
  ∃ got,
    drawn (trace (flow_state (body i parents st)))
    = drawn (trace st) ++ [(i, parents)]
    ∧ infos (trace (flow_state (body i parents st)))
      = infos (trace st) ++ [(i, num_crossovers self)]
    ∧ returned (trace (flow_state (body i parents st)))
      = returned (trace st) ++ got
    ∧ debugs (trace (flow_state (body i parents st)))
      = debugs (trace st) ++ (got ≫= λ r, named r.2).
Proof.
  unfold Crossover.body.
  destruct (sample i) as [ex | fd].
  { exists []. unfold drawn, infos, returned, debugs. simpl.
    rewrite !omap_app. simpl. by rewrite !app_nil_r. }
  destruct (getattr env (name fd)) as [func |].
  2:{ exists []. unfold drawn, infos, returned, debugs. simpl.
      rewrite !omap_app. simpl. by rewrite !app_nil_r. }
  destruct (func parents (params fd)) as [ex | offspring].
  - exists []. destruct (is_Exception ex);
      unfold drawn, infos, returned, debugs; simpl;
      rewrite !omap_app; simpl; by rewrite !app_nil_r.
  - exists [(i, offspring)]. rewrite log_cached_named.
    pose proof (debugs_debug_events (named offspring)) as Hnames.
    unfold drawn, infos, returned, debugs in *.
    cbn [flow_state trace emit set_counter set_offspring_pop].
    rewrite !omap_app, Hnames. rewrite !omap_debug by done.
    simpl. by rewrite !app_nil_r.
Qed.

Lemma enumerate_fst {A} i (l : list A) : (enumerate i l).*1 = seq i (length l).
Proof.
  revert i. induction l as [|x l IH]; intros i; simpl; [done |].
  by rewrite IH.
Qed.

(** The log of the loop, however it ends. *)
Lemma loop_logs n i pool (st : state) :
  infos (trace st) = (λ d, (d.1, num_crossovers self)) <$> drawn (trace st)
  ∧ debugs (trace st) = (returned (trace st) ≫= λ r, named r.2) →
  infos (trace (flow_state (loop n i pool st)))
  = (λ d, (d.1, num_crossovers self))
      <$> drawn (trace (flow_state (loop n i pool st)))
  ∧ debugs (trace (flow_state (loop n i pool st)))
    = (returned (trace (flow_state (loop n i pool st))) ≫= λ r, named r.2).
Proof.
  apply (loop_preserves env self
           (λ st, infos (trace st)
                  = (λ d, (d.1, num_crossovers self)) <$> drawn (trace st)
                  ∧ debugs (trace st)
                    = (returned (trace st) ≫= λ r, named r.2))).
  clear. intros i parents st [Hinfos Hdebugs].
  destruct (body_logs i parents st) as (got & -> & -> & -> & ->).
  rewrite fmap_app, bind_app, Hinfos, Hdebugs. done.
Qed.

(** The plot comes last and is no record of the log. *)
Lemma plotted_last_not_logged (tr : list event) c path :
  infos (tr ++ [Plotted c path]) = infos tr
  ∧ debugs (tr ++ [Plotted c path]) = debugs tr.
Proof.
  unfold infos, debugs. rewrite !omap_app. simpl. by rewrite !app_nil_r.
Qed.

(** X4: however the call ends, [logger.info] has been called once for
    each tuple drawn, with the crossover numbers 1, 2, ... in order and
    with [num_crossovers] as the number at which to finish (also when the
    stream ends before); and [logger.debug] has been called once for each
    offspring with a non-empty name of each crossover that returned, in
    order: never for an offspring without a name, nor for a crossover
    that raised. *)
Theorem call_logs population path res (st : state) :
  call population path = (res, st) →
  infos (trace st)
  = (λ i, (i, num_crossovers self)) <$> seq 1 (length (drawn (trace st)))
  ∧ debugs (trace st) = (returned (trace st) ≫= λ r, named r.2).
Proof.
  intros Hcall.
  destruct (call_drawn _ _ _ _ _ _ Hcall) as ((items & _ & Hitems) & _).
  assert (infos (trace st)
          = (λ d, (d.1, num_crossovers self)) <$> drawn (trace st)
          ∧ debugs (trace st) = (returned (trace st) ≫= λ r, named r.2))
    as [Hinfos Hdebugs].
  { apply call_state in Hcall as (stop & st1 & Hst1 & Htr).
    pose proof (loop_logs stop 1 (select env population)
                  (start population)) as Hinv.
    rewrite <- Hst1 in Hinv.
    destruct Htr as [(_ & ->) | (_ & ->)]; [by apply Hinv |].
    destruct (plotted_last_unobserved (trace st1) (counter st) path)
      as (-> & _ & _ & -> & _).
    destruct (plotted_last_not_logged (trace st1) (counter st) path)
      as (-> & ->).
    by apply Hinv. }
  split; [| exact Hdebugs].
  rewrite Hinfos, Hitems, enumerate_length, <- enumerate_fst.
  by rewrite <- list_fmap_compose.
Qed.

(** *** Nothing to draw *)

(** X5: when no crossover is asked for, or the selection yields nothing
    (with a number of crossovers that [islice] accepts), the call returns an empty population and draws, samples, calls and
    logs nothing; all it does, with a [counter_path], is to plot a counter
    that has the members of the population as its keys, each with count
    zero. *)
Theorem call_with_nothing_to_draw population path :
  num_crossovers self = 0%Z
  ∨ ((0 ≤ num_crossovers self ≤ sys_maxsize)%Z
     ∧ next env (select env population) = None) →
  ∃ pop (st : state),
    call population path = (inr pop, st)
    ∧ members pop = ∅
    ∧ (path = EmptyString → trace st = [])
    ∧ (path ≠ EmptyString →
       ∃ c, trace st = [Plotted c path]
            ∧ dom c = members population
            ∧ ∀ m, m ∈ members population → c !! m = Some 0%Z).
Proof.
  intros Hnone.
  assert (islice_stop (num_crossovers self)
          = inr (Z.to_nat (num_crossovers self))) as Hstop.
  { destruct (islice_stop_inv (num_crossovers self))
      as [[_ ->] | [Hinvalid _]]; [done |].
    exfalso. apply Hinvalid.
    destruct Hnone as [-> | [? _]]; [by vm_compute | done]. }
  assert (loop (Z.to_nat (num_crossovers self)) 1 (select env population)
               (start population) = Next (start population)) as Hloop.
  { destruct Hnone as [-> | [_ Hnext]]; [done |].
    destruct (Z.to_nat (num_crossovers self)); [done |].
    simpl. by rewrite Hnext. }
  unfold __call__. rewrite Hstop, Hloop.
  eexists _, _. split; [reflexivity |].
  split.
  { destruct (truthy path); simpl; apply set_eq; intros m;
      rewrite elem_of_difference, elem_of_empty; tauto. }
  destruct path as [|a path]; simpl.
  - split; [done | by intros []].
  - split; [done |]. intros _. eexists. split; [reflexivity |].
    split.
    + apply set_eq. intros m.
      rewrite elem_of_dom, add_unselected_lookup, lookup_empty.
      destruct (decide (m ∈ members population)) as [Hm | Hm].
      * split; [done | by eexists].
      * split; [by intros [? [=]] | done].
    + intros m Hm. rewrite add_unselected_lookup, lookup_empty.
      by rewrite decide_True.
Qed.

(** *** How the call raises *)

(** X6: an exception leaves the call in one of four ways: [islice]
    refuses [num_crossovers], with a [ValueError], before anything is
    drawn; or, at the last tuple drawn, [np.random.choice] raised it, or
    the name sampled is no attribute (an [AttributeError]), or the
    crossover function raised it and it does not derive from
    [Exception].  Nothing is plotted then, whatever the [counter_path],
    and no error is logged for it: errors are logged for the exceptions
    that derive from [Exception] only. *)
Theorem call_raises_only population path ex (st : state) :
  call population path = (inl ex, st) →
  plotted (trace st) = []
  ∧ length (errors_logged (trace st))
    = length (filter (λ r, is_Exception r.2 = true) (raised (trace st)))
  ∧ ((¬ (0 ≤ num_crossovers self ≤ sys_maxsize)%Z
      ∧ (∃ msg, ex = ValueError msg) ∧ trace st = [])
     ∨ ((0 ≤ num_crossovers self ≤ sys_maxsize)%Z
        ∧ ∃ i parents,
            last (drawn (trace st)) = Some (i, parents)
            ∧ (sample i = inl ex
               ∨ (∃ fd, sample i = inr fd ∧ getattr env (name fd) = None
                        ∧ ex = AttributeError (name fd)
                        ∧ last (sampled (trace st)) = Some (i, fd))
               ∨ (∃ fd func,
                    sample i = inr fd ∧ getattr env (name fd) = Some func
                    ∧ func parents (params fd) = inl ex
                    ∧ is_Exception ex = false
                    ∧ last (raised (trace st)) = Some (i, ex))))).
Proof.
  intros Hcall.
  pose proof (call_logs_errors _ _ _ _ _ _ Hcall) as Herr.
  apply call_inv in Hcall
    as [(Hinvalid & [msg [= ->]] & ->)
       | [(Hvalid & ex' & Hloop & [= <-]) | (_ & st1 & _ & [=] & _)]].
  { split; [done |]. split; [done |]. left.
    split_and!; [done | by exists msg | done]. }
  pose proof (loop_plots_nothing env self (Z.to_nat (num_crossovers self)) 1
                (select env population) (start population) eq_refl) as Hplot.
  rewrite Hloop in Hplot. simpl in Hplot.
  split; [exact Hplot |]. split; [exact Herr |]. right. split; [done |].
  apply loop_Propagate in Hloop as (i & parents & st1 & _ & Hb);
    [| apply all_crossed_start].
  exists i, parents.
  apply body_Propagate in Hb
    as (_ & _ & -> & _ & _ & _ &
        [(Hfd & _)
        | [(fd & Hfd & Hattr & -> & -> & _)
          | (fd & func & Hfd & Hattr & Hres & Hex & _ & _ & ->)]]).
  - split; [apply last_snoc | by left].
  - split; [apply last_snoc |]. right. left. exists fd.
    split_and!; try done. apply last_snoc.
  - split; [apply last_snoc |]. right. right. exists fd, func.
    split_and!; try done. apply last_snoc.
Qed.

(** *** The counter that is plotted *)

Lemma Counter_update_dom xs (c : gmap Mol Z) :
  dom (Counter_update xs c) = dom c ∪ list_to_set xs.
Proof.
  unfold Counter_update. revert c.
  induction xs as [|x xs IH]; intros c; cbn [foldl].
  - rewrite list_to_set_nil. by rewrite (right_id_L ∅ (∪)).
  - rewrite IH, dom_insert_L, list_to_set_cons.
    apply set_eq. intros m. rewrite !elem_of_union. tauto.
Qed.

Lemma molecules_drawn_snoc (tr : list event) i ps :
  (⋃ (list_to_set <$> (drawn tr ++ [(i, ps)]).*2) : gset Mol)
  = ⋃ (list_to_set <$> (drawn tr).*2) ∪ list_to_set ps.
Proof.
  rewrite !fmap_app, union_list_app_L. simpl.
  by rewrite (right_id_L ∅ (∪)).
Qed.

(** The keys of the counter are the molecules drawn. *)
Lemma loop_counter_dom n i pool (st : state) :
  dom (counter st) = molecules_drawn (trace st) →
  dom (counter (flow_state (loop n i pool st)))
  = molecules_drawn (trace (flow_state (loop n i pool st))).
Proof.
  apply (loop_preserves env self
           (λ st, dom (counter st) = molecules_drawn (trace st))).
  clear. intros i parents st Hst. unfold molecules_drawn in *.
  destruct (body i parents st) as [st' | ex st'] eqn:Hb; simpl.
  - apply body_Next in Hb as (fd & func & _ & _ & -> & -> & _).
    by rewrite molecules_drawn_snoc, Counter_update_dom, Hst.
  - apply body_Propagate in Hb as (-> & _ & -> & _).
    by rewrite molecules_drawn_snoc, Counter_update_dom, Hst.
Qed.

Lemma add_unselected_dom (population : Population Mol GATools)
      (c : gmap Mol Z) :
  dom (add_unselected population c) = members population ∪ dom c.
Proof.
  apply set_eq. intros m.
  rewrite elem_of_union, !elem_of_dom, add_unselected_lookup.
  destruct (c !! m) as [v |].
  - split; [by right | by eexists].
  - destruct (decide (m ∈ members population)) as [Hm | Hm].
    + split; [by left | by eexists].
    + split; [by intros [? [=]] | by intros [? | [? [=]]]].
Qed.

(** X7: the counter that a returning call plots has as its keys the
    members of the population and the molecules of the tuples drawn, and
    no other; each key has as its count the number of times the molecule
    occurs in the tuples drawn. *)
Theorem call_plots_selection_counts population path pop (st : state) :
  call population path = (inr pop, st) → path ≠ EmptyString →
  ∃ c, plotted (trace st) = [(c, path)]
       ∧ dom c = members population ∪ molecules_drawn (trace st)
       ∧ ∀ m, m ∈ dom c →
              c !! m = Some (Z.of_nat (times_selected m (trace st))).
Proof.
  intros Hcall Hpath.
  pose proof (λ m, call_counter_get _ _ _ _ _ _ m Hcall) as Hcount.
  pose proof (loop_plots_nothing env self (Z.to_nat (num_crossovers self)) 1
                (select env population) (start population) eq_refl) as Hplot.
  pose proof (loop_counter_dom (Z.to_nat (num_crossovers self)) 1
                (select env population) (start population)) as Hdom.
  apply call_inv in Hcall
    as [(_ & [msg [=]] & _)
       | [(_ & ex & _ & [=]) | (_ & st1 & Hloop & _ & _ & Htr)]].
  rewrite Hloop in Hplot, Hdom. simpl in Hplot, Hdom.
  destruct Htr as [(Hfalse & _) | (_ & Hc & Htr)];
    [by destruct path |].
  exists (counter st). split_and!.
  - rewrite Htr. unfold plotted in *. by rewrite omap_app, Hplot.
  - rewrite Hc, add_unselected_dom, Hdom.
    + rewrite Htr. unfold molecules_drawn.
      by destruct (plotted_last_unobserved (trace st1) (counter st) path)
        as (-> & _).
    + unfold molecules_drawn. simpl. apply dom_empty_L.
  - intros m [v Hv]%elem_of_dom. rewrite Hv. f_equal.
    specialize (Hcount m). unfold Counter_get in Hcount.
    by rewrite Hv in Hcount.
Qed.

(** *** The sum of the counts *)

Lemma Counter_total_insert (c : gmap Mol Z) x v :
  Counter_total (<[x := v]> c) = (Counter_total c - Counter_get c x + v)%Z.
Proof.
  unfold Counter_total, Counter_get.
  assert (∀ (d : gmap Mol Z) w, d !! x = None →
            map_fold (λ _ v acc, (v + acc)%Z) 0%Z (<[x := w]> d)
            = (w + map_fold (λ _ v acc, (v + acc)%Z) 0%Z d)%Z) as Hfresh.
  { intros d w Hd. apply (map_fold_insert_L (λ _ v acc, (v + acc)%Z));
      [intros; lia | done]. }
  destruct (c !! x) as [w |] eqn:Hx; simpl.
  - rewrite <- (insert_delete_eq c x v).
    rewrite <- (insert_id c x w Hx) at 2.
    rewrite <- (insert_delete_eq c x w).
    rewrite !Hfresh by apply lookup_delete_eq. lia.
  - rewrite Hfresh by done. lia.
Qed.

Lemma Counter_total_update xs (c : gmap Mol Z) :
  Counter_total (Counter_update xs c)
  = (Counter_total c + Z.of_nat (length xs))%Z.
Proof.
  unfold Counter_update. revert c.
  induction xs as [|x xs IH]; intros c; cbn [foldl length]; [lia |].
  rewrite IH, Counter_total_insert. lia.
Qed.

Lemma Counter_total_add_unselected (population : Population Mol GATools)
      (c : gmap Mol Z) :
  Counter_total (add_unselected population c) = Counter_total c.
Proof.
  unfold add_unselected. generalize (__iter__ population) as mols.
  intros mols. revert c.
  induction mols as [|m mols IH]; intros c; cbn [foldl]; [done |].
  rewrite IH. destruct (c !! m) as [v |] eqn:Hm; [done |].
  unfold Counter_update_mapping. cbn [foldl fst snd].
  rewrite Counter_total_insert. lia.
Qed.

(** The counts add up to the number of parents drawn. *)
Lemma loop_counter_total n i pool (st : state) :
  Counter_total (counter st) = Z.of_nat (parents_drawn (trace st)) →
  Counter_total (counter (flow_state (loop n i pool st)))
  = Z.of_nat (parents_drawn (trace (flow_state (loop n i pool st)))).
Proof.
  apply (loop_preserves env self
           (λ st, Counter_total (counter st)
                  = Z.of_nat (parents_drawn (trace st)))).
  clear. intros i parents st Hst. unfold parents_drawn in *.
  destruct (body i parents st) as [st' | ex st'] eqn:Hb; simpl.
  - apply body_Next in Hb as (fd & func & _ & _ & -> & -> & _).
    rewrite !fmap_app, sum_list_with_app, Counter_total_update, Hst.
    simpl. unfold id. lia.
  - apply body_Propagate in Hb as (-> & _ & -> & _).
    rewrite !fmap_app, sum_list_with_app, Counter_total_update, Hst.
    simpl. unfold id. lia.
Qed.

(** X8: the counts of the counter that a returning call plots add up to
    the number of parents drawn, the parents of the crossovers that
    failed included: two for each pair. *)
Theorem call_plots_every_parent population path pop (st : state) :
  call population path = (inr pop, st) → path ≠ EmptyString →
  ∃ c, plotted (trace st) = [(c, path)]
       ∧ Counter_total c = Z.of_nat (parents_drawn (trace st))
       ∧ ((∀ i ps, (i, ps) ∈ drawn (trace st) → length ps = 2) →
          Counter_total c = Z.of_nat (2 * length (drawn (trace st)))).
Proof.
  intros Hcall Hpath.
  pose proof (loop_plots_nothing env self (Z.to_nat (num_crossovers self)) 1
                (select env population) (start population) eq_refl) as Hplot.
  pose proof (loop_counter_total (Z.to_nat (num_crossovers self)) 1
                (select env population) (start population)) as Htotal.
  apply call_inv in Hcall
    as [(_ & [msg [=]] & _)
       | [(_ & ex & _ & [=]) | (_ & st1 & Hloop & _ & _ & Htr)]].
  rewrite Hloop in Hplot, Htotal. simpl in Hplot, Htotal.
  destruct Htr as [(Hfalse & _) | (_ & Hc & Htr)];
    [by destruct path |].
  assert (Counter_total (counter st) = Z.of_nat (parents_drawn (trace st)))
    as Hsum.
  { rewrite Htr. unfold parents_drawn.
    destruct (plotted_last_unobserved (trace st1) (counter st) path)
      as (-> & _).
    rewrite Hc, Counter_total_add_unselected. by apply Htotal. }
  exists (counter st). split_and!.
  - rewrite Htr. unfold plotted in *. by rewrite omap_app, Hplot.
  - exact Hsum.
  - intros Hpairs. rewrite Hsum. f_equal. unfold parents_drawn.
    induction (drawn (trace st)) as [|[i ps] ds IH]; [done |].
    rewrite !fmap_cons.
    change (length ps + sum_list (length <$> ds.*2) = 2 * S (length ds)).
    rewrite IH by (intros j qs Hin; eapply Hpairs; by right).
    rewrite (Hpairs i ps) by left. lia.
Qed.
End CallMore.

(** ** The call operator of the class as it is *)

Section ClassFacts.
Context {BB Topology GATools Value Sel : Type}.
Context `{Countable BB} `{Countable Topology}.
Variable bb_counter : Cage BB Topology → list (BB * Z).
Variable key_lt : BB → BB → bool.
Variable empty_tools : GATools.
Variable as_cage : Value → option (Cage BB Topology).
Variable env : Env (Cage BB Topology) GATools Value Sel.
Variable self : Crossover Value.

Local Abbreviation state := (state (Cage BB Topology) GATools Value).
Local Abbreviation call := (__call__ env self).
Local Abbreviation sample i :=
  (choice (funcs self) (weights self) (random_sample env i)
          (random_integer env i)).
Local Abbreviation exchange_method :=
  (bb_lk_exchange_method bb_counter key_lt empty_tools as_cage).
Local Abbreviation getattr_class :=
  (Crossover_getattr bb_counter key_lt empty_tools as_cage).
Local Abbreviation bind_arguments :=
  (bind_arguments (BB := BB) (Topology := Topology) (Value := Value)).
Local Abbreviation read_cage := (read_cage as_cage).
Local Abbreviation start population :=
  ({| offspring_pop := __init__ (ga_tools population);
      counter := ∅;
      trace := [] |} : state).

(** The functions of [funcs] are named after attributes that the module
    gives an instance, and [getattr] finds them as such. *)
Hypothesis class_attributes :
  ∀ fd, fd ∈ funcs self →
    is_Some (getattr_class (name fd))
    ∧ getattr env (name fd) = getattr_class (name fd).

(** What is looked up for a sampled [FunctionData] is the exchange, or
    an attribute that is no function. *)
Lemma class_sampled j fd :
  sample j = inr fd →
  ∃ func,
    getattr env (name fd) = Some func
    ∧ ((name fd = "bb_lk_exchange" ∧ func = exchange_method)
       ∨ (name fd ≠ "bb_lk_exchange" ∧ func = not_callable)).
Proof.
  intros [[func Hclass] ->]%choice_elem_of%class_attributes.
  exists func. split; [done |].
  unfold Crossover_getattr in Hclass.
  destruct (decide (name fd = "bb_lk_exchange")) as [Hname | Hname].
  - left. split; [done | congruence].
  - right. split; [done |]. destruct (decide _); congruence.
Qed.

(** What the attribute called raises derives from [Exception]. *)
Lemma class_raises_kind j fd func args ex :
  sample j = inr fd → getattr env (name fd) = Some func →
  func args (params fd) = inl ex →
  ∃ msg, ex = ValueError msg ∨ ex = TypeError msg ∨ ex = AttributeError msg.
Proof.
  intros Hfd Hattr Hres.
  destruct (class_sampled _ _ Hfd) as (func' & Hattr' & Hkind).
  assert (func' = func) as -> by congruence.
  destruct Hkind as [[_ ->] | [_ ->]].
  - by eapply bb_lk_exchange_method_raises_kind.
  - injection Hres as <-. eexists. by right; left.
Qed.

(** Only the exchange returns. *)
Lemma class_returns_inv j fd func args offspring :
  sample j = inr fd → getattr env (name fd) = Some func →
  func args (params fd) = inr offspring →
  exchange_method args (params fd) = inr offspring.
Proof.
  intros Hfd Hattr Hres.
  destruct (class_sampled _ _ Hfd) as (func' & Hattr' & Hkind).
  assert (func' = func) as -> by congruence.
  by destruct Hkind as [[_ ->] | [_ ->]].
Qed.

(** Once a function is sampled the loop goes on. *)
Lemma class_goes_on j ps fd :
  sample j = inr fd → goes_on env self j ps.
Proof.
  intros Hfd. destruct (class_sampled _ _ Hfd) as (func & Hattr & _).
  exists fd, func. split_and!; [done | done |]. intros ex Hres.
  by destruct (class_raises_kind _ _ _ _ _ Hfd Hattr Hres)
    as (msg & [-> | [-> | ->]]).
Qed.

(** Two parents and no keyword are bound as they come. *)
Lemma bind_arguments_pair m1 m2 :
  bind_arguments [m1; m2] ∅ = inr (Positional m1, Positional m2).
Proof.
  unfold Exchange.bind_arguments.
  destruct (decide (dom _ ⊆ _)) as [_ | Hdom];
    [| exfalso; apply Hdom; set_solver].
  rewrite !lookup_empty. simpl.
  destruct (decide (2 < 2)); [lia | done].
Qed.

(** Without keywords, anything but two parents is a [TypeError]. *)
Lemma exchange_method_not_a_pair args :
  length args ≠ 2 → ∃ msg, exchange_method args ∅ = inl (TypeError msg).
Proof.
  intros Hlen. unfold bb_lk_exchange_method.
  destruct (bind_arguments args ∅) as [ex | [a1 a2]] eqn:Hbind.
  - apply bind_arguments_raises in Hbind as [msg ->]. by exists msg.
  - apply bind_arguments_positional in Hbind as (m1 & m2 & -> & _). done.
Qed.

(** A member of what the exchange returns joins the linker of one parent
    to the building block of the other, in the topology of a parent. *)
Lemma exchange_member m1 m2 offspring o :
  bb_lk_exchange bb_counter key_lt empty_tools m1 m2 = inr offspring →
  o ∈ members offspring →
  (crosses bb_counter key_lt m1 m2 o ∨ crosses bb_counter key_lt m2 m1 o)
  ∧ (topology o = topology m1 ∨ topology o = topology m2).
Proof.
  unfold bb_lk_exchange.
  destruct (offspring_pairs bb_counter key_lt m1 m2) as [|pairs] eqn:Hpairs;
    [done |].
  apply offspring_pairs_inv in Hpairs
    as (c1_lk & c1_bb & c2_lk & c2_bb & H1 & H2 & H3 & H4 & ->).
  simpl. intros [= <-]. simpl.
  rewrite !elem_of_union, !elem_of_singleton, elem_of_empty.
  unfold crosses. rewrite H1, H2, H3, H4. intros Ho.
  assert (o = Cage_init (c1_lk, c2_bb) (topology m1)
          ∨ o = Cage_init (c2_lk, c1_bb) (topology m1)
          ∨ o = Cage_init (c1_lk, c2_bb) (topology m2)
          ∨ o = Cage_init (c2_lk, c1_bb) (topology m2))
    as [-> | [-> | [-> | ->]]] by tauto; simpl;
    (split; [| by auto]);
    [left | right | left | right]; by eexists _, _.
Qed.

(** X9: with functions named after the attributes that the module gives
    an instance, a number of crossovers that [islice] accepts and
    arguments that [np.random.choice] accepts, the call returns whatever
    the selection yields.  Every tuple of the pool is drawn; each
    crossover returns or raises, and what it raises is a [ValueError], a
    [TypeError] or an [AttributeError], which is logged.  A name that is
    no function, and a tuple that is no pair when no parent is passed by
    keyword, cost one crossover with a [TypeError]; a first parent
    without building blocks costs one with the [ValueError] of [max]. *)
Theorem call_of_class_returns population path :
  (0 ≤ num_crossovers self ≤ sys_maxsize)%Z →
  valid_args (length (funcs self)) (weights self) →
  (∀ i, (0 <= random_sample env i)%Q ∧ (random_sample env i < 1)%Q) →
  ∃ pop (st : state),
    call population path = (inr pop, st)
    ∧ drawn (trace st) = enumerate 1 (parent_pool env self population)
    ∧ length (returned (trace st)) + length (raised (trace st))
      = length (drawn (trace st))
    ∧ length (errors_logged (trace st)) = length (raised (trace st))
    ∧ (∀ i ex, (i, ex) ∈ raised (trace st) →
         ∃ msg, ex = ValueError msg ∨ ex = TypeError msg
                ∨ ex = AttributeError msg)
    ∧ (∀ i parents fd,
         (i, parents) ∈ drawn (trace st) → sample i = inr fd →
         (name fd ≠ "bb_lk_exchange"
          ∨ (params fd = ∅ ∧ length parents ≠ 2)) →
         ∃ msg, (i, TypeError msg) ∈ raised (trace st))
    ∧ (∀ i m1 m2 fd,
         (i, [m1; m2]) ∈ drawn (trace st) → sample i = inr fd →
         name fd = "bb_lk_exchange" → params fd = ∅ →
         bb_counter m1 = [] →
         (i, ValueError "max() arg is an empty sequence")
         ∈ raised (trace st)).
Proof.
  intros Hstop Hvalid Hunit.
  assert (∀ j, ∃ fd, sample j = inr fd) as Hcfg.
  { intros j. destruct (Hunit j) as [Hu0 Hu1].
    destruct (choice_succeeds (funcs self) (weights self)
                (random_sample env j) (random_integer env j)
                Hvalid Hu0 Hu1) as (fd & Hfd & _).
    by exists fd. }
  destruct (call population path) as [res st] eqn:Hcall.
  destruct (call_returns _ _ _ _ _ _ Hcall Hstop) as [pop ->].
  { intros i ps _. destruct (Hcfg i) as [fd Hfd]. by eapply class_goes_on. }
  exists pop, st. split; [done |].
  destruct (call_drawn _ _ _ _ _ _ Hcall) as (_ & Hdrawn).
  destruct (call_Next_counts _ _ _ _ _ _ Hcall) as (_ & _ & Hn & He & _).
  split_and!; [by apply (Hdrawn pop) | done | done | | |].
  - intros i ex Hraised.
    destruct (call_raised_inv _ _ _ _ _ _ _ _ Hcall Hraised)
      as (parents & fd & func & _ & Hfd & Hattr & Hres).
    by eapply class_raises_kind.
  - intros i parents fd Hd Hfd Hwhy.
    destruct (class_sampled _ _ Hfd) as (func & Hattr & Hkind).
    destruct (call_crossed_inv _ _ _ _ _ _ _ _ _ _ Hcall Hd Hfd Hattr)
      as (_ & _ & Hout).
    destruct Hkind as [[Hname ->] | [Hname ->]].
    + destruct Hwhy as [Hne | [Hparams Hlen]]; [done |].
      destruct (exchange_method_not_a_pair parents Hlen) as [msg Hres].
      rewrite Hparams, Hres in Hout. exists msg. by destruct Hout.
    + eexists. by destruct Hout.
  - intros i m1 m2 fd Hd Hfd Hname Hparams Hempty.
    destruct (class_sampled _ _ Hfd) as (func & Hattr & Hkind).
    destruct (call_crossed_inv _ _ _ _ _ _ _ _ _ _ Hcall Hd Hfd Hattr)
      as (_ & _ & Hout).
    destruct Hkind as [[_ ->] | [Hne _]]; [| done].
    rewrite Hparams in Hout.
    assert (exchange_method [m1; m2] ∅
            = inl (ValueError "max() arg is an empty sequence")) as Hres.
    { unfold bb_lk_exchange_method. rewrite bind_arguments_pair. simpl.
      unfold bb_lk_exchange, offspring_pairs, linker, max.
      by rewrite Hempty. }
    rewrite Hres in Hout. by destruct Hout.
Qed.

(** X10: with functions named after the attributes that the module
    gives an instance, every molecule of the population returned was
    made by the exchange in the crossover of a tuple drawn, from the two
    cages its parameters were bound to: of the linker of one and the
    building block of the other, in the topology of one of them; the two
    cages are the tuple drawn when the function has no parameters; and
    the molecule is no member of the population passed in. *)
Theorem call_of_class_returns_exchanges
        (population pop : Population (Cage BB Topology) GATools)
        (path : string) (st : state) :
  call population path = (inr pop, st) →
  ∀ o, o ∈ members pop →
       (o ∉ members population)
       ∧ (∃ i parents fd a1 a2 m1 m2,
            (i, parents) ∈ drawn (trace st) ∧ sample i = inr fd
            ∧ name fd = "bb_lk_exchange"
            ∧ bind_arguments parents (params fd) = inr (a1, a2)
            ∧ read_cage a1 = inr m1 ∧ read_cage a2 = inr m2
            ∧ (crosses bb_counter key_lt m1 m2 o
               ∨ crosses bb_counter key_lt m2 m1 o)
            ∧ (topology o = topology m1 ∨ topology o = topology m2)
            ∧ (params fd = ∅ → parents = [m1; m2])).
Proof.
  intros Hcall o Ho.
  assert (members pop = collected (trace st) ∖ members population) as Hpop.
  { pose proof Hcall as Hcall'.
    apply call_inv in Hcall'
      as [(_ & [msg [=]] & _)
         | [(_ & ex & _ & [=]) | (_ & st1 & Hloop & [= ->] & _ & Htr)]].
    pose proof (loop_collects env self (Z.to_nat (num_crossovers self)) 1
                  (select env population) (start population) eq_refl) as Hc.
    rewrite Hloop in Hc. simpl in Hc.
    assert (collected (trace st) = collected (trace st1)) as ->.
    { destruct Htr as [(_ & _ & ->) | (_ & _ & ->)]; [done |].
      apply plotted_last_unobserved. }
    simpl. by rewrite Hc. }
  rewrite Hpop in Ho. apply elem_of_difference in Ho as [Ho Hnew].
  split; [exact Hnew |].
  unfold collected in Ho.
  apply elem_of_union_list in Ho as (X & HX & HoX).
  apply list_elem_of_fmap in HX as ([i offspring] & -> & Hret).
  destruct (call_returned_inv _ _ _ _ _ _ _ _ Hcall Hret)
    as (parents & fd & func & Hd & Hfd & Hattr & Hres).
  assert (name fd = "bb_lk_exchange") as Hname.
  { destruct (class_sampled _ _ Hfd) as (func' & Hattr' & Hkind).
    assert (func' = func) as -> by congruence.
    by destruct Hkind as [[? _] | [_ ->]]. }
  apply (class_returns_inv _ _ _ _ _ Hfd Hattr) in Hres.
  apply bb_lk_exchange_method_returns in Hres
    as (a1 & a2 & m1 & m2 & Hbind & H1 & H2 & Hex).
  exists i, parents, fd, a1, a2, m1, m2.
  destruct (exchange_member _ _ _ _ Hex HoX) as [Hcross Htop].
  split_and!; try done.
  intros Hparams. rewrite Hparams in Hbind.
  apply bind_arguments_positional in Hbind as (p1 & p2 & -> & -> & ->).
  unfold Exchange.read_cage, ret in H1, H2. congruence.
Qed.
End ClassFacts.

(** *** The further properties on the concrete runs *)

Abbreviation class_env := (env_class pool_class half).
Abbreviation class_population := (returned_population run_class).
Abbreviation class_state := (run_class.2).
Abbreviation keyword_env := (env_class pool_keyword variates_keyword).
Abbreviation keyword_population := (returned_population run_keyword).
Abbreviation keyword_state := (run_keyword.2).

(** The run of the class returns: what it returns is
    [class_population]. *)
Lemma run_class_eq :
  __call__ class_env crossover_class parents "class.png"
  = (inr class_population, class_state).
Proof.
  assert ((if run_class.1 is inr _ then true else false) = true) as Hret
    by (vm_compute; reflexivity).
  unfold returned_population.
  change (__call__ class_env crossover_class parents "class.png")
    with run_class.
  destruct run_class as [[ex | pop] st]; simpl in *; [discriminate | reflexivity].
Qed.

(** So does the run with a parent passed by keyword. *)
Lemma run_keyword_eq :
  __call__ keyword_env crossover_keyword parents EmptyString
  = (inr keyword_population, keyword_state).
Proof.
  assert ((if run_keyword.1 is inr _ then true else false) = true) as Hret
    by (vm_compute; reflexivity).
  unfold returned_population.
  change (__call__ keyword_env crossover_keyword parents EmptyString)
    with run_keyword.
  destruct run_keyword as [[ex | pop] st]; simpl in *;
    [discriminate | reflexivity].
Qed.

(** The run with a missing attribute raises. *)
Lemma run_missing_eq :
  __call__ class_env crossover_missing parents "class.png"
  = (inl (AttributeError "missing"), run_missing.2).
Proof.
  assert (run_missing.1 = inl (AttributeError "missing")) as Hraise
    by (vm_compute; reflexivity).
  change (__call__ class_env crossover_missing parents "class.png")
    with run_missing.
  rewrite <- Hraise. apply surjective_pairing.
Qed.

Example run_class_raised :
  raised (trace class_state)
  = [(2, TypeError "bb_lk_exchange() missing required positional arguments");
     (3, ValueError "max() arg is an empty sequence")].
Proof. vm_compute. reflexivity. Qed.

Example run_class_debugs :
  debugs (trace class_state) = ["cached"; "cached"; "cached"].
Proof. vm_compute. reflexivity. Qed.

(** With [cage_c] passed by keyword a lone parent is crossed with it, a
    pair is one parent too many, and the attribute [funcs] is no
    function. *)
Example run_keyword_returned :
  elements (members keyword_population)
  = [Cage_init (30, 2) 0; Cage_init (30, 2) 1;
     Cage_init (20, 1) 0; Cage_init (20, 1) 1].
Proof. vm_compute. reflexivity. Qed.

Example run_keyword_raised :
  raised (trace keyword_state)
  = [(2, TypeError "bb_lk_exchange() got multiple values for argument");
     (3, TypeError "object is not callable")].
Proof. vm_compute. reflexivity. Qed.

(** A negative number of crossovers ends the call at once. *)
Example run_negative_raises :
  run_negative.1
  = inl (ValueError "Stop argument for islice() must be None or an integer: 0 <= x <= sys.maxsize.")
  ∧ trace run_negative.2 = [].
Proof. split; vm_compute; reflexivity. Qed.

(** With a negative number of crossovers the call raises also when the
    selection yields nothing. *)
Example run_negative_empty_raises :
  next (env_class [] half) (select (env_class [] half) parents) = None
  ∧ ∃ msg, run_negative_empty.1 = inl (ValueError msg).
Proof. split; [reflexivity |]. eexists. vm_compute. reflexivity. Qed.

(** An exception that derives from [Exception] is caught at the first
    tuple and the second is drawn; there the name sampled is no
    attribute, and the [AttributeError] leaves the call. *)
Example run_missing_failing_raises :
  run_missing_failing.1 = inl (AttributeError "missing")
  ∧ raised (trace run_missing_failing.2) = [(1, Exception "no offspring")]
  ∧ errors_logged (trace run_missing_failing.2)
    = [("failing", [EmptyString; EmptyString])]
  ∧ drawn (trace run_missing_failing.2)
    = [(1, [cage_a; cage_b]); (2, [cage_a; cage_c])].
Proof. split_and!; vm_compute; reflexivity. Qed.

(** C8, as stated, fails on a call that an exception leaves: the run
    with a missing attribute has a [counter_path] and plots nothing. *)
Lemma call_missing_plots_nothing :
  run_missing
  = __call__ class_env crossover_missing parents "class.png"
  ∧ "class.png" ≠ EmptyString
  ∧ run_missing.1 = inl (AttributeError "missing")
  ∧ plotted (trace run_missing.2) = []
  ∧ ¬ ∃ c, plotted (trace run_missing.2) = [(c, "class.png")].
Proof.
  assert (plotted (trace run_missing.2) = []) as Hplot
    by (vm_compute; reflexivity).
  split_and!; [reflexivity | discriminate | by vm_compute | exact Hplot |].
  rewrite Hplot. by intros [c [=]].
Qed.

(** The log of the run of the class. *)
Lemma call_logs_witness :
  infos (trace class_state)
  = (λ i, (i, num_crossovers crossover_class))
      <$> seq 1 (length (drawn (trace class_state)))
  ∧ debugs (trace class_state)
    = (returned (trace class_state)
         ≫= λ r, filter (λ s, truthy s)
                        (mol_name class_env <$> __iter__ r.2)).
Proof.
  apply (call_logs class_env crossover_class parents "class.png"
           run_class.1 run_class.2).
  exact (surjective_pairing run_class).
Defined.

(** A selection that yields nothing. *)
Lemma call_with_nothing_to_draw_witness :
  ∃ pop st,
    __call__ (env_class [] half) crossover_class parents "class.png"
    = (inr pop, st)
    ∧ members pop = ∅
    ∧ ("class.png" = EmptyString → trace st = [])
    ∧ ("class.png" ≠ EmptyString →
       ∃ c, trace st = [Plotted c "class.png"]
            ∧ dom c = members parents
            ∧ ∀ m, m ∈ members parents → c !! m = Some 0%Z).
Proof.
  apply (call_with_nothing_to_draw (env_class [] half) crossover_class
           parents "class.png").
  right. split; [by vm_compute | reflexivity].
Defined.

(** The run with a missing attribute. *)
Lemma call_raises_only_witness :
  plotted (trace run_missing.2) = []
  ∧ length (errors_logged (trace run_missing.2))
    = length (filter (λ r, is_Exception r.2 = true)
                     (raised (trace run_missing.2)))
  ∧ ((¬ (0 ≤ num_crossovers crossover_missing ≤ sys_maxsize)%Z
      ∧ (∃ msg, AttributeError "missing" = ValueError msg)
      ∧ trace run_missing.2 = [])
     ∨ ((0 ≤ num_crossovers crossover_missing ≤ sys_maxsize)%Z
        ∧ ∃ i ps,
            last (drawn (trace run_missing.2)) = Some (i, ps)
            ∧ (choice (funcs crossover_missing) (weights crossover_missing)
                      (random_sample class_env i) (random_integer class_env i)
               = inl (AttributeError "missing")
               ∨ (∃ fd,
                    choice (funcs crossover_missing)
                           (weights crossover_missing)
                           (random_sample class_env i)
                           (random_integer class_env i) = inr fd
                    ∧ getattr class_env (name fd) = None
                    ∧ AttributeError "missing" = AttributeError (name fd)
                    ∧ last (sampled (trace run_missing.2)) = Some (i, fd))
               ∨ (∃ fd func,
                    choice (funcs crossover_missing)
                           (weights crossover_missing)
                           (random_sample class_env i)
                           (random_integer class_env i) = inr fd
                    ∧ getattr class_env (name fd) = Some func
                    ∧ func ps (params fd) = inl (AttributeError "missing")
                    ∧ is_Exception (AttributeError "missing") = false
                    ∧ last (raised (trace run_missing.2))
                      = Some (i, AttributeError "missing"))))).
Proof.
  apply (call_raises_only class_env crossover_missing Fixture.parents
           "class.png").
  exact run_missing_eq.
Defined.

(** The counter plotted by the run of the class. *)
Lemma call_plots_selection_counts_witness :
  ∃ c, plotted (trace class_state) = [(c, "class.png")]
       ∧ dom c = members parents ∪ molecules_drawn (trace class_state)
       ∧ ∀ m, m ∈ dom c →
              c !! m = Some (Z.of_nat (times_selected m (trace class_state))).
Proof.
  apply (call_plots_selection_counts class_env crossover_class parents
           "class.png" class_population).
  - exact run_class_eq.
  - discriminate.
Defined.

(** The sum of the counts plotted by the run of the class. *)
Lemma call_plots_every_parent_witness :
  ∃ c, plotted (trace class_state) = [(c, "class.png")]
       ∧ Counter_total c = Z.of_nat (parents_drawn (trace class_state))
       ∧ ((∀ i ps, (i, ps) ∈ drawn (trace class_state) → length ps = 2) →
          Counter_total c
          = Z.of_nat (2 * length (drawn (trace class_state)))).
Proof.
  apply (call_plots_every_parent class_env crossover_class parents
           "class.png" class_population).
  - exact run_class_eq.
  - discriminate.
Defined.

(** The functions of the run with a keyword are attributes of the
    class, and its weights, a little short of one, are accepted. *)
Lemma crossover_keyword_attributes :
  ∀ fd, fd ∈ funcs crossover_keyword →
    is_Some (getattr_class (name fd))
    ∧ getattr keyword_env (name fd) = getattr_class (name fd).
Proof.
  intros fd [-> | [-> | []%elem_of_nil]%elem_of_cons]%elem_of_cons;
    (split; [by eexists | reflexivity]).
Qed.

Lemma crossover_keyword_valid_args :
  valid_args (length (funcs crossover_keyword)) (weights crossover_keyword).
Proof.
  split; [discriminate |]. split; [reflexivity |]. split.
  - repeat constructor; discriminate.
  - by vm_compute.
Qed.

Lemma variates_keyword_unit i :
  (0 <= random_sample keyword_env i)%Q ∧ (random_sample keyword_env i < 1)%Q.
Proof.
  simpl. unfold variates_keyword.
  destruct (i =? 3); split; [discriminate | reflexivity
                            | discriminate | reflexivity].
Qed.

(** The class on a lone parent with a second one passed by keyword, on
    a pair with it, and on an attribute that is no function. *)
Lemma call_of_class_returns_witness :
  ∃ pop st,
    __call__ keyword_env crossover_keyword parents EmptyString
    = (inr pop, st)
    ∧ drawn (trace st)
      = enumerate 1 (parent_pool keyword_env crossover_keyword parents)
    ∧ length (returned (trace st)) + length (raised (trace st))
      = length (drawn (trace st))
    ∧ length (errors_logged (trace st)) = length (raised (trace st))
    ∧ (∀ i ex, (i, ex) ∈ raised (trace st) →
         ∃ msg, ex = ValueError msg ∨ ex = TypeError msg
                ∨ ex = AttributeError msg)
    ∧ (∀ i ps fd,
         (i, ps) ∈ drawn (trace st) →
         choice (funcs crossover_keyword) (weights crossover_keyword)
                (random_sample keyword_env i) (random_integer keyword_env i)
         = inr fd →
         (name fd ≠ "bb_lk_exchange" ∨ (params fd = ∅ ∧ length ps ≠ 2)) →
         ∃ msg, (i, TypeError msg) ∈ raised (trace st))
    ∧ (∀ i m1 m2 fd,
         (i, [m1; m2]) ∈ drawn (trace st) →
         choice (funcs crossover_keyword) (weights crossover_keyword)
                (random_sample keyword_env i) (random_integer keyword_env i)
         = inr fd →
         name fd = "bb_lk_exchange" → params fd = ∅ →
         bb_counter m1 = [] →
         (i, ValueError "max() arg is an empty sequence")
         ∈ raised (trace st)).
Proof.
  apply (call_of_class_returns bb_counter Nat.ltb () as_cage keyword_env
           crossover_keyword crossover_keyword_attributes).
  - by vm_compute.
  - exact crossover_keyword_valid_args.
  - exact variates_keyword_unit.
Defined.

(** A cage returned by the run with a keyword: made of the linker of
    [cage_b], which was drawn, and the building block of [cage_c], which
    was not. *)
Lemma run_keyword_returns_exchange :
  Cage_init (20, 1) 1 ∈ members keyword_population.
Proof. refine (bool_decide_unpack _ _). vm_compute. exact I. Qed.

Lemma call_of_class_returns_exchanges_witness :
  (Cage_init (20, 1) 1 ∉ members parents)
  ∧ (∃ i ps fd a1 a2 m1 m2,
       (i, ps) ∈ drawn (trace keyword_state)
       ∧ choice (funcs crossover_keyword) (weights crossover_keyword)
                (random_sample keyword_env i) (random_integer keyword_env i)
         = inr fd
       ∧ name fd = "bb_lk_exchange"
       ∧ bind_arguments ps (params fd) = inr (a1, a2)
       ∧ read_cage as_cage a1 = inr m1 ∧ read_cage as_cage a2 = inr m2
       ∧ (crosses bb_counter Nat.ltb m1 m2 (Cage_init (20, 1) 1)
          ∨ crosses bb_counter Nat.ltb m2 m1 (Cage_init (20, 1) 1))
       ∧ (topology (Cage_init (20, 1) 1 : cage) = topology m1
          ∨ topology (Cage_init (20, 1) 1 : cage) = topology m2)
       ∧ (params fd = ∅ → ps = [m1; m2])).
Proof.
  apply (call_of_class_returns_exchanges bb_counter Nat.ltb () as_cage
           keyword_env crossover_keyword crossover_keyword_attributes
           parents keyword_population EmptyString keyword_state
           run_keyword_eq).
  exact run_keyword_returns_exchange.
Defined.
